(** * Chunking and relevance ranking: a shallow embedding

    The development follows the TypeScript sources: [textMatchScore],
    [globalSearch], [searchProjectDocument], [chunkText], [findSentenceEnd]
    and [extractTextFromTxt] of [src/server/projectSearch.ts];
    [isGarbledText] and the upload and set-intent routes of [registerRoutes]
    in [src/client/src/components/SearchPanel.tsx]; and the footnote
    functions of [src/server/citationGenerator.ts].

    Conventions of the embedding.
    - A JavaScript string is a list of code units.  The alphabet is the
      8-bit range (Latin-1); on that range [toLowerCase], [trim] and the
      regular-expression class [\s] are modelled as ECMAScript defines them.
    - Integers (offsets, lengths, counts) are [Z].
    - A number that is not an integer is the rational [Q] it denotes.  The
      lexical score is computed as the source computes it, in binary64:
      [double] rounds a rational to the nearest binary64 value, and every
      literal and every operation of [textMatchScore] goes through it.  The
      similarities are the rationals that [cosineSimilarity] returns; they are
      compared with the thresholds as these are spelled, and so are the ratios
      of [isGarbledText].
    - A loop that the source does not bound is given a fuel argument and
      returns [None] when the fuel runs out. *)

From Stdlib Require Import Ascii String DecimalString.
From Stdlib Require Import List ZArith QArith Qround Qpower Bool Lia Lqa.
From Stdlib Require Import SpecFloat.
From Stdlib Require Import Permutation Sorted.
Import ListNotations.

Local Open Scope Z_scope.

(** ** JavaScript strings and arrays *)

Module JS.

Definition jsstring := list ascii.

Definition str (s : string) : jsstring := list_ascii_of_string s.

Definition len {A : Type} (l : list A) : Z := Z.of_nat (length l).

(** Relative index of [slice]: a negative index counts from the end. *)
Definition relIndex (n k : Z) : Z :=
  if k <? 0 then Z.max (n + k) 0 else Z.min k n.

(** [String.prototype.slice] and [Array.prototype.slice]. *)
Definition slice {A : Type} (l : list A) (a b : Z) : list A :=
  let from := relIndex (len l) a in
  let to := relIndex (len l) b in
  firstn (Z.to_nat (to - from)) (skipn (Z.to_nat from) l).

Definition code (c : ascii) : N := N_of_ascii c.

(** White space and line terminators: the class [\s], and what [trim] strips. *)
Definition isWhiteSpace (c : ascii) : bool :=
  let n := code c in
  ((9 <=? n) && (n <=? 13) || (n =? 32) || (n =? 160))%N.

Definition isUpper (c : ascii) : bool :=
  let n := code c in
  ((65 <=? n) && (n <=? 90)
   || (192 <=? n) && (n <=? 222) && negb (n =? 215))%N.

Definition toLowerChar (c : ascii) : ascii :=
  if isUpper c then ascii_of_N (code c + 32) else c.

Definition toLowerCase (s : jsstring) : jsstring := map toLowerChar s.

Fixpoint dropWhile {A : Type} (p : A -> bool) (l : list A) : list A :=
  match l with
  | [] => []
  | x :: l' => if p x then dropWhile p l' else l
  end.

Definition trim (s : jsstring) : jsstring :=
  rev (dropWhile isWhiteSpace (rev (dropWhile isWhiteSpace s))).

(** Truthiness of a string: the empty string is falsy. *)
Definition truthy (s : jsstring) : bool :=
  match s with [] => false | _ :: _ => true end.

Definition ascii_eqb (a b : ascii) : bool := (code a =? code b)%N.

(** [p] is a prefix of [s]. *)
Fixpoint startsWith (p s : jsstring) : bool :=
  match p, s with
  | [], _ => true
  | _ :: _, [] => false
  | a :: p', b :: s' => ascii_eqb a b && startsWith p' s'
  end.

(** [indexOfAux needle hay k]: [hay] is the suffix of the searched string
    that starts at index [k]. *)
Fixpoint indexOfAux (needle hay : jsstring) (k : Z) : Z :=
  if startsWith needle hay then k
  else match hay with
       | [] => -1
       | _ :: hay' => indexOfAux needle hay' (k + 1)
       end.

(** [hay.indexOf(needle, from)]. *)
Definition indexOf (hay needle : jsstring) (from : Z) : Z :=
  let p := Z.min (Z.max from 0) (len hay) in
  indexOfAux needle (skipn (Z.to_nat p) hay) p.

(** [hay.includes(needle)]. *)
Definition includes (hay needle : jsstring) : bool :=
  negb (indexOf hay needle 0 =? -1).

(** [s.split(/\s+/)]: [cur] is the piece being read, [inSep] tells that the
    previous code unit belonged to a separator run. *)
Fixpoint splitWsAux (s cur : jsstring) (inSep : bool) : list jsstring :=
  match s with
  | [] => [cur]
  | c :: s' =>
      if isWhiteSpace c
      then if inSep then splitWsAux s' [] true
           else cur :: splitWsAux s' [] true
      else splitWsAux s' (cur ++ [c]) false
  end.

Definition splitWs (s : jsstring) : list jsstring := splitWsAux s [] false.

(** [parts.join(sep)]. *)
Fixpoint join (sep : jsstring) (parts : list jsstring) : jsstring :=
  match parts with
  | [] => []
  | [p] => p
  | p :: rest => p ++ sep ++ join sep rest
  end.

End JS.

Import JS.

(** ** The chunker: [chunkText] and [findSentenceEnd] *)

Record TextChunkData := mkChunk {
  text : jsstring;
  startPosition : Z;
  endPosition : Z
}.

Definition sentenceEnders : list jsstring :=
  [str ". "%string; [ascii_of_nat 46; ascii_of_nat 10];
   str "! "%string; [ascii_of_nat 33; ascii_of_nat 10];
   str "? "%string; [ascii_of_nat 63; ascii_of_nat 10]].

(** The inner [while] loop of [findSentenceEnd] for one [ender].  The
    occurrences of [ender] are visited in increasing position, as the chain
    [indexOf(ender)], [indexOf(ender, pos + 1)], ... does; [s] is the suffix
    of the searched text at index [i].  [Some p] is the new [bestPos], [None]
    leaves [bestPos] as it was. *)
Fixpoint scanEnder (ender s : jsstring) (i targetLength : Z) : option Z :=
  match s with
  | [] => None
  | _ :: s' =>
      if startsWith ender s then
        if i <=? targetLength + 50 then
          if i >=? targetLength - 50 then Some (i + len ender)
          else scanEnder ender s' (i + 1) targetLength
        else None
      else scanEnder ender s' (i + 1) targetLength
  end.

Definition findSentenceEnd (txt : jsstring) (targetLength : Z) : Z :=
  fold_left
    (fun bestPos ender =>
       match scanEnder ender txt 0 targetLength with
       | Some p => p
       | None => bestPos
       end)
    sentenceEnders (-1).

(** One pass through the body of the [while] loop of [chunkText], from the
    cursor [start]: the end of the slice and the chunk pushed, if any. *)
Definition chunkEnd (txt : jsstring) (chunkSize start : Z) : Z :=
  let e := start + chunkSize in
  if e <? len txt then
    let sl := slice txt start (Z.min (e + 100) (len txt)) in
    let sentenceEnd := findSentenceEnd sl chunkSize in
    if sentenceEnd >? 0 then start + sentenceEnd else e
  else e.

Definition pushChunk (txt : jsstring) (start e : Z)
    (chunks : list TextChunkData) : list TextChunkData :=
  let chunkText := slice txt start e in
  if truthy (trim chunkText)
  then chunks ++ [mkChunk chunkText start e]
  else chunks.

(** The [while (start < text.length)] loop.  [None]: the loop is still
    running after [fuel] passes. *)
Fixpoint chunkLoop (fuel : nat) (txt : jsstring) (chunkSize overlap : Z)
    (start : Z) (chunks : list TextChunkData) : option (list TextChunkData) :=
  match fuel with
  | O => None
  | S fuel' =>
      if start <? len txt then
        let e := chunkEnd txt chunkSize start in
        let chunks' := pushChunk txt start e chunks in
        let start' := e - overlap in
        if start' >=? len txt - overlap then Some chunks'
        else chunkLoop fuel' txt chunkSize overlap start' chunks'
      else Some chunks
  end.

Definition chunkText (fuel : nat) (txt : jsstring) (chunkSize overlap : Z)
  : option (list TextChunkData) :=
  chunkLoop fuel txt chunkSize overlap 0 [].

(** The defaults of the signature: [chunkSize = 500], [overlap = 50]. *)
Definition defaultChunkSize : Z := 500.
Definition defaultOverlap : Z := 50.

(** ** Numbers *)

Definition Qltb (a b : Q) : bool := negb (Qle_bool b a).

(** [l.sort((a, b) => key(b) - key(a))]: descending by [key], stable. *)
Fixpoint insertDesc {A : Type} (key : A -> Q) (x : A) (l : list A) : list A :=
  match l with
  | [] => [x]
  | y :: l' =>
      if Qltb (key x) (key y) then y :: insertDesc key x l' else x :: l
  end.

Definition sortDesc {A : Type} (key : A -> Q) (l : list A) : list A :=
  fold_right (insertDesc key) [] l.

(** ** Numbers: binary64

    A finite binary64 value is the rational it denotes.  [double q] is the
    binary64 value nearest to [q], a tie going to the value whose last bit
    is 0: the value of a decimal literal, and the result of [+], [*] and [/]
    on the exact result.  The numbers rounded here lie between 0 and 1;
    the overflow to [Infinity], from [2 ^ 1024] on, is outside the model. *)

(** The integer nearest to [q], a tie going to the even one. *)
Definition nearest (q : Q) : Z :=
  let f := Qfloor q in
  match (q - inject_Z f ?= 1 # 2)%Q with
  | Lt => f
  | Gt => f + 1
  | Eq => if Z.even f then f else f + 1
  end.

(** For [0 < q], the exponent [e] with [2 ^ e <= q < 2 ^ (e + 1)]. *)
Definition binade (q : Q) : Z :=
  let a := Z.log2 (Qnum q) in
  let b := Z.log2 (Zpos (Qden q)) in
  if Qnum q * 2 ^ b <? Zpos (Qden q) * 2 ^ a then a - b - 1 else a - b.

Definition pow2 (e : Z) : Q := (2 ^ e)%Q.

(** The exponent of the last of the 53 bits kept; below [2 ^ -1022] the
    values are [2 ^ -1074] apart. *)
Definition lastPlace (q : Q) : Z := Z.max (binade q - 52) (-1074).

Definition roundPositive (q : Q) : Q :=
  (inject_Z (nearest (q / pow2 (lastPlace q))) * pow2 (lastPlace q))%Q.

Definition double (q : Q) : Q :=
  match (q ?= 0)%Q with
  | Eq => 0%Q
  | Gt => roundPositive q
  | Lt => (- roundPositive (- q))%Q
  end.

(** ** The lexical score: [textMatchScore] *)

Definition TEXT_MATCH_SCORE : Q := double (6 # 10).

Definition queryWordsOf (queryLower : jsstring) : list jsstring :=
  filter (fun w => len w >? 2) (splitWs queryLower).

(** The [for (const word of queryWords)] loop. *)
Definition matchedWordsOf (textLower : jsstring) (queryWords : list jsstring)
  : Z :=
  fold_left (fun matchedWords word =>
               if includes textLower word then matchedWords + 1
               else matchedWords)
            queryWords 0.

(** The literals [0.6], [0.3] and [0.5] are the binary64 values nearest to
    them, and the sum, the quotient and the product are rounded; the two
    counts divided are integers below [2 ^ 53], binary64 values as they
    are. *)
Definition textMatchScore (query txt : jsstring) : Q :=
  let queryLower := toLowerCase query in
  let textLower := toLowerCase txt in
  if includes textLower queryLower
  then double (TEXT_MATCH_SCORE + double (3 # 10))
  else
    let queryWords := queryWordsOf queryLower in
    if len queryWords =? 0 then 0%Q
    else
      let matchedWords := matchedWordsOf textLower queryWords in
      let matchRatio :=
        double (inject_Z matchedWords / inject_Z (len queryWords)) in
      if Qle_bool (double (5 # 10)) matchRatio
      then double (TEXT_MATCH_SCORE * matchRatio)
      else 0%Q.

Inductive RelevanceLevel := high | medium | low.

Definition getRelevanceLevel (similarity : Q) : RelevanceLevel :=
  if Qle_bool (double (7 # 10)) similarity then high
  else if Qle_bool (double (5 # 10)) similarity then medium
  else low.

(** ** The data base rows read by the search *)

(** A nullable text column: [None] is [null]. *)
Definition nullable := option jsstring.

Definition truthyN (o : nullable) : bool :=
  match o with Some s => truthy s | None => false end.

(** [a || b] with a nullable left operand. *)
Definition orElse (a : nullable) (b : jsstring) : jsstring :=
  match a with
  | Some s => if truthy s then s else b
  | None => b
  end.

(** [a || undefined]. *)
Definition orUndefined (a : nullable) : nullable :=
  if truthyN a then a else None.

(** [parts.filter(Boolean).join(' ')]. *)
Definition joinTruthy (parts : list nullable) : jsstring :=
  join (str " "%string)
       (flat_map (fun o => match o with
                           | Some s => if truthy s then [s] else []
                           | None => []
                           end) parts).

Fixpoint jsstring_eqb (a b : jsstring) : bool :=
  match a, b with
  | [], [] => true
  | x :: a', y :: b' => ascii_eqb x y && jsstring_eqb a' b'
  | _, _ => false
  end.

(** [ids.includes(id)] on an array of strings. *)
Definition includesId (ids : list jsstring) (id : jsstring) : bool :=
  existsb (jsstring_eqb id) ids.

Record Project := mkProject {
  project_id : jsstring;
  project_name : jsstring;
  project_contextSummary : nullable;
  project_thesis : nullable
}.

Record Folder := mkFolder {
  folder_id : jsstring;
  folder_projectId : jsstring;
  folder_name : jsstring;
  folder_description : nullable;
  folder_contextSummary : nullable
}.

Record ProjectDocument := mkProjectDocument {
  pd_id : jsstring;
  pd_projectId : jsstring;
  pd_documentId : jsstring;
  pd_folderId : nullable;
  pd_retrievalContext : nullable;
  pd_citationData : nullable
}.

Record Document := mkDocument {
  doc_id : jsstring;
  doc_filename : jsstring;
  doc_summary : nullable;
  doc_userIntent : nullable
}.

Record ProjectAnnotation := mkProjectAnnotation {
  ann_id : jsstring;
  ann_projectDocumentId : jsstring;
  ann_category : jsstring;
  ann_searchableContent : nullable;
  ann_highlightedText : jsstring;
  ann_note : nullable;
  ann_startPosition : Z
}.

(** An embedding vector. *)
Definition Vector := list Q.

Record Chunk := mkStoredChunk {
  chunk_id : jsstring;
  chunk_documentId : jsstring;
  chunk_text : jsstring;
  chunk_startPosition : Z;
  chunk_endPosition : Z;
  chunk_embedding : option Vector
}.

Record Database := mkDatabase {
  projects : list Project;
  folders : list Folder;
  projectDocuments : list ProjectDocument;
  documents : list Document;
  projectAnnotations : list ProjectAnnotation;
  chunks : list Chunk
}.

(** ** The global search: [globalSearch] *)

Inductive ResultType := folder_context | document_context | annotation.

Record GlobalSearchResult := mkResult {
  r_type : ResultType;
  r_folderId : nullable;
  r_folderName : nullable;
  r_documentId : nullable;
  r_documentFilename : nullable;
  r_annotationId : nullable;
  r_matchedText : jsstring;
  r_highlightedText : nullable;
  r_note : nullable;
  r_category : nullable;
  r_citationData : nullable;
  r_similarityScore : Q;
  r_relevanceLevel : RelevanceLevel;
  r_startPosition : option Z
}.

Record SearchFilters := mkFilters {
  categories : option (list jsstring);
  folderIds : option (list jsstring);
  documentIds : option (list jsstring)
}.

(** [filters?.field]. *)
Definition optField {A : Type} (f : SearchFilters -> option A)
    (filters : option SearchFilters) : option A :=
  match filters with Some fs => f fs | None => None end.

(** [filters?.field && !filters.field.includes(id)]: an array is truthy. *)
Definition notListed (allow : option (list jsstring)) (id : jsstring) : bool :=
  match allow with
  | Some ids => negb (includesId ids id)
  | None => false
  end.

(** [filters?.folderIds && projectDoc.folderId &&
     !filters.folderIds.includes(projectDoc.folderId)]. *)
Definition folderExcluded (filters : option SearchFilters) (folderId : nullable)
  : bool :=
  match optField folderIds filters with
  | Some ids =>
      match folderId with
      | Some f => truthy f && negb (includesId ids f)
      | None => false
      end
  | None => false
  end.

(** The response; [searchTime], a difference of two readings of the clock,
    is not part of the model. *)
Record SearchResponse := mkResponse {
  results : list GlobalSearchResult;
  totalResults : Z
}.

Definition projectResults (query : jsstring) (p : Project)
  : list GlobalSearchResult :=
  if truthyN (project_contextSummary p) || truthyN (project_thesis p) then
    let textToMatch :=
      joinTruthy [project_contextSummary p; project_thesis p;
                  Some (project_name p)] in
    let score := textMatchScore query textToMatch in
    if Qltb 0 score then
      [mkResult folder_context None None None None None
         (orElse (project_contextSummary p)
                 (orElse (project_thesis p) (project_name p)))
         None None None None score (getRelevanceLevel score) None]
    else []
  else [].

Definition folderResults (query : jsstring) (filters : option SearchFilters)
    (folder : Folder) : list GlobalSearchResult :=
  if notListed (optField folderIds filters) (folder_id folder) then []
  else
    let textToMatch :=
      joinTruthy [folder_contextSummary folder; folder_description folder;
                  Some (folder_name folder)] in
    let score := textMatchScore query textToMatch in
    if Qltb 0 score then
      [mkResult folder_context (Some (folder_id folder))
         (Some (folder_name folder)) None None None
         (orElse (folder_contextSummary folder)
                 (orElse (folder_description folder) (folder_name folder)))
         None None None None score (getRelevanceLevel score) None]
    else [].

Definition documentResults (query : jsstring) (filters : option SearchFilters)
    (row : ProjectDocument * Document) : list GlobalSearchResult :=
  let (projectDoc, doc) := row in
  if notListed (optField documentIds filters) (pd_id projectDoc) then []
  else if folderExcluded filters (pd_folderId projectDoc) then []
  else
    let textToMatch :=
      joinTruthy [pd_retrievalContext projectDoc; doc_summary doc;
                  Some (doc_filename doc)] in
    let score := textMatchScore query textToMatch in
    if Qltb 0 score then
      [mkResult document_context (orUndefined (pd_folderId projectDoc)) None
         (Some (pd_id projectDoc)) (Some (doc_filename doc)) None
         (orElse (pd_retrievalContext projectDoc)
                 (orElse (doc_summary doc) (doc_filename doc)))
         None None None (orUndefined (pd_citationData projectDoc))
         score (getRelevanceLevel score) None]
    else [].

Definition annotationResults (query : jsstring)
    (filters : option SearchFilters)
    (row : ProjectAnnotation * ProjectDocument * Document)
  : list GlobalSearchResult :=
  let '(ann, projectDoc, doc) := row in
  if notListed (optField categories filters) (ann_category ann) then []
  else if notListed (optField documentIds filters) (pd_id projectDoc) then []
  else if folderExcluded filters (pd_folderId projectDoc) then []
  else
    let textToMatch :=
      joinTruthy [ann_searchableContent ann; Some (ann_highlightedText ann);
                  ann_note ann] in
    let score := textMatchScore query textToMatch in
    if Qltb 0 score then
      [mkResult annotation (orUndefined (pd_folderId projectDoc)) None
         (Some (pd_id projectDoc)) (Some (doc_filename doc))
         (Some (ann_id ann))
         (orElse (ann_searchableContent ann) (ann_highlightedText ann))
         (Some (ann_highlightedText ann)) (orUndefined (ann_note ann))
         (Some (ann_category ann)) (orUndefined (pd_citationData projectDoc))
         score (getRelevanceLevel score) (Some (ann_startPosition ann))]
    else [].

(** The rows of the three queries, in table order. *)
Definition selectFolders (db : Database) (projectId : jsstring) : list Folder :=
  filter (fun f => jsstring_eqb (folder_projectId f) projectId) (folders db).

Definition joinDocuments (db : Database) (pd : ProjectDocument)
  : list (ProjectDocument * Document) :=
  map (fun d => (pd, d))
      (filter (fun d => jsstring_eqb (pd_documentId pd) (doc_id d))
              (documents db)).

Definition selectProjectDocs (db : Database) (projectId : jsstring)
  : list (ProjectDocument * Document) :=
  flat_map (joinDocuments db)
    (filter (fun pd => jsstring_eqb (pd_projectId pd) projectId)
            (projectDocuments db)).

Definition selectAnnotations (db : Database) (projectId : jsstring)
  : list (ProjectAnnotation * ProjectDocument * Document) :=
  flat_map
    (fun a =>
       flat_map
         (fun pd => map (fun row => (a, fst row, snd row))
                        (joinDocuments db pd))
         (filter (fun pd =>
                    jsstring_eqb (ann_projectDocumentId a) (pd_id pd)
                    && jsstring_eqb (pd_projectId pd) projectId)
                 (projectDocuments db)))
    (projectAnnotations db).

(** The array [results] as it stands before [sort] and [slice]. *)
Definition pooledResults (db : Database) (p : Project)
    (projectId query : jsstring) (filters : option SearchFilters)
  : list GlobalSearchResult :=
  projectResults query p
  ++ flat_map (folderResults query filters) (selectFolders db projectId)
  ++ flat_map (documentResults query filters) (selectProjectDocs db projectId)
  ++ flat_map (annotationResults query filters)
              (selectAnnotations db projectId).

Definition globalSearch (db : Database) (projectId query : jsstring)
    (filters : option SearchFilters) (limit : Z) : SearchResponse :=
  match filter (fun p => jsstring_eqb (project_id p) projectId) (projects db)
  with
  | [] => mkResponse [] 0
  | p :: _ =>
      let pool := pooledResults db p projectId query filters in
      let sorted := sortDesc r_similarityScore pool in
      mkResponse (slice sorted 0 limit) (len sorted)
  end.

Definition defaultLimit : Z := 20.

(** ** Effects: the stored rows, the calls made, and thrown errors *)

Inductive Event :=
| EvGetEmbedding (input : jsstring)
| EvUpdateChunkEmbedding (chunkId : jsstring) (embedding : Vector)
| EvSearchDocument (query researchContext : jsstring).

Record World := mkWorld {
  world_db : Database;
  world_trace : list Event
}.

Inductive Outcome (A : Type) :=
| Returned (a : A)
| Thrown (message : jsstring).

Arguments Returned {A} a.
Arguments Thrown {A} message.

Definition M (A : Type) : Type := World -> Outcome A * World.

Definition ret {A : Type} (a : A) : M A := fun w => (Returned a, w).

Definition throw {A : Type} (message : jsstring) : M A :=
  fun w => (Thrown message, w).

Definition bind {A B : Type} (m : M A) (k : A -> M B) : M B :=
  fun w =>
    match m w with
    | (Returned a, w') => k a w'
    | (Thrown message, w') => (Thrown message, w')
    end.

Notation "x <- m ;; k" := (bind m (fun x => k))
  (at level 61, m at next level, right associativity).

Definition readDb : M Database := fun w => (Returned (world_db w), w).

Definition emit (e : Event) : M unit :=
  fun w => (Returned tt, mkWorld (world_db w) (world_trace w ++ [e])).

Fixpoint mapM {A B : Type} (f : A -> M B) (l : list A) : M (list B) :=
  match l with
  | [] => ret []
  | x :: l' => y <- f x ;; ys <- mapM f l' ;; ret (y :: ys)
  end.

(** ** The interface of [./openai] and of [./storage] *)

Inductive ThoroughnessLevel := quick | standard | thorough | exhaustive.

Record RankedChunk := mkRankedChunk {
  rc_text : jsstring;
  rc_startPosition : Z;
  rc_endPosition : Z;
  rc_similarity : Q
}.

(** What the module [./openai] exports to the code modelled here.  The
    embedding provider and the quote finder are functions of their
    arguments; a failure of the provider is not modelled.  When the calls
    for several chunks are pending together, the provider answers them in
    an order of its own: [answered waiting] lists the chunks [waiting] in
    the order in which their vectors arrive. *)
Class OpenAI := {
  SearchResult : Type;
  embeddingOf : jsstring -> Vector;
  cosineSimilarity : Vector -> Vector -> Q;
  quotesOf : jsstring -> jsstring -> list RankedChunk -> list SearchResult;
  getMaxChunksForLevel : ThoroughnessLevel -> Z;
  answered : list Chunk -> list Chunk;
  answered_all : forall waiting, Permutation (answered waiting) waiting
}.

Section Operations.

Context {openai : OpenAI}.

(** [await getEmbedding(input)]: one call of the provider. *)
Definition getEmbedding (input : jsstring) : M Vector :=
  _ <- emit (EvGetEmbedding input) ;; ret (embeddingOf input).

(** [await searchDocument(query, researchContext, rankedChunks)]. *)
Definition searchDocument (query researchContext : jsstring)
    (rankedChunks : list RankedChunk) : M (list SearchResult) :=
  _ <- emit (EvSearchDocument query researchContext) ;;
  ret (quotesOf query researchContext rankedChunks).

(** [storage.getChunksForDocument(documentId)]. *)
Definition getChunksForDocument (documentId : jsstring) : M (list Chunk) :=
  db <- readDb ;;
  ret (filter (fun c => jsstring_eqb (chunk_documentId c) documentId)
              (chunks db)).

Definition setEmbedding (c : Chunk) (embedding : Vector) : Chunk :=
  mkStoredChunk (chunk_id c) (chunk_documentId c) (chunk_text c)
    (chunk_startPosition c) (chunk_endPosition c) (Some embedding).

Definition withChunks (db : Database) (cs : list Chunk) : Database :=
  mkDatabase (projects db) (folders db) (projectDocuments db) (documents db)
    (projectAnnotations db) cs.

(** [storage.updateChunkEmbedding(chunkId, embedding)]. *)
Definition updateChunkEmbedding (chunkId : jsstring) (embedding : Vector)
  : M unit :=
  fun w =>
    (Returned tt,
     mkWorld
       (withChunks (world_db w)
          (map (fun c => if jsstring_eqb (chunk_id c) chunkId
                         then setEmbedding c embedding else c)
               (chunks (world_db w))))
       (world_trace w ++ [EvUpdateChunkEmbedding chunkId embedding])).

(** ** Search within one project document: [searchProjectDocument] *)

(** [docChunks.filter((c) => c.embedding).map((chunk) => ...)]: a chunk is
    kept when its vector is there, and the vector read by
    [chunk.embedding!] is that one. *)
Definition rankable (queryEmbedding : Vector) (c : Chunk) : list RankedChunk :=
  match chunk_embedding c with
  | Some v =>
      [mkRankedChunk (chunk_text c) (chunk_startPosition c)
         (chunk_endPosition c) (cosineSimilarity v queryEmbedding)]
  | None => []
  end.

Definition searchProjectDocument (projectDocId query : jsstring)
  : M (list SearchResult) :=
  db <- readDb ;;
  match filter (fun pd => jsstring_eqb (pd_id pd) projectDocId)
               (projectDocuments db) with
  | [] => throw (str "Project document not found"%string)
  | projectDoc :: _ =>
      match filter (fun d => jsstring_eqb (doc_id d) (pd_documentId projectDoc))
                   (documents db) with
      | [] => throw (str "Document not found"%string)
      | doc :: _ =>
          let project :=
            hd_error (filter (fun p => jsstring_eqb (project_id p)
                                         (pd_projectId projectDoc))
                             (projects db)) in
          docChunks <- getChunksForDocument (doc_id doc) ;;
          if len docChunks =? 0 then ret []
          else
            queryEmbedding <- getEmbedding query ;;
            let rankedChunks :=
              slice (sortDesc rc_similarity
                       (flat_map (rankable queryEmbedding) docChunks)) 0 5 in
            if len rankedChunks =? 0 then ret []
            else
              let researchContext :=
                orElse (match project with
                        | Some p => project_thesis p
                        | None => None
                        end)
                       (orElse (doc_userIntent doc) []) in
              searchDocument query researchContext rankedChunks
      end
  end.

(** ** The set-intent route: level, embedding fill, ranking, selection *)

(** The field [thoroughness] of the request body. *)
Inductive BodyValue :=
| Absent
| StringValue (s : jsstring)
| OtherValue.

(** [const { thoroughness = 'standard' } = req.body] followed by
    [validLevels.includes(thoroughness) ? thoroughness : 'standard']. *)
Definition resolveLevel (thoroughness : BodyValue) : ThoroughnessLevel :=
  match thoroughness with
  | Absent => standard
  | StringValue s =>
      if jsstring_eqb s (str "quick"%string) then quick
      else if jsstring_eqb s (str "standard"%string) then standard
      else if jsstring_eqb s (str "thorough"%string) then thorough
      else if jsstring_eqb s (str "exhaustive"%string) then exhaustive
      else standard
  | OtherValue => standard
  end.

(** [!chunk.embedding]. *)
Definition lacksEmbedding (c : Chunk) : bool :=
  match chunk_embedding c with None => true | Some _ => false end.

(** What the callback of [chunks.map(async (chunk) => ...)] returns for a
    chunk: [{ ...chunk, embedding }] or the chunk itself.  The vector paired
    with the chunk is the one that [chunk.embedding!] reads afterwards. *)
Definition filled (c : Chunk) : Chunk * Vector :=
  match chunk_embedding c with
  | None =>
      (setEmbedding c (embeddingOf (chunk_text c)), embeddingOf (chunk_text c))
  | Some v => (c, v)
  end.

(** The two awaited calls of the callback, for a chunk without vector. *)
Definition requestEmbedding (c : Chunk) : M Vector :=
  getEmbedding (chunk_text c).

Definition storeEmbedding (c : Chunk) : M unit :=
  updateChunkEmbedding (chunk_id c) (embeddingOf (chunk_text c)).

(** [await Promise.all(chunks.map(async (chunk) => ...))].  [map] starts the
    callbacks one after the other, and each runs up to its first [await]:
    for a chunk without vector that is the call of [getEmbedding], so the
    provider is called for every such chunk, in the order of [chunks],
    before any callback goes on.  The callbacks go on as the provider
    answers, and each then calls [updateChunkEmbedding].  The array that
    [Promise.all] resolves to keeps the order of [chunks]. *)
Definition fillEmbeddings (cs : list Chunk) : M (list (Chunk * Vector)) :=
  let waiting := filter lacksEmbedding cs in
  _ <- mapM requestEmbedding waiting ;;
  _ <- mapM storeEmbedding (answered waiting) ;;
  ret (map filled cs).

Definition Candidate : Type := Chunk * Q.

Definition similarity (c : Candidate) : Q := snd c.

Definition rankChunks (intentEmbedding : Vector)
    (chunksWithEmbeddings : list (Chunk * Vector)) : list Candidate :=
  sortDesc similarity
    (map (fun cv => (fst cv, cosineSimilarity (snd cv) intentEmbedding))
         chunksWithEmbeddings).

Definition minSimilarityOf (level : ThoroughnessLevel) : Q :=
  match level with
  | exhaustive => 1 # 10
  | _ => 3 # 10
  end.

(** [rankedChunks.filter(({ similarity }) => similarity >= minSimilarity)
      .slice(0, maxChunks)]. *)
Definition selectCandidates (level : ThoroughnessLevel)
    (rankedChunks : list Candidate) : list Candidate :=
  slice (filter (fun c => Qle_bool (minSimilarityOf level) (similarity c))
                rankedChunks)
        0 (getMaxChunksForLevel level).

Record TopChunk := mkTopChunk {
  top_text : jsstring;
  top_startPosition : Z;
  top_id : jsstring
}.

Definition topChunksOf (level : ThoroughnessLevel)
    (rankedChunks : list Candidate) : list TopChunk :=
  map (fun c => mkTopChunk (chunk_text (fst c)) (chunk_startPosition (fst c))
                  (chunk_id (fst c)))
      (selectCandidates level rankedChunks).

(** The route from [storage.getChunksForDocument] to [topChunks], for a
    document that was found. *)
Definition setIntentTopChunks (documentId intent : jsstring)
    (thoroughness : BodyValue) : M (list TopChunk) :=
  let level := resolveLevel thoroughness in
  cs <- getChunksForDocument documentId ;;
  if len cs =? 0 then throw (str "No text chunks found for analysis"%string)
  else
    intentEmbedding <- getEmbedding intent ;;
    chunksWithEmbeddings <- fillEmbeddings cs ;;
    ret (topChunksOf level (rankChunks intentEmbedding chunksWithEmbeddings)).

End Operations.

(** ** The garbled-text detector: [isGarbledText] *)

Definition isAlpha (c : ascii) : bool :=
  let n := code c in
  ((65 <=? n) && (n <=? 90) || (97 <=? n) && (n <=? 122))%N.

(** The class [[\[\]{}\\|^~`@#$%&*+=<>]]. *)
Definition isBracket (c : ascii) : bool :=
  existsb (N.eqb (code c))
    [91; 93; 123; 125; 92; 124; 94; 126; 96; 64; 35; 36; 37; 38; 42; 43; 61;
     60; 62]%N.

Definition closeRun (cur : jsstring) : list jsstring :=
  if len cur >=? 3 then [cur] else [].

(** [sample.match(/[a-zA-Z]{3,}/g) || []]: the scan keeps in [cur] the
    letters read since the last code unit that is not a letter; the greedy
    quantifier makes a match end where the letters end. *)
Fixpoint matchWordsAux (s cur : jsstring) : list jsstring :=
  match s with
  | [] => closeRun cur
  | c :: s' =>
      if isAlpha c then matchWordsAux s' (cur ++ [c])
      else closeRun cur ++ matchWordsAux s' []
  end.

Definition matchWords (s : jsstring) : list jsstring := matchWordsAux s [].

(** [sample.match(/[...]/g) || []] for a class of single code units. *)
Definition matchClass (p : ascii -> bool) (s : jsstring) : list ascii :=
  filter p s.

(** [sample.replace(/\s/g, "")]. *)
Definition removeWhiteSpace (s : jsstring) : jsstring :=
  filter (fun c => negb (isWhiteSpace c)) s.

Definition ratio (a b : Z) : Q := (inject_Z a / inject_Z b)%Q.

(** The array [specialChars] of the source does not enter the result and
    is left out. *)
Definition isGarbledText (txt : jsstring) : bool :=
  if negb (truthy txt) || (len txt <? 100) then false
  else
    let sample := slice txt 0 2000 in
    let words := matchWords sample in
    let brackets := matchClass isBracket sample in
    let wordChars := len (concat words) in
    let totalChars := len (removeWhiteSpace sample) in
    let wordRatio :=
      if totalChars >? 0 then ratio wordChars totalChars else 0%Q in
    let bracketRatio :=
      if totalChars >? 0 then ratio (len brackets) totalChars else 0%Q in
    let avgWordLen :=
      if len words >? 0 then ratio wordChars (len words) else 0%Q in
    Qltb wordRatio (4 # 10) || Qltb (1 # 10) bracketRatio
    || ((len words >? 10) && Qltb avgWordLen 3).

(** ** Notions used to state the properties *)

(** [hay] contains [needle] as a substring. *)
Definition containsSubstring (hay needle : jsstring) : Prop :=
  exists pre post, hay = pre ++ needle ++ post.

Definition closeWord (cur : jsstring) : list jsstring :=
  match cur with [] => [] | _ :: _ => [cur] end.

(** The maximal runs of code units that satisfy [p]; [cur] is the run being
    read. *)
Fixpoint runsAux (p : ascii -> bool) (s cur : jsstring) : list jsstring :=
  match s with
  | [] => closeWord cur
  | c :: s' =>
      if p c then runsAux p s' (cur ++ [c])
      else closeWord cur ++ runsAux p s' []
  end.

Definition runsOf (p : ascii -> bool) (s : jsstring) : list jsstring :=
  runsAux p s [].

(** The words of a string: its maximal runs of code units that are not
    white space. *)
Definition wordsOf (s : jsstring) : list jsstring :=
  runsOf (fun c => negb (isWhiteSpace c)) s.

(** The maximal runs of at least three letters. *)
Definition alphabeticWords (s : jsstring) : list jsstring :=
  filter (fun w => len w >=? 3) (runsOf isAlpha s).

(** A sample of the interface of [./openai], for concrete runs: vectors
    have one component, the similarity of two vectors is the product of
    their first components, the provider maps a text to its length in
    tenths and answers the calls pending together last first, and the chunk
    limits follow the descriptions shown with the levels (about 10, 30 and
    100 sections; the whole document). *)
Definition firstComponent (v : Vector) : Q :=
  match v with [] => 0%Q | x :: _ => x end.

Definition sampleOpenAI : OpenAI := {|
  SearchResult := RankedChunk;
  embeddingOf := fun s => [(len s # 10)%Q];
  cosineSimilarity := fun a b => (firstComponent a * firstComponent b)%Q;
  quotesOf := fun _ _ rankedChunks => rankedChunks;
  getMaxChunksForLevel := fun level =>
    match level with
    | quick => 10
    | standard => 30
    | thorough => 100
    | exhaustive => 1000000
    end;
  answered := @rev Chunk;
  answered_all := fun waiting => Permutation_sym (Permutation_rev waiting)
|}.

Definition emptyDatabase : Database := mkDatabase [] [] [] [] [] [].

(** A project named [cat] without context summary and thesis, holding one
    document [notes.txt] outside any folder, whose single chunk has no
    embedding yet. *)
Definition sampleProject : Project :=
  mkProject (str "p1"%string) (str "cat"%string) None None.

Definition sampleProjectDocument : ProjectDocument :=
  mkProjectDocument (str "pd1"%string) (str "p1"%string) (str "doc1"%string)
    None None None.

Definition sampleDocument : Document :=
  mkDocument (str "doc1"%string) (str "notes.txt"%string) None None.

Definition sampleChunk : Chunk :=
  mkStoredChunk (str "c1"%string) (str "doc1"%string)
    (str "cats purr"%string) 0 9 None.

Definition sampleDatabase : Database :=
  mkDatabase [sampleProject] [] [sampleProjectDocument] [sampleDocument] []
    [sampleChunk].

(** The same, with a second chunk in the document, also without
    embedding. *)
Definition secondChunk : Chunk :=
  mkStoredChunk (str "c2"%string) (str "doc1"%string)
    (str "dogs bark loud"%string) 9 23 None.

Definition twoChunkDatabase : Database :=
  mkDatabase [sampleProject] [] [sampleProjectDocument] [sampleDocument] []
    [sampleChunk; secondChunk].

Definition nearTarget (s : jsstring) (t r : Z) : Prop :=
  r = -1 \/ (t - 48 <= r <= t + 52 /\ r <= len s).

(** What a chunk satisfies when the parameters let the cursor advance; the
    bound [endPosition <= len txt] is the one that a chunk which keeps the
    tentative end [start + chunkSize] can miss. *)
Definition chunkShape (txt : jsstring) (chunkSize : Z) (c : TextChunkData)
  : Prop :=
  0 <= startPosition c < endPosition c
  /\ startPosition c < len txt
  /\ text c = slice txt (startPosition c) (endPosition c)
  /\ (endPosition c <= len txt
      \/ endPosition c = startPosition c + chunkSize).

Definition startsBefore (a b : TextChunkData) : Prop :=
  startPosition a < startPosition b.

Definition positions (cs : list TextChunkData) : list (Z * Z) :=
  map (fun c => (startPosition c, endPosition c)) cs.

Definition longWord (w : jsstring) : bool := len w >? 2.

(** The Standard Library's specification of IEEE 754 arithmetic, taken at
    the binary64 format, to compare [double] with: the binary64 value of
    [n * 2 ^ e], the rational that a finite value denotes, and the test that
    the quotient of two counts, and its product with [0.6], are rounded
    alike by the two. *)
Definition binary64 (n e : Z) : spec_float :=
  binary_normalize 53 1024 n e false.

Definition valueOf (x : spec_float) : Q :=
  match x with
  | S754_finite s m e =>
      ((if s then -1 else 1) * inject_Z (Zpos m) * pow2 e)%Q
  | _ => 0%Q
  end.

Definition roundedAlike (found total : Z) : bool :=
  let quotient := SFdiv 53 1024 (binary64 found 0) (binary64 total 0) in
  let product :=
    SFmul 53 1024 (binary64 5404319552844595 (-53)) quotient in
  Qeq_bool (valueOf quotient) (double (ratio found total))
  && Qeq_bool (valueOf product)
       (double (TEXT_MATCH_SCORE * double (ratio found total))).

Definition countsUpTo (n : nat) : list (Z * Z) :=
  flat_map (fun total => map (fun found => (Z.of_nat found, Z.of_nat total))
                             (seq 0 (S total)))
           (seq 1 n).

(** The binary64 value that [0.8999999999999999] denotes. *)
Definition wholeMatchScore : Q :=
  double (8999999999999999 # 10000000000000000).

(** The result pushed for the project itself. *)
Definition projectRecord (query : jsstring) (p : Project)
  : GlobalSearchResult :=
  let score :=
    textMatchScore query
      (joinTruthy [project_contextSummary p; project_thesis p;
                   Some (project_name p)]) in
  mkResult folder_context None None None None None
    (orElse (project_contextSummary p)
            (orElse (project_thesis p) (project_name p)))
    None None None None score (getRelevanceLevel score) None.

Definition thesisProject : Project :=
  mkProject (str "p1"%string) (str "cat"%string) None
    (Some (str "Felines and their owners"%string)).

(** The project [thesisProject] with the document and its chunk, whose
    vector is stored. *)
Definition embeddedChunk : Chunk :=
  mkStoredChunk (str "c1"%string) (str "doc1"%string)
    (str "cats purr"%string) 0 9 (Some [9 # 10]).

Definition embeddedDatabase : Database :=
  mkDatabase [thesisProject] [] [sampleProjectDocument] [sampleDocument] []
    [embeddedChunk].

Definition onlyFolder (id : jsstring) : option SearchFilters :=
  Some (mkFilters None (Some [id]) None).



(** [a] may come before [b] in a ranking that descends by [key]. *)
Definition descending {A : Type} (key : A -> Q) (a b : A) : Prop :=
  (key b <= key a)%Q.

Section FillNotions.

Context {openai : OpenAI}.

(** The calls that the fill makes for a chunk without vector, and what
    the second one stores. *)
Definition requestEvent (c : Chunk) : Event :=
  EvGetEmbedding (chunk_text c).

Definition storeEvent (c : Chunk) : Event :=
  EvUpdateChunkEmbedding (chunk_id c) (embeddingOf (chunk_text c)).

Definition persist (stored : list Chunk) (c : Chunk) : list Chunk :=
  match chunk_embedding c with
  | None =>
      map (fun s => if jsstring_eqb (chunk_id s) (chunk_id c)
                    then setEmbedding s (embeddingOf (chunk_text c)) else s)
          stored
  | Some _ => stored
  end.

(** What the fill adds to the trace: the requests for the chunks without
    vector, in the order of the chunks, then the stores, in the order of the
    answers. *)
Definition fillTrace (cs : list Chunk) : list Event :=
  let waiting := filter lacksEmbedding cs in
  map requestEvent waiting ++ map storeEvent (answered waiting).

Definition isProviderCall (e : Event) : bool :=
  match e with EvGetEmbedding _ => true | _ => false end.

End FillNotions.

(** ** Notions used to state the further properties *)

(** A result honours the filters: its folder, document and category, when it
    carries them, are on the lists supplied. *)
Definition honoursFilters (filters : option SearchFilters)
    (x : GlobalSearchResult) : Prop :=
  (forall ids f, optField folderIds filters = Some ids ->
                 r_folderId x = Some f -> In f ids)
  /\ (forall ids d, optField documentIds filters = Some ids ->
                    r_documentId x = Some d -> In d ids)
  /\ (forall cats c, optField categories filters = Some cats ->
                     r_category x = Some c -> In c cats).

(** A result carries a score above 0 and at most 0.9, and the level that
    [getRelevanceLevel] gives to that score. *)
Definition scored (x : GlobalSearchResult) : Prop :=
  (0 < r_similarityScore x <= 9 # 10)%Q
  /\ r_relevanceLevel x = getRelevanceLevel (r_similarityScore x).

Definition sameScore (v : Q) (x : GlobalSearchResult) : bool :=
  Qeq_bool (r_similarityScore x) v.

(** The result that the document [notes.txt] gives for the query [notes]. *)
Definition notesRecord : GlobalSearchResult :=
  let score := textMatchScore (str "notes"%string) (str "notes.txt"%string) in
  mkResult document_context None None (Some (str "pd1"%string))
    (Some (str "notes.txt"%string)) None (str "notes.txt"%string)
    None None None None score (getRelevanceLevel score) None.

(** A project with a thesis, a folder and a document that all contain the
    word [felines]. *)
Definition tieDatabase : Database :=
  mkDatabase [thesisProject]
    [mkFolder (str "f1"%string) (str "p1"%string) (str "Felines"%string)
       None None]
    [sampleProjectDocument]
    [mkDocument (str "doc1"%string) (str "felines.txt"%string) None None]
    [] [].

(** The offset [i] lies inside one of the chunks. *)
Definition covered (cs : list TextChunkData) (i : Z) : Prop :=
  exists c, In c cs /\ startPosition c <= i < endPosition c.

(** [c] is the chunk that a pass of the loop pushes from some cursor. *)
Definition passChunk (txt : jsstring) (chunkSize : Z) (c : TextChunkData)
  : Prop :=
  exists start,
    0 <= start < len txt
    /\ c = mkChunk (slice txt start (chunkEnd txt chunkSize start)) start
             (chunkEnd txt chunkSize start)
    /\ truthy (trim (text c)) = true.

(** [s] ends with [suffix]. *)
Definition endsWithSuffix (s suffix : jsstring) : Prop :=
  exists pre, s = pre ++ suffix.

(** A text of 1300 code units made of short sentences. *)
Definition sentencesText : jsstring :=
  concat (repeat (str "Hello world. "%string) 100).

Section SearchNotions.

Context {openai : OpenAI}.

(** The chunks that [searchProjectDocument] hands to the quote finder. *)
Definition rankedFor (query : jsstring) (docChunks : list Chunk)
  : list RankedChunk :=
  slice (sortDesc rc_similarity
           (flat_map (rankable (embeddingOf query)) docChunks)) 0 5.

(** [rc] was made from a chunk of [docChunks] that has a vector. *)
Definition fromEmbeddedChunk (query : jsstring) (docChunks : list Chunk)
    (rc : RankedChunk) : Prop :=
  exists c v,
    In c docChunks /\ chunk_embedding c = Some v
    /\ rc = mkRankedChunk (chunk_text c) (chunk_startPosition c)
              (chunk_endPosition c)
              (cosineSimilarity v (embeddingOf query)).

End SearchNotions.

(** The chunks of a document. *)
Definition chunksOf (db : Database) (documentId : jsstring) : list Chunk :=
  filter (fun c => jsstring_eqb (chunk_documentId c) documentId) (chunks db).

Section FillAgain.

Context {openai : OpenAI}.

(** What the stored chunk [s] becomes while the fill works through [cs]. *)
Definition evolve (cs : list Chunk) (s : Chunk) : Chunk :=
  fold_left
    (fun s c =>
       match chunk_embedding c with
       | None =>
           if jsstring_eqb (chunk_id s) (chunk_id c)
           then setEmbedding s (embeddingOf (chunk_text c)) else s
       | Some _ => s
       end) cs s.

End FillAgain.

(** ** Text files: [extractTextFromTxt] *)

Definition CR : ascii := ascii_of_nat 13.
Definition LF : ascii := ascii_of_nat 10.
Definition TAB : ascii := ascii_of_nat 9.
Definition SPACE : ascii := ascii_of_nat 32.

(** [s.replace(/\r\n/g, '\n')]. *)
Fixpoint replaceCRLF (s : jsstring) : jsstring :=
  match s with
  | [] => []
  | c :: s' =>
      match s' with
      | d :: s'' =>
          if ascii_eqb c CR && ascii_eqb d LF then LF :: replaceCRLF s''
          else c :: replaceCRLF s'
      | [] => [c]
      end
  end.

(** [s.replace(/c/g, 'd')] for single code units [c] and [d]. *)
Definition replaceChar (from to : ascii) (s : jsstring) : jsstring :=
  map (fun c => if ascii_eqb c from then to else c) s.

(** [s.replace(/ +/g, ' ')]: [inRun] tells that the previous code unit was a
    space of the run being replaced. *)
Fixpoint collapseSpaces (s : jsstring) (inRun : bool) : jsstring :=
  match s with
  | [] => []
  | c :: s' =>
      if ascii_eqb c SPACE
      then if inRun then collapseSpaces s' true
           else SPACE :: collapseSpaces s' true
      else c :: collapseSpaces s' false
  end.

Definition extractTextFromTxt (content : jsstring) : jsstring :=
  trim (collapseSpaces
          (replaceChar TAB SPACE (replaceChar CR LF (replaceCRLF content)))
          false).

(** [s] has two spaces in a row. *)
Fixpoint hasDoubleSpace (s : jsstring) : bool :=
  match s with
  | [] => false
  | c :: s' =>
      match s' with
      | d :: _ => (ascii_eqb c SPACE && ascii_eqb d SPACE) || hasDoubleSpace s'
      | [] => false
      end
  end.

(** A text as [extractTextFromTxt] leaves it: without carriage return and
    tab, without two spaces in a row, without white space at either end. *)
Definition normalized (s : jsstring) : Prop :=
  ~ In CR s /\ ~ In TAB s /\ hasDoubleSpace s = false /\ trim s = s.

(** ** Upload: the text that is stored *)

(** [s.replace(/\s+/g, " ")]: [inRun] tells that the previous code unit was
    white space of the run being replaced. *)
Fixpoint collapseWhiteSpace (s : jsstring) (inRun : bool) : jsstring :=
  match s with
  | [] => []
  | c :: s' =>
      if isWhiteSpace c
      then if inRun then collapseWhiteSpace s' true
           else SPACE :: collapseWhiteSpace s' true
      else c :: collapseWhiteSpace s' false
  end.

Inductive UploadOutcome :=
| Stored (fullText : jsstring)
| BadRequest (message : jsstring).

Definition garbledMessage : jsstring :=
  str "This PDF appears to be scanned or uses custom fonts that cannot be read. Please try: (1) Using a PDF with selectable text, or (2) Copy the text content into a .txt file and upload that instead."%string.

(** The upload route from the text read off the file to the text of the
    document created: [raw] is the text the PDF parser returned, or the
    content of the text file. *)
Definition uploadText (isPdf : bool) (raw : jsstring) : UploadOutcome :=
  let checked fullText :=
    if negb (truthy fullText) || (len fullText <? 10)
    then BadRequest (str "Could not extract text from file"%string)
    else Stored fullText in
  if isPdf then
    let fullText := trim (collapseWhiteSpace raw false) in
    if isGarbledText fullText then BadRequest garbledMessage
    else checked fullText
  else checked (extractTextFromTxt raw).

(** ** Citations: [citationGenerator.ts]

    The declaration of [CitationData] is not under [src/]; the fields are
    those that the functions read, a text field that may be missing being
    [nullable]. *)

Inductive SourceType :=
| book | journal | chapter | website | newspaper | thesis | otherSource.

Record Author := mkAuthor {
  firstName : jsstring;
  lastName : jsstring;
  suffix : nullable
}.

Record CitationData := mkCitation {
  sourceType : SourceType;
  authors : option (list Author);
  title : jsstring;
  subtitle : nullable;
  containerTitle : nullable;
  publisher : nullable;
  publicationPlace : nullable;
  publicationDate : nullable;
  volume : nullable;
  issue : nullable;
  pageStart : nullable;
  pageEnd : nullable;
  edition : nullable;
  editors : option (list Author);
  url : nullable;
  accessDate : nullable;
  doi : nullable
}.

(** The code unit of the double quote. *)
Definition dq : jsstring := [ascii_of_nat 34].

(** [cond ? `...${x}...` : ""], for a condition that is the truthiness of a
    nullable text [x]. *)
Definition whenSet (x : nullable) (f : jsstring -> jsstring) : jsstring :=
  match x with
  | Some s => if truthy s then f s else []
  | None => []
  end.

(** [x || ""]. *)
Definition orEmpty (x : nullable) : jsstring := orElse x [].

(** [s.split(sep)] for a separator of one code unit; [cur] is the piece
    being read. *)
Fixpoint splitCharAux (sep : ascii) (s cur : jsstring) : list jsstring :=
  match s with
  | [] => [cur]
  | c :: s' =>
      if ascii_eqb c sep then cur :: splitCharAux sep s' []
      else splitCharAux sep s' (cur ++ [c])
  end.

Definition splitChar (sep : ascii) (s : jsstring) : list jsstring :=
  splitCharAux sep s [].

Definition fullName (a : Author) : jsstring :=
  firstName a ++ str " "%string ++ lastName a.

Definition suffixOf (a : Author) : jsstring :=
  whenSet (suffix a) (fun s => str " "%string ++ s).

Definition formatAuthors (authors : option (list Author)) (isFirst : bool)
  : jsstring :=
  match authors with
  | None => []
  | Some [] => []
  | Some ((a0 :: _) as l) =>
      if isFirst then
        match l with
        | [a] => fullName a ++ suffixOf a
        | [a; b] => fullName a ++ str " and "%string ++ fullName b
        | [a; b; c] =>
            fullName a ++ str ", "%string ++ fullName b
            ++ str ", and "%string ++ fullName c
        | _ => fullName a0 ++ str " et al."%string
        end
      else
        match l with
        | [a] => lastName a
        | _ =>
            if len l <=? 3 then join (str ", "%string) (map lastName l)
            else lastName a0 ++ str " et al."%string
        end
  end.

(** The [for] loop of [formatAuthorsForBibliography]: [rest] holds the
    authors from index [i] on, [n] is [authors.length]. *)
Fixpoint bibliographyLoop (rest : list Author) (i n : Z) (result : jsstring)
  : jsstring :=
  match rest with
  | [] => result
  | a :: rest' =>
      bibliographyLoop rest' (i + 1) n
        (result
         ++ (if i =? n - 1 then str ", and "%string else str ", "%string)
         ++ fullName a ++ suffixOf a)
  end.

Definition formatAuthorsForBibliography (authors : option (list Author))
  : jsstring :=
  match authors with
  | None => []
  | Some [] => []
  | Some [a] =>
      lastName a ++ str ", "%string ++ firstName a ++ suffixOf a
  | Some ((first :: rest) as l) =>
      bibliographyLoop rest 1 (len l)
        (lastName first ++ str ", "%string ++ firstName first
         ++ suffixOf first)
  end.

Definition getShortTitle (t : jsstring) : jsstring :=
  let words := splitChar " "%char t in
  if len words <=? 4 then t
  else join (str " "%string) (slice words 0 4).

Definition months : list jsstring :=
  map str ["January"; "February"; "March"; "April"; "May"; "June"; "July";
           "August"; "September"; "October"; "November"; "December"]%string.

Definition digitValue (c : ascii) : option Z :=
  let n := code c in
  if ((48 <=? n) && (n <=? 57))%N then Some (Z.of_N n - 48) else None.

(** The digits at the head of [s], read in base ten; [acc] is the value of
    the digits read so far, [None] when there is none yet. *)
Fixpoint parseDigits (s : jsstring) (acc : option Z) : option Z :=
  match s with
  | [] => acc
  | c :: s' =>
      match digitValue c with
      | Some d =>
          parseDigits s'
            (Some (10 * match acc with Some a => a | None => 0 end + d))
      | None => acc
      end
  end.

(** [parseInt(s, 10)]; [None] is [NaN].  The value is the exact integer. *)
Definition parseInt10 (s : jsstring) : option Z :=
  match dropWhile isWhiteSpace s with
  | [] => None
  | c :: s' =>
      if ascii_eqb c "-"%char then option_map Z.opp (parseDigits s' None)
      else if ascii_eqb c "+"%char then parseDigits s' None
      else parseDigits (c :: s') None
  end.

(** Where the engine that runs the code has a say: the text of a number
    beyond [2 ^ 53]. *)
Class Engine := {
  bigNumberText : Z -> jsstring
}.

Section Footnotes.

Context {engine : Engine}.

(** [`${n}`] for the number that [parseInt] made of the digits of the
    integer [n].  Up to [2 ^ 53] in absolute value the number is [n] and
    its text is [n] in decimal.  Beyond, the number is [n] rounded to
    binary64, where the engine may take the digits after the 20th for 0;
    its text has the fewest digits that tell the number from its
    neighbours, in exponent notation from [10 ^ 21] on, and is [Infinity]
    from [2 ^ 1024] on: that text is [bigNumberText n]. *)
Definition numberToString (n : Z) : jsstring :=
  if Z.abs n <=? 2 ^ 53 then str (NilZero.string_of_int (Z.to_int n))
  else bigNumberText n.

(** [months[n - 1] || ''] for [n = parseInt(...)]. *)
Definition monthName (n : option Z) : jsstring :=
  match n with
  | Some k =>
      if (1 <=? k) && (k <=? 12)
      then nth (Z.to_nat (k - 1)) months []
      else []
  | None => []
  end.

Definition formatDate (dateStr : nullable) : jsstring :=
  match dateStr with
  | None => []
  | Some d =>
      if negb (truthy d) then []
      else
        let parts := splitChar "-"%char d in
        if len parts =? 1 then nth 0 parts []
        else
          let year := nth 0 parts [] in
          let month := monthName (parseInt10 (nth 1 parts [])) in
          let day :=
            match nth_error parts 2 with
            | Some p => if truthy p then parseInt10 p else None
            | None => None
            end in
          match day with
          | Some n =>
              if negb (n =? 0) && truthy month
              then month ++ str " "%string ++ numberToString n
                   ++ str ", "%string ++ year
              else if truthy month then month ++ str " "%string ++ year
              else year
          | None =>
              if truthy month then month ++ str " "%string ++ year else year
          end
  end.

Definition getYear (dateStr : nullable) : jsstring :=
  match dateStr with
  | None => []
  | Some d => if negb (truthy d) then [] else nth 0 (splitChar "-"%char d) []
  end.

(** [s.replace(',', ':')]: the first comma only. *)
Fixpoint replaceFirstComma (s : jsstring) : jsstring :=
  match s with
  | [] => []
  | c :: s' =>
      if ascii_eqb c ","%char then ":"%char :: s'
      else c :: replaceFirstComma s'
  end.

Definition quoted (s : jsstring) : jsstring := dq ++ s ++ dq.

Definition isArticle (t : SourceType) : bool :=
  match t with journal | chapter | newspaper => true | _ => false end.

(** [(place && publisher) ? `(${place}: ${publisher}, ${year})`
     : `(${year})`]. *)
Definition pubInfoNote (place publisher year : jsstring) : jsstring :=
  if truthy place && truthy publisher
  then str "("%string ++ place ++ str ": "%string ++ publisher
       ++ str ", "%string ++ year ++ str ")"%string
  else str "("%string ++ year ++ str ")"%string.

Definition editorNames (eds : list Author) : jsstring :=
  join (str " and "%string) (map fullName eds).

Definition generateChicagoFootnote (citation : CitationData)
    (pageNumber : nullable) (isSubsequent : bool) : jsstring :=
  let pageRef := whenSet pageNumber (fun p => str ", "%string ++ p) in
  if isSubsequent then
    let author := formatAuthors (authors citation) false in
    let shortTitle := getShortTitle (title citation) in
    if isArticle (sourceType citation)
    then author ++ str ", "%string ++ quoted shortTitle ++ pageRef
         ++ str "."%string
    else author ++ str ", "%string ++ shortTitle ++ pageRef
         ++ str "."%string
  else
    let author := formatAuthors (authors citation) true in
    let year := getYear (publicationDate citation) in
    match sourceType citation with
    | book =>
        let t :=
          match subtitle citation with
          | Some s =>
              if truthy s then title citation ++ str ": "%string ++ s
              else title citation
          | None => title citation
          end in
        let ed := whenSet (edition citation)
                    (fun e => str ", "%string ++ e ++ str " ed."%string) in
        let pubInfo :=
          pubInfoNote (orEmpty (publicationPlace citation))
                      (orEmpty (publisher citation)) year in
        author ++ str ", "%string ++ t ++ ed ++ str " "%string ++ pubInfo
        ++ pageRef ++ str "."%string
    | journal =>
        let iss := whenSet (issue citation)
                     (fun i => str ", no. "%string ++ i) in
        author ++ str ", "%string ++ quoted (title citation)
        ++ str " "%string ++ orEmpty (containerTitle citation)
        ++ str " "%string ++ orEmpty (volume citation) ++ iss
        ++ str " ("%string ++ year ++ str ")"%string
        ++ replaceFirstComma pageRef ++ str "."%string
    | chapter =>
        let eds :=
          match editors citation with
          | Some (e :: es) =>
              str ", edited by "%string ++ editorNames (e :: es)
          | _ => []
          end in
        let pubInfo :=
          pubInfoNote (orEmpty (publicationPlace citation))
                      (orEmpty (publisher citation)) year in
        author ++ str ", "%string ++ quoted (title citation)
        ++ str " in "%string ++ orEmpty (containerTitle citation) ++ eds
        ++ str " "%string ++ pubInfo ++ pageRef ++ str "."%string
    | website =>
        let site := orEmpty (containerTitle citation) in
        let accessed :=
          whenSet (accessDate citation)
            (fun d => str "accessed "%string ++ formatDate (Some d)) in
        quoted (title citation)
        ++ (if truthy site then str ", "%string ++ site else [])
        ++ str ", "%string ++ accessed ++ str ", "%string
        ++ orEmpty (url citation) ++ str "."%string
    | newspaper =>
        let u := whenSet (url citation) (fun u => str ", "%string ++ u) in
        author ++ str ", "%string ++ quoted (title citation)
        ++ str " "%string ++ orEmpty (containerTitle citation)
        ++ str ", "%string ++ formatDate (publicationDate citation) ++ u
        ++ str "."%string
    | thesis =>
        author ++ str ", "%string ++ quoted (title citation)
        ++ str " (PhD diss., "%string ++ orEmpty (publisher citation)
        ++ str ", "%string ++ year ++ str ")"%string ++ pageRef
        ++ str "."%string
    | otherSource =>
        let t :=
          if truthyN (containerTitle citation) then quoted (title citation)
          else title citation in
        let container :=
          whenSet (containerTitle citation) (fun c => str ", "%string ++ c) in
        author ++ str ", "%string ++ t ++ container ++ str " ("%string
        ++ year ++ str ")"%string ++ pageRef ++ str "."%string
    end.

(** [quote.trim().replace(/\s+/g, ' ')]. *)
Definition cleanQuoteOf (quote : jsstring) : jsstring :=
  collapseWhiteSpace (trim quote) false.

Definition displayQuoteOf (quote : jsstring) : jsstring :=
  let cleanQuote := cleanQuoteOf quote in
  if len cleanQuote >? 150
  then slice cleanQuote 0 147 ++ str "..."%string
  else cleanQuote.

Definition generateFootnoteWithQuote (citation : CitationData)
    (quote : jsstring) (pageNumber : nullable) : jsstring :=
  let baseFootnote := generateChicagoFootnote citation pageNumber false in
  let footnoteWithoutPeriod := slice baseFootnote 0 (-1) in
  footnoteWithoutPeriod ++ str ": "%string ++ dq ++ displayQuoteOf quote
  ++ str "."%string ++ dq.

End Footnotes.

Definition generateInlineCitation (citation : CitationData)
    (pageNumber : nullable) : jsstring :=
  let author :=
    match authors citation with
    | Some (a :: _) => lastName a
    | _ => str "Unknown"%string
    end in
  let shortTitle := getShortTitle (title citation) in
  let page := whenSet pageNumber (fun p => str ", "%string ++ p) in
  if isArticle (sourceType citation)
  then str "("%string ++ author ++ str ", "%string ++ quoted shortTitle
       ++ page ++ str ")"%string
  else str "("%string ++ author ++ str ", "%string ++ shortTitle ++ page
       ++ str ")"%string.

(** An engine for concrete runs: it prints every number beyond [2 ^ 53] as
    [Infinity]. *)
Definition sampleEngine : Engine :=
  {| bigNumberText := fun _ => str "Infinity"%string |}.

(** How the bibliography names an author who is not the first. *)
Definition namedInFull (a : Author) : jsstring := fullName a ++ suffixOf a.

(** How the bibliography names the first author. *)
Definition invertedName (a : Author) : jsstring :=
  lastName a ++ str ", "%string ++ firstName a ++ suffixOf a.

(** * Properties *)

(** ** Lists, lengths and slices *)

Lemma len_nonneg {A : Type} (l : list A) : 0 <= len l.
Proof. unfold len. lia. Qed.

Lemma len_app {A : Type} (l1 l2 : list A) : len (l1 ++ l2) = len l1 + len l2.
Proof. unfold len. rewrite length_app. lia. Qed.

Lemma len_cons {A : Type} (x : A) (l : list A) : len (x :: l) = len l + 1.
Proof. unfold len. simpl length. lia. Qed.

Lemma len_nil_iff {A : Type} (l : list A) : len l = 0 <-> l = [].
Proof.
  destruct l as [|x l]; split; intro H; try reflexivity; discriminate.
Qed.

Lemma relIndex_nonneg (n k : Z) : 0 <= k -> relIndex n k = Z.min k n.
Proof.
  intro H. unfold relIndex. destruct (k <? 0) eqn:E; [|reflexivity].
  apply Z.ltb_lt in E. lia.
Qed.

Lemma slice_nonneg {A : Type} (l : list A) (a b : Z) :
  0 <= a -> 0 <= b ->
  slice l a b =
  firstn (Z.to_nat (Z.min b (len l) - Z.min a (len l)))
         (skipn (Z.to_nat (Z.min a (len l))) l).
Proof.
  intros Ha Hb. unfold slice. now rewrite !relIndex_nonneg.
Qed.

Lemma len_slice {A : Type} (l : list A) (a b : Z) :
  0 <= a -> a <= b -> b <= len l -> len (slice l a b) = b - a.
Proof.
  intros Ha Hab Hb. rewrite slice_nonneg by lia.
  unfold len in *. rewrite length_firstn, length_skipn. lia.
Qed.

Lemma slice_all {A : Type} (l : list A) (b : Z) :
  len l <= b -> slice l 0 b = l.
Proof.
  intro Hb. pose proof (len_nonneg l). rewrite slice_nonneg by lia.
  rewrite Z.min_r by lia. rewrite Z.min_l by lia.
  simpl skipn. rewrite Z.sub_0_r. unfold len.
  rewrite Nat2Z.id. apply firstn_all.
Qed.

Lemma slice_prefix {A : Type} (l : list A) (b : Z) :
  0 <= b -> slice l 0 b = firstn (Z.to_nat b) l.
Proof.
  intro Hb. pose proof (len_nonneg l). rewrite slice_nonneg by lia.
  rewrite (Z.min_l 0) by lia. simpl skipn. rewrite Z.sub_0_r.
  destruct (Z.le_ge_cases b (len l)) as [H1|H1].
  - now rewrite Z.min_l by lia.
  - rewrite Z.min_r by lia. unfold len in *. rewrite Nat2Z.id.
    rewrite firstn_all. symmetry. apply firstn_all2. lia.
Qed.

(** ** The chunker *)

Lemma startsWith_length (p s : jsstring) :
  startsWith p s = true -> (length p <= length s)%nat.
Proof.
  revert s. induction p as [|a p IH]; intros [|b s] H; simpl in *;
    try lia; try discriminate.
  apply andb_true_iff in H. destruct H as [_ H]. apply IH in H. lia.
Qed.

Lemma scanEnder_bounds (ender s : jsstring) (i t p : Z) :
  scanEnder ender s i t = Some p ->
  t - 50 + len ender <= p <= t + 50 + len ender /\ p <= i + len s.
Proof.
  revert i. induction s as [|c s IH]; intros i H; [discriminate|].
  cbn [scanEnder] in H. rewrite len_cons.
  destruct (startsWith ender (c :: s)) eqn:Es.
  - destruct (i <=? t + 50) eqn:E1; [|discriminate].
    destruct (i >=? t - 50) eqn:E2.
    + injection H as <-. apply Z.leb_le in E1. apply Z.geb_le in E2.
      apply startsWith_length in Es. simpl length in Es. unfold len. lia.
    + apply IH in H. lia.
  - apply IH in H. lia.
Qed.

Lemma indexOfAux_range (needle hay : jsstring) (k : Z) :
  indexOfAux needle hay k = -1
  \/ k <= indexOfAux needle hay k <= k + len hay.
Proof.
  revert k. induction hay as [|c hay IH]; intro k; cbn [indexOfAux].
  - destruct (startsWith needle []); [right|left; reflexivity].
    unfold len. simpl. lia.
  - destruct (startsWith needle (c :: hay)).
    + right. pose proof (len_nonneg (c :: hay)). lia.
    + destruct (IH (k + 1)) as [H|H]; [now left|right].
      rewrite len_cons. lia.
Qed.

(** [scanEnder] obeys the equation of the source loop: from the cursor [i],
    [pos] is what [indexOf(ender, i)] finds; the loop stops without a result
    when [pos] is [-1] or beyond [targetLength + 50], stops with
    [pos + ender.length] when [pos >= targetLength - 50], and goes on from
    [indexOf(ender, pos + 1)] otherwise. *)
Lemma scanEnder_indexOf (ender s : jsstring) (i t : Z) :
  ender <> [] -> 0 <= i ->
  scanEnder ender s i t =
  let pos := indexOfAux ender s i in
  if pos =? -1 then None
  else if pos <=? t + 50 then
         if pos >=? t - 50 then Some (pos + len ender)
         else scanEnder ender (skipn (Z.to_nat (pos - i + 1)) s) (pos + 1) t
       else None.
Proof.
  intros Hne. revert i. induction s as [|c s IH]; intros i Hi.
  - cbn [scanEnder indexOfAux]. destruct ender; [contradiction|reflexivity].
  - cbn [scanEnder indexOfAux].
    destruct (startsWith ender (c :: s)) eqn:E; cbn zeta.
    + replace (i =? -1) with false by (symmetry; apply Z.eqb_neq; lia).
      replace (i - i + 1) with 1 by lia. reflexivity.
    + rewrite IH by lia. cbn zeta.
      destruct (indexOfAux_range ender s (i + 1)) as [H|H].
      * rewrite H. reflexivity.
      * set (pos := indexOfAux ender s (i + 1)) in *.
        replace (Z.to_nat (pos - i + 1))
          with (S (Z.to_nat (pos - (i + 1) + 1))) by lia.
        reflexivity.
Qed.

Lemma bestPos_bounds (s : jsstring) (t : Z) (enders : list jsstring) :
  Forall (fun e => len e = 2) enders ->
  forall best, nearTarget s t best ->
    nearTarget s t
      (fold_left (fun bestPos ender =>
                    match scanEnder ender s 0 t with
                    | Some p => p
                    | None => bestPos
                    end) enders best).
Proof.
  induction 1 as [|e l He Hl IH]; intros best Hbest; simpl; [exact Hbest|].
  apply IH. destruct (scanEnder e s 0 t) as [p|] eqn:E; [|exact Hbest].
  right. apply scanEnder_bounds in E. lia.
Qed.

Lemma findSentenceEnd_bounds (s : jsstring) (t : Z) :
  nearTarget s t (findSentenceEnd s t).
Proof.
  apply bestPos_bounds; [repeat constructor | left; reflexivity].
Qed.

Lemma chunkEnd_bounds (txt : jsstring) (chunkSize start : Z) :
  0 <= start -> 0 <= chunkSize ->
  start + chunkSize - 48 <= chunkEnd txt chunkSize start
                         <= start + chunkSize + 52
  /\ (chunkEnd txt chunkSize start <= len txt
      \/ chunkEnd txt chunkSize start = start + chunkSize).
Proof.
  intros Hs Hc. unfold chunkEnd.
  destruct (start + chunkSize <? len txt) eqn:E; [|lia].
  apply Z.ltb_lt in E.
  set (sl := slice txt start (Z.min (start + chunkSize + 100) (len txt))).
  assert (Hsl : len sl <= len txt - start)
    by (unfold sl; rewrite len_slice; lia).
  destruct (findSentenceEnd sl chunkSize >? 0) eqn:E2; [|lia].
  destruct (findSentenceEnd_bounds sl chunkSize) as [H|[H1 H2]]; [|lia].
  rewrite H in E2. discriminate.
Qed.

Lemma pushChunk_app (txt : jsstring) (start e : Z) (acc : list TextChunkData) :
  pushChunk txt start e acc = acc ++ pushChunk txt start e [].
Proof.
  unfold pushChunk. destruct (truthy (trim (slice txt start e)));
    [reflexivity | now rewrite app_nil_r].
Qed.

Lemma pushChunk_cases (txt : jsstring) (start e : Z) :
  pushChunk txt start e [] = [] \/
  pushChunk txt start e [] = [mkChunk (slice txt start e) start e].
Proof.
  unfold pushChunk. destruct (truthy (trim (slice txt start e))); auto.
Qed.

(** When [overlap + 49 <= chunkSize] every pass moves the cursor forward,
    by at least [chunkSize - 48 - overlap]. *)
Lemma chunkLoop_progress (txt : jsstring) (chunkSize overlap : Z)
    (fuel : nat) :
  0 <= overlap -> overlap + 49 <= chunkSize ->
  forall (start : Z) (acc : list TextChunkData),
    0 <= start -> Z.max 0 (len txt - start) < Z.of_nat fuel ->
    exists out,
      chunkLoop fuel txt chunkSize overlap start acc = Some (acc ++ out)
      /\ Forall (fun c => start <= startPosition c
                          /\ chunkShape txt chunkSize c) out
      /\ StronglySorted startsBefore out.
Proof.
  intros Ho Hc.
  induction fuel as [|fuel IH]; intros start acc Hs Hf; [lia|].
  cbn [chunkLoop].
  destruct (start <? len txt) eqn:E.
  2:{ exists []. rewrite app_nil_r. repeat split; constructor. }
  apply Z.ltb_lt in E.
  destruct (chunkEnd_bounds txt chunkSize start Hs) as [Hb He]; [lia|].
  set (e := chunkEnd txt chunkSize start) in *.
  rewrite pushChunk_app.
  assert (Hpush : Forall (fun c => start <= startPosition c
                                   /\ chunkShape txt chunkSize c)
                    (pushChunk txt start e [])).
  { destruct (pushChunk_cases txt start e) as [-> | ->];
      constructor; [|constructor].
    split; [simpl; lia|]. unfold chunkShape. simpl.
    split; [lia|]. split; [lia|]. split; [reflexivity|exact He]. }
  destruct (e - overlap >=? len txt - overlap) eqn:E2.
  - exists (pushChunk txt start e []). repeat split; [exact Hpush|].
    destruct (pushChunk_cases txt start e) as [-> | ->];
      repeat constructor.
  - assert (E3 : e - overlap < len txt - overlap).
    { destruct (Z.geb_spec (e - overlap) (len txt - overlap));
        [discriminate|lia]. }
    destruct (IH (e - overlap) (acc ++ pushChunk txt start e [])) as
      (out & Hout & Hall & Hsorted); [lia|lia|].
    exists (pushChunk txt start e [] ++ out). rewrite app_assoc.
    split; [exact Hout|]. split.
    + apply Forall_app. split; [exact Hpush|].
      eapply Forall_impl; [|exact Hall]. simpl. intros c [H1 H2].
      split; [lia|exact H2].
    + destruct (pushChunk_cases txt start e) as [-> | ->];
        [exact Hsorted|].
      simpl. constructor; [exact Hsorted|].
      eapply Forall_impl; [|exact Hall]. intros c [H1 _].
      unfold startsBefore. simpl. lia.
Qed.

(** With [0 <= overlap] and [overlap + 49 <= chunkSize], as with the
    default parameters, [chunkText] returns once the fuel exceeds the length
    of the text; the chunks come in strictly increasing [startPosition],
    each with [0 <= startPosition < endPosition], and
    [endPosition <= len txt] unless the tentative end [start + chunkSize]
    was kept. *)
Theorem chunkText_shape (txt : jsstring) (chunkSize overlap : Z)
    (fuel : nat) :
  0 <= overlap -> overlap + 49 <= chunkSize ->
  (length txt < fuel)%nat ->
  exists cs,
    chunkText fuel txt chunkSize overlap = Some cs
    /\ Forall (chunkShape txt chunkSize) cs
    /\ StronglySorted startsBefore cs.
Proof.
  intros Ho Hc Hf. unfold chunkText.
  destruct (chunkLoop_progress txt chunkSize overlap fuel Ho Hc 0 [])
    as (out & H1 & H2 & H3); [lia | unfold len; lia |].
  exists out. simpl in H1. split; [exact H1|]. split; [|exact H3].
  eapply Forall_impl; [|exact H2]. intros c [_ H]. exact H.
Qed.

Corollary chunkText_default_shape (txt : jsstring) (fuel : nat) :
  (length txt < fuel)%nat ->
  exists cs,
    chunkText fuel txt defaultChunkSize defaultOverlap = Some cs
    /\ Forall (chunkShape txt defaultChunkSize) cs
    /\ StronglySorted startsBefore cs.
Proof.
  apply chunkText_shape; unfold defaultOverlap, defaultChunkSize; lia.
Qed.

(** A result does not depend on the fuel that was left over. *)
Lemma chunkLoop_fuel_mono (txt : jsstring) (chunkSize overlap : Z)
    (fuel fuel' : nat) :
  (fuel <= fuel')%nat ->
  forall start acc r,
    chunkLoop fuel txt chunkSize overlap start acc = Some r ->
    chunkLoop fuel' txt chunkSize overlap start acc = Some r.
Proof.
  revert fuel'. induction fuel as [|fuel IH]; intros fuel' Hle start acc r H;
    [discriminate|].
  destruct fuel' as [|fuel']; [lia|].
  cbn [chunkLoop] in *.
  destruct (start <? len txt); [|exact H].
  destruct (chunkEnd txt chunkSize start - overlap >=? len txt - overlap);
    [exact H|].
  apply IH; [lia|exact H].
Qed.

(** C1, at the inputs where it fails.  With the default parameters the
    three-character text [abc] yields the single chunk [(0, 500)], and a text
    of 1200 letters yields the chunks [(0, 500)], [(450, 950)] and
    [(900, 1400)]: the last chunk keeps the tentative end
    [start + chunkSize], which lies beyond the end of the text. *)
Theorem chunkText_end_beyond_text :
  (forall fuel,
      chunkText (S fuel) (str "abc"%string) defaultChunkSize defaultOverlap
      = Some [mkChunk (str "abc"%string) 0 500])
  /\ len (str "abc"%string) = 3
  /\ option_map positions
       (chunkText 4 (repeat "a"%char 1200) defaultChunkSize defaultOverlap)
     = Some [(0, 500); (450, 950); (900, 1400)]
  /\ len (repeat "a"%char 1200) = 1200.
Proof.
  split; [|split; [|split]].
  - intro fuel.
    apply (chunkLoop_fuel_mono _ _ _ 1%nat); [lia|]. vm_compute. reflexivity.
  - reflexivity.
  - vm_compute. reflexivity.
  - vm_compute. reflexivity.
Qed.

(** C2, at an input where it fails.  With [chunkSize = 1] and [overlap = 1]
    the cursor of [chunkText] is back at [0] after each pass over the text
    [abc], and the exit test [start >= text.length - overlap] fails: the loop
    is still running after any number of passes. *)
Theorem chunkText_overlap_no_progress :
  forall fuel, chunkText fuel (str "abc"%string) 1 1 = None.
Proof.
  unfold chunkText. generalize (@nil TextChunkData) as acc.
  intros acc fuel. revert acc.
  induction fuel as [|fuel IH]; intro acc; [reflexivity|].
  cbn [chunkLoop].
  replace (0 <? len (str "abc"%string)) with true by reflexivity.
  replace (chunkEnd (str "abc"%string) 1 0) with 1 by reflexivity.
  replace (1 - 1 >=? len (str "abc"%string) - 1) with false by reflexivity.
  apply IH.
Qed.

(** C4, as stated, fails: a text of one space is non-empty and shorter than
    [chunkSize], and [chunkText] returns no chunk for it. *)
Lemma chunkText_blank_no_chunk :
  str " "%string <> []
  /\ len (str " "%string) < defaultChunkSize
  /\ chunkText 1 (str " "%string) defaultChunkSize defaultOverlap = Some [].
Proof.
  split; [discriminate|]. split; reflexivity.
Qed.

(** C4, amended.  For every text strictly shorter than [chunkSize]:
    when the text is not blank (something is left after [trim]),
    [chunkText] returns exactly one chunk, which starts at [0] and whose text
    is the whole text; when the text is blank it returns no chunk. *)
Theorem chunkText_short_text (fuel : nat) (txt : jsstring)
    (chunkSize overlap : Z) :
  len txt < chunkSize ->
  (truthy (trim txt) = true ->
   exists c,
     chunkText (S fuel) txt chunkSize overlap = Some [c]
     /\ startPosition c = 0 /\ text c = txt)
  /\ (truthy (trim txt) = false ->
      chunkText (S fuel) txt chunkSize overlap = Some []).
Proof.
  intro Hlen. pose proof (len_nonneg txt) as Hn.
  assert (Hend : chunkEnd txt chunkSize 0 = chunkSize).
  { unfold chunkEnd. simpl.
    destruct (chunkSize <? len txt) eqn:E; [|reflexivity].
    apply Z.ltb_lt in E. lia. }
  assert (Hexit : (chunkSize - overlap >=? len txt - overlap) = true)
    by (apply Z.geb_le; lia).
  assert (Hslice : slice txt 0 chunkSize = txt) by (apply slice_all; lia).
  unfold chunkText. cbn [chunkLoop]. rewrite Hend, Hexit.
  unfold pushChunk. rewrite Hslice.
  destruct (0 <? len txt) eqn:E.
  - split; intro Ht; rewrite Ht; [|reflexivity].
    eexists. split; [reflexivity|]. split; reflexivity.
  - split; intro Ht; [|reflexivity].
    apply Z.ltb_ge in E. assert (H0 : len txt = 0) by lia.
    apply len_nil_iff in H0. subst txt. discriminate.
Qed.

Lemma chunkText_short_text_witness :
  len (str "abc"%string) < 500
  /\ truthy (trim (str "abc"%string)) = true
  /\ exists c,
       chunkText 1 (str "abc"%string) 500 50 = Some [c]
       /\ startPosition c = 0 /\ text c = str "abc"%string.
Proof.
  assert (H : len (str "abc"%string) < 500) by reflexivity.
  split; [exact H|]. split; [reflexivity|].
  apply (proj1 (chunkText_short_text 0 (str "abc"%string) 500 50 H)).
  reflexivity.
Defined.

(** ** Strings *)

Lemma ascii_eqb_eq (a b : ascii) : ascii_eqb a b = true <-> a = b.
Proof.
  unfold ascii_eqb, code. rewrite N.eqb_eq. split; [|now intros ->].
  intro H. rewrite <- (ascii_N_embedding a), <- (ascii_N_embedding b).
  now rewrite H.
Qed.

Lemma jsstring_eqb_eq (a b : jsstring) : jsstring_eqb a b = true <-> a = b.
Proof.
  revert b. induction a as [|x a IH]; intros [|y b]; simpl;
    try (split; [discriminate|discriminate]); [tauto|].
  rewrite andb_true_iff, ascii_eqb_eq, IH. split.
  - now intros [-> ->].
  - intro H. injection H as -> ->. auto.
Qed.

Lemma startsWith_spec (p s : jsstring) :
  startsWith p s = true <-> exists post, s = p ++ post.
Proof.
  revert s. induction p as [|a p IH]; intros s; simpl.
  - split; [intros _; now exists s | reflexivity].
  - destruct s as [|b s].
    + split; [discriminate | intros [post H]; discriminate].
    + rewrite andb_true_iff, ascii_eqb_eq, IH. split.
      * intros [-> [post ->]]. now exists post.
      * intros [post H]. injection H as -> ->. split; [reflexivity|].
        now exists post.
Qed.

Lemma indexOfAux_spec (needle hay : jsstring) (k : Z) :
  0 <= k ->
  indexOfAux needle hay k <> -1 <-> containsSubstring hay needle.
Proof.
  unfold containsSubstring.
  revert k. induction hay as [|c hay IH]; intros k Hk; cbn [indexOfAux].
  - destruct (startsWith needle []) eqn:E.
    + split; [|lia]. intros _. apply startsWith_spec in E.
      destruct E as [post E]. now exists [], post.
    + split; [intro H; now contradiction H|].
      intros (pre & post & H). symmetry in H.
      apply app_eq_nil in H. destruct H as [-> H].
      apply app_eq_nil in H. destruct H as [-> ->]. discriminate.
  - destruct (startsWith needle (c :: hay)) eqn:E.
    + split; [|lia]. intros _. apply startsWith_spec in E.
      destruct E as [post E]. now exists [], post.
    + rewrite IH by lia. split.
      * intros (pre & post & ->). now exists (c :: pre), post.
      * intros ([|x pre] & post & H).
        -- simpl in H. assert (startsWith needle (c :: hay) = true)
             by (apply startsWith_spec; now exists post).
           congruence.
        -- simpl in H. injection H as _ ->. now exists pre, post.
Qed.

(** [includes] decides the substring relation. *)
Lemma includes_spec (hay needle : jsstring) :
  includes hay needle = true <-> containsSubstring hay needle.
Proof.
  unfold includes, indexOf. pose proof (len_nonneg hay) as Hn.
  rewrite Z.max_id, Z.min_l by lia. simpl skipn.
  rewrite negb_true_iff, Z.eqb_neq. apply indexOfAux_spec. lia.
Qed.

Lemma includes_false (hay needle : jsstring) :
  ~ containsSubstring hay needle -> includes hay needle = false.
Proof.
  intro H. destruct (includes hay needle) eqn:E; [|reflexivity].
  apply includes_spec in E. contradiction.
Qed.

(** The empty pieces that [split] returns around leading and trailing
    white space do not survive the length filter: the query words are the
    words of the query that are longer than two code units. *)
Lemma filter_closeWord (cur : jsstring) :
  filter longWord (closeWord cur) = filter longWord [cur].
Proof. destruct cur; reflexivity. Qed.

Lemma splitWsAux_words (s : jsstring) :
  (forall cur,
      filter longWord (splitWsAux s cur false)
      = filter longWord (runsAux (fun c => negb (isWhiteSpace c)) s cur))
  /\ filter longWord (splitWsAux s [] true)
     = filter longWord (runsAux (fun c => negb (isWhiteSpace c)) s []).
Proof.
  induction s as [|c s [IH1 IH2]]; simpl.
  - split; [intro cur; apply eq_sym, filter_closeWord | reflexivity].
  - destruct (isWhiteSpace c); cbn [negb].
    + split; [|exact IH2]. intro cur.
      rewrite filter_app, filter_closeWord, <- IH2.
      change (cur :: splitWsAux s [] true)
        with ([cur] ++ splitWsAux s [] true).
      now rewrite filter_app.
    + split; [intro cur; apply IH1 | apply IH1].
Qed.

Lemma queryWordsOf_words (s : jsstring) :
  queryWordsOf s = filter longWord (wordsOf s).
Proof. apply (proj1 (splitWsAux_words s)). Qed.

Lemma matched_count (textLower : jsstring) (ws : list jsstring) (m : Z) :
  fold_left (fun matchedWords word =>
               if includes textLower word then matchedWords + 1
               else matchedWords) ws m
  = m + len (filter (includes textLower) ws).
Proof.
  revert m. induction ws as [|w ws IH]; intro m; simpl.
  - unfold len. simpl. lia.
  - rewrite IH. destruct (includes textLower w); [|reflexivity].
    rewrite len_cons. lia.
Qed.

(** ** Rounding to binary64 *)

Lemma pow2_pos (e : Z) : (0 < pow2 e)%Q.
Proof. apply Qpower_0_lt. reflexivity. Qed.

Lemma pow2_add (a b : Z) : (pow2 (a + b) == pow2 a * pow2 b)%Q.
Proof. apply Qpower_plus. discriminate. Qed.

Lemma pow2_le (a b : Z) : a <= b -> (pow2 a <= pow2 b)%Q.
Proof. intro H. apply Qpower_le_compat_l; [exact H|discriminate]. Qed.

Lemma pow2_Z (k : Z) : 0 <= k -> (pow2 k == inject_Z (2 ^ k))%Q.
Proof. intro H. unfold pow2. now rewrite (Zpower_Qpower 2 k H). Qed.

Lemma floor_bounds (q : Q) :
  (inject_Z (Qfloor q) <= q < inject_Z (Qfloor q) + 1)%Q.
Proof.
  split; [apply Qfloor_le|].
  pose proof (Qlt_floor q) as H. now rewrite inject_Z_plus in H.
Qed.

Lemma nearest_cases (q : Q) :
  nearest q = Qfloor q \/ nearest q = Qfloor q + 1.
Proof.
  unfold nearest. destruct (_ ?= _)%Q; auto. destruct (Z.even _); auto.
Qed.

Lemma nearest_ge_Z (k : Z) (q : Q) : (inject_Z k <= q)%Q -> k <= nearest q.
Proof.
  intro H. apply Qfloor_resp_le in H. rewrite Qfloor_Z in H.
  destruct (nearest_cases q); lia.
Qed.

Lemma nearest_le_Z (k : Z) (q : Q) : (q <= inject_Z k)%Q -> nearest q <= k.
Proof.
  intro H. pose proof (floor_bounds q) as [Hf _].
  assert (Hfk : Qfloor q <= k) by (rewrite Zle_Qle; lra).
  destruct (Z.eq_dec (Qfloor q) k) as [E|E].
  - unfold nearest. rewrite E.
    destruct (Qcompare_spec (q - inject_Z k) (1 # 2)); try lia; lra.
  - destruct (nearest_cases q); lia.
Qed.

Lemma nearest_mono (x y : Q) : (x <= y)%Q -> nearest x <= nearest y.
Proof.
  intro H. pose proof (Qfloor_resp_le x y H) as Hf.
  destruct (Z.eq_dec (Qfloor x) (Qfloor y)) as [E|E].
  - unfold nearest. rewrite E.
    destruct (Qcompare_spec (x - inject_Z (Qfloor y)) (1 # 2)) as [Hx|Hx|Hx];
      destruct (Qcompare_spec (y - inject_Z (Qfloor y)) (1 # 2)) as [Hy|Hy|Hy];
      try destruct (Z.even (Qfloor y)); try lia; lra.
  - destruct (nearest_cases x), (nearest_cases y); lia.
Qed.

Lemma fraction_compare (n : Z) (d : positive) (P : Q) (k B : Z) :
  0 < B -> (P * inject_Z B == inject_Z k)%Q ->
  ((P <= n # d)%Q <-> k * Zpos d <= n * B)
  /\ ((n # d < P)%Q <-> n * B < k * Zpos d).
Proof.
  intros HB HP.
  assert (HBq : (0 < inject_Z B)%Q)
    by (change 0%Q with (inject_Z 0); rewrite <- Zlt_Qlt; exact HB).
  assert (E : (P == inject_Z k / inject_Z B)%Q).
  { rewrite <- HP. field. lra. }
  rewrite E, (Qmake_Qdiv n d). unfold Qdiv, Qle, Qlt, Qmult, Qinv. simpl.
  destruct B as [|pb|pb]; try lia. simpl. split; split; intro; nia.
Qed.

Lemma binade_spec (q : Q) :
  (0 < q)%Q -> (pow2 (binade q) <= q < pow2 (binade q + 1))%Q.
Proof.
  destruct q as [n d]. intro Hq.
  assert (Hn : 0 < n) by (unfold Qlt in Hq; simpl in Hq; lia).
  unfold binade. cbn [Qnum Qden].
  set (a := Z.log2 n). set (b := Z.log2 (Zpos d)).
  destruct (Z.log2_spec n Hn) as [Ha1 Ha2]. fold a in Ha1, Ha2.
  destruct (Z.log2_spec (Zpos d) eq_refl) as [Hb1 Hb2]. fold b in Hb1, Hb2.
  assert (Ha0 : 0 <= a) by apply Z.log2_nonneg.
  assert (Hb0 : 0 <= b) by apply Z.log2_nonneg.
  rewrite Z.pow_succ_r in Ha2, Hb2 by assumption.
  assert (HA : 0 < 2 ^ a) by (apply Z.pow_pos_nonneg; lia).
  assert (HB : 0 < 2 ^ b) by (apply Z.pow_pos_nonneg; lia).
  assert (Hsplit : forall e, 0 <= e ->
             (pow2 (a - b - e) * inject_Z (2 ^ b * 2 ^ e)
              == inject_Z (2 ^ a))%Q).
  { intros e He. rewrite <- Z.pow_add_r by assumption.
    rewrite <- (pow2_Z a Ha0), <- (pow2_Z (b + e)) by lia.
    rewrite <- pow2_add. now replace (a - b - e + (b + e)) with a by ring. }
  assert (Hup : (pow2 (a - b + 1) * inject_Z (2 ^ b)
                 == inject_Z (2 * 2 ^ a))%Q).
  { rewrite <- Z.pow_succ_r by assumption.
    rewrite <- (pow2_Z (Z.succ a)), <- (pow2_Z b Hb0) by lia.
    rewrite <- pow2_add. now replace (a - b + 1 + b) with (Z.succ a) by lia. }
  pose proof (Hsplit 0 (Z.le_refl 0)) as H0.
  pose proof (Hsplit 1 ltac:(lia)) as H1.
  rewrite Z.sub_0_r in H0. change (2 ^ 0) with 1 in H0.
  change (2 ^ 1) with 2 in H1. rewrite Z.mul_1_r in H0.
  destruct (n * 2 ^ b <? Zpos d * 2 ^ a) eqn:E.
  - apply Z.ltb_lt in E. split.
    + assert (HB2 : 0 < 2 ^ b * 2) by lia.
      apply (proj1 (fraction_compare n d _ _ _ HB2 H1)).
      apply Z.le_trans with (2 ^ a * (2 ^ b * 2)).
      * apply Z.mul_le_mono_nonneg_l; lia.
      * apply Z.mul_le_mono_nonneg_r; lia.
    + replace (a - b - 1 + 1) with (a - b) by ring.
      apply (proj2 (fraction_compare n d _ _ _ HB H0)). lia.
  - apply Z.ltb_ge in E. split.
    + apply (proj1 (fraction_compare n d _ _ _ HB H0)). lia.
    + apply (proj2 (fraction_compare n d _ _ _ HB Hup)).
      apply Z.lt_le_trans with (2 * 2 ^ a * 2 ^ b).
      * apply Z.mul_lt_mono_pos_r; lia.
      * apply Z.mul_le_mono_nonneg_l; lia.
Qed.

Lemma binade_mono (x y : Q) :
  (0 < x)%Q -> (x <= y)%Q -> binade x <= binade y.
Proof.
  intros Hx Hxy. assert (Hy : (0 < y)%Q) by lra.
  destruct (binade_spec x Hx) as [Hx1 _].
  destruct (binade_spec y Hy) as [_ Hy2].
  destruct (Z_lt_le_dec (binade y) (binade x)) as [Hlt|]; [|assumption].
  pose proof (pow2_le (binade y + 1) (binade x) ltac:(lia)). lra.
Qed.

Lemma scaled (x : Q) (u : Z) : (x / pow2 u == x * pow2 (- u))%Q.
Proof.
  unfold Qdiv, pow2. now rewrite Qpower_opp.
Qed.

Lemma roundPositive_ge (y : Q) :
  (0 < y)%Q -> lastPlace y = binade y - 52 ->
  (pow2 (binade y) <= roundPositive y)%Q.
Proof.
  intros Hy Hu. unfold roundPositive. rewrite Hu.
  destruct (binade_spec y Hy) as [H1 _].
  assert (Hk : 2 ^ 52 <= nearest (y / pow2 (binade y - 52))).
  { apply nearest_ge_Z. rewrite <- (pow2_Z 52) by lia.
    rewrite scaled.
    replace 52 with (binade y + - (binade y - 52)) at 1 by ring.
    rewrite pow2_add.
    apply Qmult_le_compat_r; [exact H1|]. apply Qlt_le_weak, pow2_pos. }
  rewrite Zle_Qle in Hk. rewrite <- (pow2_Z 52) in Hk by lia.
  replace (binade y) with (52 + (binade y - 52)) at 1 by ring.
  rewrite pow2_add.
  apply Qmult_le_compat_r; [exact Hk|]. apply Qlt_le_weak, pow2_pos.
Qed.

Lemma roundPositive_le (x : Q) (e : Z) :
  (0 < x)%Q -> binade x + 1 <= e -> lastPlace x <= e ->
  (roundPositive x <= pow2 e)%Q.
Proof.
  intros Hx He Hu. unfold roundPositive.
  destruct (binade_spec x Hx) as [_ H2].
  set (u := lastPlace x) in *.
  assert (Hk : nearest (x / pow2 u) <= 2 ^ (e - u)).
  { apply nearest_le_Z. rewrite <- (pow2_Z (e - u)) by lia.
    rewrite scaled. unfold Z.sub. rewrite pow2_add.
    apply Qmult_le_compat_r; [|apply Qlt_le_weak, pow2_pos].
    pose proof (pow2_le (binade x + 1) e He). lra. }
  rewrite Zle_Qle in Hk. rewrite <- (pow2_Z (e - u)) in Hk by lia.
  assert (Ee : (pow2 e == pow2 (e - u) * pow2 u)%Q)
    by (rewrite <- pow2_add; now replace (e - u + u) with e by ring).
  rewrite Ee.
  apply Qmult_le_compat_r; [exact Hk|]. apply Qlt_le_weak, pow2_pos.
Qed.

Lemma roundPositive_mono (x y : Q) :
  (0 < x)%Q -> (x <= y)%Q -> (roundPositive x <= roundPositive y)%Q.
Proof.
  intros Hx Hxy. assert (Hy : (0 < y)%Q) by lra.
  pose proof (binade_mono x y Hx Hxy) as Hb.
  destruct (Z.eq_dec (lastPlace x) (lastPlace y)) as [E|E].
  - unfold roundPositive. rewrite E.
    apply Qmult_le_compat_r; [|apply Qlt_le_weak, pow2_pos].
    rewrite <- Zle_Qle. apply nearest_mono.
    rewrite !scaled.
    apply Qmult_le_compat_r; [exact Hxy|apply Qlt_le_weak, pow2_pos].
  - assert (Hu : lastPlace y = binade y - 52) by (unfold lastPlace in *; lia).
    apply Qle_trans with (pow2 (binade y)).
    + apply roundPositive_le; [exact Hx| |]; unfold lastPlace in *; lia.
    + now apply roundPositive_ge.
Qed.

Lemma roundPositive_nonneg (x : Q) : (0 < x)%Q -> (0 <= roundPositive x)%Q.
Proof.
  intro Hx. unfold roundPositive.
  apply Qmult_le_0_compat; [|apply Qlt_le_weak, pow2_pos].
  change 0%Q with (inject_Z 0). rewrite <- Zle_Qle. apply nearest_ge_Z.
  apply Qlt_le_weak. rewrite scaled.
  apply Qmult_lt_0_compat; [exact Hx|apply pow2_pos].
Qed.

Lemma double_mono (x y : Q) :
  (0 <= x)%Q -> (x <= y)%Q -> (double x <= double y)%Q.
Proof.
  intros Hx Hxy. unfold double.
  destruct (Qcompare_spec x 0) as [Ex|Ex|Ex]; [|lra|];
    destruct (Qcompare_spec y 0) as [Ey|Ey|Ey]; try lra.
  - now apply roundPositive_nonneg.
  - now apply roundPositive_mono.
Qed.

Lemma double_fixed_ge (a x : Q) :
  (double a == a)%Q -> (0 <= a)%Q -> (a <= x)%Q -> (a <= double x)%Q.
Proof.
  intros Ha H0 H. rewrite <- Ha. now apply double_mono.
Qed.

Lemma double_fixed_le (a x : Q) :
  (double a == a)%Q -> (0 <= x)%Q -> (x <= a)%Q -> (double x <= a)%Q.
Proof.
  intros Ha H0 H. rewrite <- Ha. now apply double_mono.
Qed.

(** On the literals of [textMatchScore], on their sum, and on the quotient
    and the product for every number of words up to 40, [double] gives what
    the specification of IEEE 754 gives. *)
Lemma double_as_specified :
  (valueOf (binary64 5404319552844595 (-53)) == double (6 # 10))%Q
  /\ (valueOf (binary64 5404319552844595 (-54)) == double (3 # 10))%Q
  /\ (valueOf (SFadd 53 1024 (binary64 5404319552844595 (-53))
                             (binary64 5404319552844595 (-54)))
      == double (double (6 # 10) + double (3 # 10)))%Q
  /\ forallb (fun p => roundedAlike (fst p) (snd p)) (countsUpTo 40) = true.
Proof.
  repeat split; vm_compute; reflexivity.
Qed.

Lemma double_half : (double (5 # 10) == 1 # 2)%Q.
Proof. vm_compute. reflexivity. Qed.

Lemma ratio_nonneg (a b : Z) : 0 <= a -> 0 <= b -> (0 <= ratio a b)%Q.
Proof.
  intros Ha Hb. unfold ratio, Qdiv, Qle, Qmult, Qinv; simpl.
  destruct b as [|b|b]; try lia; simpl; nia.
Qed.

(** The quotient rounded is at least 0.5 exactly when the exact quotient
    is, as long as the divisor is at most [2 ^ 53]: the binary64 value next
    below 0.5 is [0.5 - 2 ^ -54]. *)
Lemma half_test (a b : Z) :
  0 <= a -> 0 < b ->
  ((1 # 2 <= ratio a b)%Q -> (1 # 2 <= double (ratio a b))%Q)
  /\ (b <= 2 ^ 53 -> (1 # 2 <= double (ratio a b))%Q ->
      (1 # 2 <= ratio a b)%Q).
Proof.
  intros Ha Hb. split.
  - intro H. apply double_fixed_ge; [vm_compute; reflexivity|lra|exact H].
  - intros Hbig H.
    destruct (Qlt_le_dec (ratio a b) (1 # 2)) as [Hlt|]; [|assumption].
    exfalso.
    set (p := (9007199254740991 # 18014398509481984)%Q).
    assert (Hp : (ratio a b <= p)%Q).
    { revert Hlt. unfold p, ratio, Qdiv, Qle, Qlt, Qmult, Qinv; simpl.
      destruct b as [|b|b]; try lia. simpl.
      change (2 ^ 53) with 9007199254740992 in Hbig. lia. }
    assert (Hd : (double (ratio a b) <= p)%Q).
    { apply double_fixed_le; [vm_compute; reflexivity| |exact Hp].
      apply ratio_nonneg; lia. }
    unfold p in Hd. lra.
Qed.

(** ** The lexical score *)

(** C3, as stated, fails: the text [I have a cat] contains [cat], and the
    score is not 0.9, whether 0.9 is read as the rational or as the binary64
    value of the literal: it is the binary64 value next below that one. *)
Lemma textMatchScore_not_nine_tenths :
  containsSubstring (toLowerCase (str "I have a cat"%string))
                    (toLowerCase (str "cat"%string))
  /\ ~ (textMatchScore (str "cat"%string) (str "I have a cat"%string)
        == 9 # 10)%Q
  /\ ~ (textMatchScore (str "cat"%string) (str "I have a cat"%string)
        == double (9 # 10))%Q
  /\ (double (9 # 10)
      - textMatchScore (str "cat"%string) (str "I have a cat"%string)
      == pow2 (-53))%Q.
Proof.
  split; [exists (str "i have a "%string), []; reflexivity|].
  split; [|split]; vm_compute; try discriminate; reflexivity.
Qed.

(** C3, amended.  For every query and text, with both lowercased: when the
    text contains the query as a substring the score is the binary64 sum
    [0.6 + 0.3], which is 0.8999999999999999; otherwise, with [ws] the words
    of the query longer than two code units and [matchRatio] the binary64
    quotient of the number of them that the text contains by their number,
    the score is 0 when [ws] is empty, the binary64 product
    [0.6 * matchRatio] when [matchRatio >= 0.5], and 0 when
    [matchRatio < 0.5].  The test [matchRatio >= 0.5] holds when at least
    half of the words are found, and only then as long as there are at most
    [2 ^ 53] words.  The score of [cat] against [I have a cat] is
    0.8999999999999999 and that of [xyz123] against [no match here] is 0. *)
Theorem textMatchScore_binary64 (query txt : jsstring) :
  let queryLower := toLowerCase query in
  let textLower := toLowerCase txt in
  let ws := filter longWord (wordsOf queryLower) in
  let found := len (filter (includes textLower) ws) in
  let matchRatio := double (ratio found (len ws)) in
  (containsSubstring textLower queryLower ->
   textMatchScore query txt == double (double (6 # 10) + double (3 # 10)))
  /\ (double (double (6 # 10) + double (3 # 10)) == wholeMatchScore)%Q
  /\ (~ containsSubstring textLower queryLower ->
      (ws = [] -> textMatchScore query txt == 0)
      /\ (ws <> [] -> (1 # 2 <= matchRatio)%Q ->
          textMatchScore query txt == double (double (6 # 10) * matchRatio))
      /\ (ws <> [] -> (matchRatio < 1 # 2)%Q ->
          textMatchScore query txt == 0))
  /\ (ws <> [] ->
      ((1 # 2 <= ratio found (len ws))%Q -> (1 # 2 <= matchRatio)%Q)
      /\ (len ws <= 2 ^ 53 -> (1 # 2 <= matchRatio)%Q ->
          (1 # 2 <= ratio found (len ws))%Q))
  /\ textMatchScore (str "cat"%string) (str "I have a cat"%string)
     == wholeMatchScore
  /\ textMatchScore (str "xyz123"%string) (str "no match here"%string) == 0.
Proof.
  intros queryLower textLower ws found matchRatio.
  split; [|split; [vm_compute; reflexivity|]].
  { intro H. apply includes_spec in H. unfold textMatchScore.
    fold queryLower textLower. rewrite H. reflexivity. }
  split; [|split; [|split; vm_compute; reflexivity]].
  - intro H. apply includes_false in H. unfold textMatchScore.
    fold queryLower textLower. rewrite H, queryWordsOf_words. fold ws.
    unfold matchedWordsOf. rewrite matched_count, Z.add_0_l.
    fold found. fold (ratio found (len ws)). fold matchRatio.
    split; [|split].
    + intros ->. reflexivity.
    + intros Hne Hr.
      destruct (len ws =? 0) eqn:E.
      * apply Z.eqb_eq, len_nil_iff in E. contradiction.
      * rewrite <- double_half in Hr. apply Qle_bool_iff in Hr.
        rewrite Hr. reflexivity.
    + intros Hne Hr.
      destruct (len ws =? 0) eqn:E; [reflexivity|].
      destruct (Qle_bool (double (5 # 10)) matchRatio) eqn:E2; [|reflexivity].
      apply Qle_bool_iff in E2. rewrite double_half in E2.
      apply Qlt_not_le in Hr. contradiction.
  - intro Hne. apply half_test.
    + apply len_nonneg.
    + pose proof (len_nonneg ws).
      assert (len ws <> 0) by (intro E; apply len_nil_iff in E; contradiction).
      lia.
Qed.

Lemma textMatchScore_binary64_witness :
  containsSubstring (toLowerCase (str "I have a Cat"%string))
                    (toLowerCase (str "CAT"%string))
  /\ textMatchScore (str "CAT"%string) (str "I have a Cat"%string)
     == double (double (6 # 10) + double (3 # 10)).
Proof.
  assert (H : containsSubstring (toLowerCase (str "I have a Cat"%string))
                                (toLowerCase (str "CAT"%string)))
    by (exists (str "i have a "%string), []; reflexivity).
  split; [exact H|].
  exact (proj1 (textMatchScore_binary64 (str "CAT"%string)
                  (str "I have a Cat"%string)) H).
Defined.

(** ** Sorting *)

Lemma Qltb_lt (a b : Q) : Qltb a b = true <-> (a < b)%Q.
Proof.
  unfold Qltb. rewrite negb_true_iff. split.
  - intro H. apply Qnot_le_lt. intro Hle. apply Qle_bool_iff in Hle.
    congruence.
  - intro H. destruct (Qle_bool b a) eqn:E; [|reflexivity].
    apply Qle_bool_iff in E. apply Qlt_not_le in H. contradiction.
Qed.

Lemma Qltb_ge (a b : Q) : Qltb a b = false <-> (b <= a)%Q.
Proof.
  unfold Qltb. rewrite negb_false_iff. apply Qle_bool_iff.
Qed.

Section Sorting.

Context {A : Type} (key : A -> Q).

Lemma insertDesc_perm (x : A) (l : list A) :
  Permutation (insertDesc key x l) (x :: l).
Proof.
  induction l as [|y l IH]; simpl; [reflexivity|].
  destruct (Qltb (key x) (key y)); [|reflexivity].
  rewrite IH. apply perm_swap.
Qed.

Lemma sortDesc_perm (l : list A) : Permutation (sortDesc key l) l.
Proof.
  induction l as [|x l IH]; simpl; [reflexivity|].
  rewrite insertDesc_perm. now constructor.
Qed.

Lemma len_sortDesc (l : list A) : len (sortDesc key l) = len l.
Proof. unfold len. now rewrite (Permutation_length (sortDesc_perm l)). Qed.

Lemma insertDesc_sorted (x : A) (l : list A) :
  StronglySorted (descending key) l ->
  StronglySorted (descending key) (insertDesc key x l).
Proof.
  induction 1 as [|y l Hs IH Hall]; simpl.
  - constructor; constructor.
  - destruct (Qltb (key x) (key y)) eqn:E.
    + constructor; [exact IH|].
      eapply Permutation_Forall; [symmetry; apply insertDesc_perm|].
      constructor; [|exact Hall].
      apply Qltb_lt in E. unfold descending. now apply Qlt_le_weak.
    + apply Qltb_ge in E. constructor; [now constructor|].
      constructor; [exact E|].
      eapply Forall_impl; [|exact Hall]. unfold descending. intros z Hz.
      eapply Qle_trans; eassumption.
Qed.

Lemma sortDesc_sorted (l : list A) :
  StronglySorted (descending key) (sortDesc key l).
Proof.
  induction l as [|x l IH]; simpl; [constructor|].
  now apply insertDesc_sorted.
Qed.

End Sorting.

(** ** The global search *)

Lemma filter_nil_of {A : Type} (f : A -> bool) (l : list A) :
  (forall x, In x l -> f x = false) -> filter f l = [].
Proof.
  induction l as [|x l IH]; intro H; simpl; [reflexivity|].
  rewrite (H x) by now left. apply IH. intros y Hy. apply H. now right.
Qed.

Lemma jsstring_eqb_neq (a b : jsstring) : a <> b -> jsstring_eqb a b = false.
Proof.
  intro H. destruct (jsstring_eqb a b) eqn:E; [|reflexivity].
  apply jsstring_eqb_eq in E. contradiction.
Qed.

(** C5, as stated, fails: on a data base without project documents
    [searchProjectDocument] throws [Project document not found]; it does not
    return an empty list. *)
Lemma searchProjectDocument_unknown_throws :
  fst (searchProjectDocument (openai := sampleOpenAI)
         (str "missing"%string) (str "quote"%string)
         (mkWorld emptyDatabase []))
  = Thrown (str "Project document not found"%string)
  /\ fst (searchProjectDocument (openai := sampleOpenAI)
            (str "missing"%string) (str "quote"%string)
            (mkWorld emptyDatabase []))
     <> Returned [].
Proof. split; [reflexivity|discriminate]. Qed.

(** C5, amended.  [globalSearch] on a project id that no project carries
    returns no results and a total of zero.  [searchProjectDocument] on an
    id that no project document carries throws
    [Project document not found], calls no provider and writes nothing. *)
Theorem search_unknown_id {openai : OpenAI} (w : World)
    (projectId projectDocId query : jsstring)
    (filters : option SearchFilters) (limit : Z) :
  (forall p, In p (projects (world_db w)) -> project_id p <> projectId) ->
  (forall pd, In pd (projectDocuments (world_db w)) ->
              pd_id pd <> projectDocId) ->
  globalSearch (world_db w) projectId query filters limit = mkResponse [] 0
  /\ searchProjectDocument projectDocId query w
     = (Thrown (str "Project document not found"%string), w).
Proof.
  intros Hp Hpd. split.
  - unfold globalSearch. rewrite filter_nil_of; [reflexivity|].
    intros p Hin. apply jsstring_eqb_neq. now apply Hp.
  - unfold searchProjectDocument, bind, readDb. rewrite filter_nil_of;
      [reflexivity|].
    intros pd Hin. apply jsstring_eqb_neq. now apply Hpd.
Qed.

Lemma search_unknown_id_witness :
  globalSearch sampleDatabase (str "p2"%string) (str "cat"%string) None 20
  = mkResponse [] 0
  /\ searchProjectDocument (openai := sampleOpenAI) (str "pd2"%string)
       (str "cat"%string) (mkWorld sampleDatabase [])
     = (Thrown (str "Project document not found"%string),
        mkWorld sampleDatabase []).
Proof.
  apply (search_unknown_id (openai := sampleOpenAI) (mkWorld sampleDatabase [])
           (str "p2"%string) (str "pd2"%string) (str "cat"%string) None 20);
    simpl; intros x [<- | []]; discriminate.
Defined.

(** C9, as stated, fails: the project [p1] is named [cat] and has neither
    context summary nor thesis; the query [cat] has a score above 0 against
    its name, and [globalSearch] returns no result at all. *)
Lemma globalSearch_name_only_project_unmatched :
  (0 < textMatchScore (str "cat"%string) (project_name sampleProject))%Q
  /\ globalSearch sampleDatabase (str "p1"%string) (str "cat"%string) None
       defaultLimit
     = mkResponse [] 0.
Proof. split; reflexivity. Qed.

(** C9, amended.  For the project found by [globalSearch]: when its context
    summary or its thesis is non-empty, the lexical score is taken against
    the non-empty ones among context summary, thesis and name, joined by
    spaces, and a score above zero puts one [folder_context] result for the
    project in the pool, which is among the results returned whenever the
    limit is not below the total; when both are missing or empty the project
    itself contributes no result, whatever its name. *)
Theorem globalSearch_project_context (db : Database) (p : Project)
    (projectId query : jsstring) (filters : option SearchFilters) (limit : Z) :
  hd_error (filter (fun q => jsstring_eqb (project_id q) projectId)
                   (projects db)) = Some p ->
  (truthyN (project_contextSummary p) || truthyN (project_thesis p) = true ->
   (0 < r_similarityScore (projectRecord query p))%Q ->
   projectResults query p = [projectRecord query p]
   /\ (totalResults (globalSearch db projectId query filters limit) <= limit ->
       In (projectRecord query p)
          (results (globalSearch db projectId query filters limit))))
  /\ (truthyN (project_contextSummary p) || truthyN (project_thesis p)
      = false ->
      projectResults query p = []).
Proof.
  intro Hp. unfold globalSearch.
  destruct (filter (fun q => jsstring_eqb (project_id q) projectId)
                   (projects db)) as [|p' l]; [discriminate|].
  injection Hp as ->. split.
  - intros Hgate Hscore.
    assert (Hres : projectResults query p = [projectRecord query p]).
    { unfold projectResults. rewrite Hgate.
      apply Qltb_lt in Hscore. simpl in Hscore. rewrite Hscore. reflexivity. }
    split; [exact Hres|]. simpl. intro Hlimit.
    rewrite slice_all by exact Hlimit.
    eapply Permutation_in; [symmetry; apply sortDesc_perm|].
    unfold pooledResults. rewrite Hres. now left.
  - intro Hgate. unfold projectResults. now rewrite Hgate.
Qed.

Lemma globalSearch_project_context_witness :
  In (projectRecord (str "felines"%string) thesisProject)
     (results (globalSearch
                 (mkDatabase [thesisProject] [] [] [] [] [])
                 (str "p1"%string) (str "felines"%string) None defaultLimit)).
Proof.
  refine (proj2 (proj1 (globalSearch_project_context
                  (mkDatabase [thesisProject] [] [] [] [] []) thesisProject
                  (str "p1"%string) (str "felines"%string) None defaultLimit
                  _) _ _) _);
    vm_compute; try reflexivity; discriminate.
Defined.

(** ** The folder filter *)

Lemma folderExcluded_spec (filters : option SearchFilters)
    (folderId : nullable) :
  folderExcluded filters folderId = true <->
  exists ids f,
    optField folderIds filters = Some ids /\ folderId = Some f
    /\ f <> [] /\ ~ In f ids.
Proof.
  unfold folderExcluded.
  assert (Hin : forall ids f, includesId ids f = true <-> In f ids).
  { intros ids f. unfold includesId. rewrite existsb_exists. split.
    - intros (x & Hx & E). apply jsstring_eqb_eq in E. now subst.
    - intro H. exists f. split; [exact H|]. now apply jsstring_eqb_eq. }
  destruct (optField folderIds filters) as [ids|].
  2:{ split; [discriminate|]. intros (ids & f & H & _). discriminate. }
  destruct folderId as [f|].
  2:{ split; [discriminate|]. intros (i & f & _ & H & _). discriminate. }
  rewrite andb_true_iff, negb_true_iff. split.
  - intros [Ht Hn]. exists ids, f. repeat split; try reflexivity.
    + intros ->. discriminate.
    + intro H. apply Hin in H. congruence.
  - intros (ids' & f' & H1 & H2 & H3 & H4).
    injection H1 as <-. injection H2 as <-. split.
    + destruct f; [contradiction|reflexivity].
    + destruct (includesId ids f) eqn:E; [|reflexivity].
      apply Hin in E. contradiction.
Qed.

(** C10.  The folder clause of the document loop and of the annotation loop
    skips a row only when a [folderIds] list is supplied and the project
    document carries a non-empty [folderId] that the list does not contain.
    For a project document without folder, the results that a document row
    and an annotation row contribute are the same under any two filters that
    differ only in [folderIds]. *)
Theorem folder_filter_keeps_unfiled (query : jsstring)
    (f1 f2 : option SearchFilters) (ann : ProjectAnnotation)
    (projectDoc : ProjectDocument) (doc : Document) :
  pd_folderId projectDoc = None ->
  optField categories f1 = optField categories f2 ->
  optField documentIds f1 = optField documentIds f2 ->
  folderExcluded f1 (pd_folderId projectDoc) = false
  /\ documentResults query f1 (projectDoc, doc)
     = documentResults query f2 (projectDoc, doc)
  /\ annotationResults query f1 (ann, projectDoc, doc)
     = annotationResults query f2 (ann, projectDoc, doc)
  /\ (forall filters folderId,
         folderExcluded filters folderId = true ->
         exists ids f,
           optField folderIds filters = Some ids /\ folderId = Some f
           /\ f <> [] /\ ~ In f ids).
Proof.
  intros Hnone Hc Hd.
  assert (Hex : forall f, folderExcluded f (pd_folderId projectDoc) = false).
  { intro f. rewrite Hnone. unfold folderExcluded.
    destruct (optField folderIds f); reflexivity. }
  split; [apply Hex|]. split; [|split].
  - unfold documentResults. now rewrite Hd, !Hex.
  - unfold annotationResults. now rewrite Hc, Hd, !Hex.
  - intros filters folderId H. now apply folderExcluded_spec.
Qed.

Lemma folder_filter_keeps_unfiled_witness :
  documentResults (str "notes"%string) None
    (sampleProjectDocument, sampleDocument)
  = documentResults (str "notes"%string) (onlyFolder (str "f1"%string))
      (sampleProjectDocument, sampleDocument)
  /\ documentResults (str "notes"%string) (onlyFolder (str "f1"%string))
       (sampleProjectDocument, sampleDocument) <> [].
Proof.
  split.
  - exact (proj1 (proj2 (folder_filter_keeps_unfiled (str "notes"%string)
             None (onlyFolder (str "f1"%string))
             (mkProjectAnnotation [] [] [] None [] None 0)
             sampleProjectDocument sampleDocument
             eq_refl eq_refl eq_refl))).
  - vm_compute. discriminate.
Defined.

(** ** The thoroughness selection *)

Lemma filter_descending_prefix {A : Type} (key : A -> Q) (m : Q) (l : list A) :
  StronglySorted (descending key) l ->
  exists rest, l = filter (fun c => Qle_bool m (key c)) l ++ rest.
Proof.
  induction 1 as [|x l Hs IH Hall]; simpl; [now exists []|].
  destruct (Qle_bool m (key x)) eqn:E.
  - destruct IH as [rest IH]. exists rest. simpl. now rewrite <- IH.
  - exists (x :: l). rewrite filter_nil_of; [reflexivity|].
    intros y Hy. rewrite Forall_forall in Hall. specialize (Hall y Hy).
    destruct (Qle_bool m (key y)) eqn:E2; [|reflexivity].
    apply Qle_bool_iff in E2.
    assert (Hmx : (m <= key x)%Q) by (eapply Qle_trans; eassumption).
    apply Qle_bool_iff in Hmx. congruence.
Qed.





(** ** The garbled-text detector *)

Lemma closeRun_closeWord (cur : jsstring) :
  closeRun cur = filter (fun w => len w >=? 3) (closeWord cur).
Proof.
  destruct cur as [|x cur]; [reflexivity|].
  unfold closeRun, closeWord. cbn [filter].
  destruct (len (x :: cur) >=? 3); reflexivity.
Qed.

(** The matches of [/[a-zA-Z]{3,}/g] are the maximal runs of letters that
    have at least three letters. *)
Lemma matchWordsAux_runs (s cur : jsstring) :
  matchWordsAux s cur = filter (fun w => len w >=? 3) (runsAux isAlpha s cur).
Proof.
  revert cur. induction s as [|c s IH]; intro cur; cbn [matchWordsAux runsAux].
  - apply closeRun_closeWord.
  - destruct (isAlpha c); [apply IH|].
    now rewrite filter_app, IH, closeRun_closeWord.
Qed.

Lemma matchWords_alphabeticWords (s : jsstring) :
  matchWords s = alphabeticWords s.
Proof. apply matchWordsAux_runs. Qed.

Lemma ratio_zero (a : Z) : (ratio a 0 == 0)%Q.
Proof. unfold ratio, Qdiv, Qeq. simpl. lia. Qed.

Lemma gtb_zero_len {A : Type} (l : list A) : (len l >? 0) = negb (len l =? 0).
Proof.
  pose proof (len_nonneg l).
  destruct (Z.gtb_spec (len l) 0), (Z.eqb_spec (len l) 0); simpl; lia.
Qed.

(** C7.  [isGarbledText] is false for a text shorter than 100 code units,
    the empty text included.  For any other text, over the sample of its
    first 2000 code units, with [words] the maximal runs of at least three
    letters, [wordChars] their total length, [totalChars] the number of code
    units that are not white space, [wordRatio = wordChars / totalChars] (0
    when [totalChars] is 0), [bracketRatio] the number of code units of the
    symbol set over [totalChars], and [avgWordLen = wordChars / len words] (0
    without words), it is true exactly when [wordRatio < 0.4], or
    [bracketRatio > 0.1], or [len words > 10] and [avgWordLen < 3].  It is
    false on the empty text and true on 2000 code units of repeated
    [@#$%], as on 2000 repetitions of [@#$%]. *)
Theorem isGarbledText_spec (txt : jsstring) :
  let sample := firstn 2000 txt in
  let words := alphabeticWords sample in
  let wordChars := len (concat words) in
  let totalChars := len (removeWhiteSpace sample) in
  let wordRatio :=
    if totalChars =? 0 then 0%Q else ratio wordChars totalChars in
  let bracketRatio := ratio (len (filter isBracket sample)) totalChars in
  let avgWordLen :=
    if len words =? 0 then 0%Q else ratio wordChars (len words) in
  (len txt < 100 -> isGarbledText txt = false)
  /\ (100 <= len txt ->
      (isGarbledText txt = true <->
       (wordRatio < 4 # 10)%Q \/ (1 # 10 < bracketRatio)%Q
       \/ (10 < len words /\ (avgWordLen < 3)%Q)))
  /\ isGarbledText [] = false
  /\ isGarbledText (concat (repeat (str "@#$%"%string) 500)) = true
  /\ isGarbledText (concat (repeat (str "@#$%"%string) 2000)) = true.
Proof.
  intros sample words wordChars totalChars wordRatio bracketRatio avgWordLen.
  split; [|split; [|repeat split; vm_compute; reflexivity]].
  - intro H. apply Z.ltb_lt in H. unfold isGarbledText.
    now rewrite H, orb_true_r.
  - intro H. unfold isGarbledText.
    assert (Ht : truthy txt = true).
    { destruct txt; [|reflexivity]. unfold len in H. simpl in H. lia. }
    assert (Hl : (len txt <? 100) = false) by (apply Z.ltb_ge; lia).
    rewrite Ht, Hl. cbn [negb orb].
    rewrite slice_prefix by lia. change (Z.to_nat 2000) with 2000%nat.
    fold sample. rewrite matchWords_alphabeticWords. fold words.
    unfold matchClass. fold wordChars totalChars.
    assert (Htc : (totalChars >? 0) = negb (totalChars =? 0))
      by apply gtb_zero_len.
    rewrite Htc, gtb_zero_len.
    replace (if negb (totalChars =? 0) then ratio wordChars totalChars else 0%Q)
      with wordRatio
      by (unfold wordRatio; destruct (totalChars =? 0); reflexivity).
    replace (if negb (len words =? 0) then ratio wordChars (len words) else 0%Q)
      with avgWordLen
      by (unfold avgWordLen; destruct (len words =? 0); reflexivity).
    assert (Hb : Qltb (1 # 10)
                   (if negb (totalChars =? 0)
                    then ratio (len (filter isBracket sample)) totalChars
                    else 0%Q) = true <-> (1 # 10 < bracketRatio)%Q).
    { unfold bracketRatio. rewrite Qltb_lt.
      destruct (totalChars =? 0) eqn:E0; [|reflexivity].
      apply Z.eqb_eq in E0. cbn [negb]. rewrite E0.
      now rewrite ratio_zero. }
    rewrite !orb_true_iff, andb_true_iff, Hb, !Qltb_lt.
    assert (Hw : (len words >? 10) = true <-> 10 < len words).
    { destruct (Z.gtb_spec (len words) 10); split; intro; try lia;
        try reflexivity; discriminate. }
    rewrite Hw. tauto.
Qed.

Lemma isGarbledText_spec_witness :
  isGarbledText (concat (repeat (str "{a}"%string) 40)) = true.
Proof.
  apply (proj1 (proj2 (isGarbledText_spec
                         (concat (repeat (str "{a}"%string) 40))))).
  - vm_compute. discriminate.
  - left. vm_compute. reflexivity.
Defined.

(** ** The embedding fill *)

Section EmbeddingFill.

Context {openai : OpenAI}.

Lemma withChunks_same (db : Database) : withChunks db (chunks db) = db.
Proof. now destruct db. Qed.

Lemma requests_run (l : list Chunk) (w : World) :
  mapM requestEmbedding l w
  = (Returned (map (fun c => embeddingOf (chunk_text c)) l),
     mkWorld (world_db w) (world_trace w ++ map requestEvent l)).
Proof.
  revert w. induction l as [|c l IH]; intro w; cbn [mapM map].
  - unfold ret. rewrite app_nil_r. now destruct w.
  - unfold bind at 1, requestEmbedding, getEmbedding, bind at 1, emit, ret at 1.
    unfold bind at 1. rewrite IH. unfold ret. cbn [world_db world_trace].
    now rewrite <- app_assoc.
Qed.

Lemma stores_run (l : list Chunk) (w : World) :
  Forall (fun c => lacksEmbedding c = true) l ->
  mapM storeEmbedding l w
  = (Returned (map (fun _ => tt) l),
     mkWorld (withChunks (world_db w)
                (fold_left persist l (chunks (world_db w))))
             (world_trace w ++ map storeEvent l)).
Proof.
  intro Hl. revert w.
  induction Hl as [|c l Hc Hl IH]; intro w; cbn [mapM map fold_left].
  - unfold ret. rewrite withChunks_same, app_nil_r. now destruct w.
  - unfold bind at 1, storeEmbedding, updateChunkEmbedding.
    unfold bind at 1. rewrite IH. unfold ret. cbn [world_db world_trace].
    assert (Hp : forall stored,
               persist stored c
               = map (fun s => if jsstring_eqb (chunk_id s) (chunk_id c)
                               then setEmbedding s (embeddingOf (chunk_text c))
                               else s) stored).
    { intro stored. unfold persist. unfold lacksEmbedding in Hc.
      now destruct (chunk_embedding c). }
    rewrite Hp, <- app_assoc. now destruct (world_db w).
Qed.

Lemma answered_waiting (cs : list Chunk) :
  Forall (fun c => lacksEmbedding c = true)
         (answered (filter lacksEmbedding cs)).
Proof.
  apply Forall_forall. intros c Hc.
  apply (Permutation_in _ (answered_all _)) in Hc.
  now apply filter_In in Hc.
Qed.

Lemma fillEmbeddings_run (cs : list Chunk) (w : World) :
  fillEmbeddings cs w
  = (Returned (map filled cs),
     mkWorld (withChunks (world_db w)
                (fold_left persist (answered (filter lacksEmbedding cs))
                   (chunks (world_db w))))
             (world_trace w ++ fillTrace cs)).
Proof.
  unfold fillEmbeddings, fillTrace, bind at 1. rewrite requests_run.
  unfold bind at 1. rewrite stores_run by apply answered_waiting.
  unfold ret. cbn [world_db world_trace]. now rewrite <- app_assoc.
Qed.

Lemma providerCalls_fill (cs : list Chunk) :
  len (filter isProviderCall (fillTrace cs))
  = len (filter lacksEmbedding cs).
Proof.
  unfold fillTrace. rewrite filter_app.
  assert (H1 : forall l, filter isProviderCall (map requestEvent l)
                         = map requestEvent l).
  { induction l as [|c l IH]; [reflexivity|]. cbn [map filter isProviderCall
      requestEvent]. now rewrite IH. }
  assert (H2 : forall l, filter isProviderCall (map storeEvent l) = []).
  { induction l as [|c l IH]; [reflexivity|]. exact IH. }
  rewrite H1, H2, app_nil_r. unfold len. now rewrite length_map.
Qed.

Lemma persist_other (stored : list Chunk) (c s : Chunk) :
  In s (persist stored c) -> chunk_id s <> chunk_id c -> In s stored.
Proof.
  unfold persist. destruct (chunk_embedding c); [tauto|].
  rewrite in_map_iff. intros (s0 & <- & Hin) Hid.
  destruct (jsstring_eqb (chunk_id s0) (chunk_id c)) eqn:E; [|exact Hin].
  apply jsstring_eqb_eq in E. simpl in Hid. contradiction.
Qed.

Lemma fold_persist_other (cs stored : list Chunk) (s : Chunk) :
  In s (fold_left persist cs stored) ->
  ~ In (chunk_id s) (map chunk_id cs) -> In s stored.
Proof.
  revert stored. induction cs as [|c cs IH]; intros stored Hin Hid;
    [exact Hin|].
  simpl in Hid. cbn [fold_left] in Hin.
  apply (persist_other stored c); [|intro E; apply Hid; now left].
  apply IH; [exact Hin|]. intro H. apply Hid. now right.
Qed.

Lemma persist_same (stored : list Chunk) (c s : Chunk) :
  chunk_embedding c = None -> In s (persist stored c) ->
  chunk_id s = chunk_id c ->
  chunk_embedding s = Some (embeddingOf (chunk_text c)).
Proof.
  unfold persist. intros -> Hin Hid. apply in_map_iff in Hin.
  destruct Hin as (s0 & <- & _).
  destruct (jsstring_eqb (chunk_id s0) (chunk_id c)) eqn:E; [reflexivity|].
  apply jsstring_eqb_eq in Hid. congruence.
Qed.

Lemma fold_persist_stored (cs stored : list Chunk) (c s : Chunk) :
  NoDup (map chunk_id cs) -> In c cs -> chunk_embedding c = None ->
  In s (fold_left persist cs stored) -> chunk_id s = chunk_id c ->
  chunk_embedding s = Some (embeddingOf (chunk_text c)).
Proof.
  revert stored. induction cs as [|c0 cs IH]; intros stored Hnd Hc Hnone Hs Hid;
    [destruct Hc|].
  simpl in Hnd. inversion Hnd as [|? ? Hnotin Hnd']; subst.
  cbn [fold_left] in Hs. destruct Hc as [->|Hc].
  - apply (persist_same stored c s Hnone); [|exact Hid].
    apply (fold_persist_other cs); [exact Hs|]. now rewrite Hid.
  - now apply (IH (persist stored c0)).
Qed.

Lemma waiting_ids (cs : list Chunk) :
  NoDup (map chunk_id cs) ->
  NoDup (map chunk_id (answered (filter lacksEmbedding cs))).
Proof.
  intro Hnd.
  apply (Permutation_NoDup
           (Permutation_map chunk_id
              (Permutation_sym (answered_all (filter lacksEmbedding cs))))).
  induction cs as [|c cs IH]; [constructor|].
  inversion Hnd as [|? ? Hnotin Hnd']; subst. cbn [filter].
  destruct (lacksEmbedding c); [|now apply IH].
  cbn [map]. constructor; [|now apply IH].
  intro Hin. apply Hnotin. apply in_map_iff in Hin.
  destruct Hin as (x & Hx & Hin). apply filter_In in Hin.
  apply in_map_iff. exists x. tauto.
Qed.

(** The route embeds the intent, fills the chunks of the document, and
    ranks what the fill returned. *)
Lemma setIntentTopChunks_run (documentId intent : jsstring)
    (thoroughness : BodyValue) (w : World) :
  let cs := filter (fun c => jsstring_eqb (chunk_documentId c) documentId)
                   (chunks (world_db w)) in
  cs <> [] ->
  setIntentTopChunks documentId intent thoroughness w
  = (Returned
       (topChunksOf (resolveLevel thoroughness)
          (rankChunks (embeddingOf intent) (map filled cs))),
     mkWorld (withChunks (world_db w)
                (fold_left persist (answered (filter lacksEmbedding cs))
                   (chunks (world_db w))))
             (world_trace w ++ EvGetEmbedding intent :: fillTrace cs)).
Proof.
  intros cs Hne. unfold setIntentTopChunks, bind at 1.
  unfold getChunksForDocument, bind at 1, readDb, ret at 1. fold cs.
  destruct (len cs =? 0) eqn:E.
  { apply Z.eqb_eq, len_nil_iff in E. contradiction. }
  unfold bind at 1, getEmbedding, bind at 1, emit, ret at 1.
  unfold bind at 1. rewrite fillEmbeddings_run. unfold ret.
  cbn [world_db world_trace]. now rewrite <- app_assoc.
Qed.

(** C8, as stated, fails: [searchProjectDocument] ranks the chunks of the
    document [doc1] against the vector of the query; the chunk [c1] has no
    vector; the only provider call is the one for the query, nothing is
    stored for the chunk, and the chunk is left out of the ranking. *)
Lemma searchProjectDocument_skips_unembedded :
  chunk_embedding sampleChunk = None
  /\ searchProjectDocument (openai := sampleOpenAI) (str "pd1"%string)
       (str "cats"%string) (mkWorld sampleDatabase [])
     = (Returned [],
        mkWorld sampleDatabase [EvGetEmbedding (str "cats"%string)]).
Proof. split; reflexivity. Qed.

(** C8, amended.  In the set-intent route a chunk without vector triggers
    one provider call, on its text, and one [updateChunkEmbedding] with the
    vector returned, and a chunk with a vector is passed on as it is,
    without a call.  The calls for the chunks come first, in the order of
    the chunks; the stores follow, one for each call, in the order in which
    the provider answers.  The route ranks what the fill returned, and the
    stored chunk of a filled chunk then carries the vector.  The search
    within one document calls the provider for the query only, stores
    nothing, and ranks the chunks that have a vector. *)
Theorem embedding_fill (cs : list Chunk) (w : World)
    (projectDocId query : jsstring) :
  let waiting := filter lacksEmbedding cs in
  (exists w',
      fillEmbeddings cs w = (Returned (map filled cs), w')
      /\ world_trace w'
         = world_trace w
           ++ map requestEvent waiting ++ map storeEvent (answered waiting)
      /\ Permutation (answered waiting) waiting
      /\ len (filter isProviderCall (fillTrace cs)) = len waiting
      /\ (NoDup (map chunk_id cs) ->
          forall c s,
            In c cs -> chunk_embedding c = None ->
            In s (chunks (world_db w')) -> chunk_id s = chunk_id c ->
            chunk_embedding s = Some (embeddingOf (chunk_text c))))
  /\ (forall c v, chunk_embedding c = Some v ->
                  filled c = (c, v) /\ ~ In c waiting)
  /\ (forall c, In c cs -> chunk_embedding c = None ->
                In c waiting
                /\ requestEvent c = EvGetEmbedding (chunk_text c)
                /\ storeEvent c
                   = EvUpdateChunkEmbedding (chunk_id c)
                       (embeddingOf (chunk_text c)))
  /\ (exists r t,
         searchProjectDocument projectDocId query w
         = (r, mkWorld (world_db w) (world_trace w ++ t))
         /\ (t = [] \/ t = [EvGetEmbedding query]
             \/ exists researchContext,
                  t = [EvGetEmbedding query;
                       EvSearchDocument query researchContext]))
  /\ (forall queryEmbedding c,
         chunk_embedding c = None -> rankable queryEmbedding c = [])
  /\ (forall documentId intent thoroughness,
         let docChunks :=
           filter (fun c => jsstring_eqb (chunk_documentId c) documentId)
                  (chunks (world_db w)) in
         docChunks <> [] ->
         exists w',
           setIntentTopChunks documentId intent thoroughness w
           = (Returned
                (topChunksOf (resolveLevel thoroughness)
                   (rankChunks (embeddingOf intent) (map filled docChunks))),
              w')
           /\ world_trace w'
              = world_trace w ++ EvGetEmbedding intent :: fillTrace docChunks).
Proof.
  intro waiting.
  split; [|split; [|split; [|split; [|split]]]].
  - eexists. split; [apply fillEmbeddings_run|]. cbn [world_trace world_db].
    split; [reflexivity|]. split; [apply answered_all|].
    split; [apply providerCalls_fill|].
    intros Hnd c s Hc Hnone Hs Hid.
    destruct (world_db w); cbn [withChunks chunks] in Hs.
    eapply (fold_persist_stored (answered waiting));
      [now apply waiting_ids| |exact Hnone|exact Hs|exact Hid].
    apply (Permutation_in c (Permutation_sym (answered_all waiting))).
    apply filter_In. split; [exact Hc|]. unfold lacksEmbedding.
    now rewrite Hnone.
  - intros c v H. unfold filled. rewrite H. split; [reflexivity|].
    intro Hin. apply filter_In in Hin. unfold lacksEmbedding in Hin.
    rewrite H in Hin. now destruct Hin.
  - intros c Hc H. split; [|split; reflexivity].
    apply filter_In. split; [exact Hc|]. unfold lacksEmbedding.
    now rewrite H.
  - unfold searchProjectDocument, bind, readDb.
    destruct (filter _ (projectDocuments (world_db w))) as [|projectDoc ?].
    { exists (Thrown (str "Project document not found"%string)), [].
      rewrite app_nil_r. split; [now destruct w | now left]. }
    destruct (filter _ (documents (world_db w))) as [|doc ?].
    { exists (Thrown (str "Document not found"%string)), [].
      rewrite app_nil_r. split; [now destruct w | now left]. }
    unfold getChunksForDocument, bind, readDb, ret.
    destruct (len _ =? 0).
    { exists (Returned []), []. rewrite app_nil_r.
      split; [now destruct w | now left]. }
    unfold getEmbedding, bind, emit, ret. cbn [world_db world_trace].
    destruct (len _ =? 0).
    { eexists _, _. split; [reflexivity|]. right. now left. }
    unfold searchDocument, bind, emit, ret. cbn [world_db world_trace].
    eexists _, _. rewrite <- app_assoc. split; [reflexivity|].
    right. right. eexists. reflexivity.
  - intros q c H. unfold rankable. now rewrite H.
  - intros documentId intent thoroughness docChunks Hne.
    eexists. split; [now apply setIntentTopChunks_run|reflexivity].
Qed.

End EmbeddingFill.

(** Two chunks without vector: the provider is called for the first, then
    for the second; it answers the second call first, and the vector of the
    second chunk is stored first. *)
Lemma embedding_fill_witness :
  exists w',
    fillEmbeddings (openai := sampleOpenAI) [sampleChunk; secondChunk]
      (mkWorld twoChunkDatabase [])
    = (Returned (map (filled (openai := sampleOpenAI))
                     [sampleChunk; secondChunk]), w')
    /\ world_trace w'
       = [EvGetEmbedding (str "cats purr"%string);
          EvGetEmbedding (str "dogs bark loud"%string);
          EvUpdateChunkEmbedding (str "c2"%string) [14 # 10];
          EvUpdateChunkEmbedding (str "c1"%string) [9 # 10]]
    /\ forall s, In s (chunks (world_db w')) ->
                 chunk_id s = chunk_id sampleChunk ->
                 chunk_embedding s = Some [9 # 10].
Proof.
  destruct (proj1 (embedding_fill (openai := sampleOpenAI)
                     [sampleChunk; secondChunk]
                     (mkWorld twoChunkDatabase []) [] []))
    as (w' & Hrun & Htrace & _ & _ & Hstored).
  assert (Hnd : NoDup (map chunk_id [sampleChunk; secondChunk])).
  { repeat constructor; simpl; [intros [H|[]]; discriminate|tauto]. }
  exists w'. split; [exact Hrun|]. split; [exact Htrace|]. intros s Hs Hid.
  apply (Hstored Hnd sampleChunk s);
    [now left | reflexivity | exact Hs | exact Hid].
Defined.

(** * Further properties *)

(** ** The lexical score: range, case and degenerate queries *)

Lemma len_filter_le {A : Type} (f : A -> bool) (l : list A) :
  len (filter f l) <= len l.
Proof.
  unfold len. pose proof (filter_length_le f l). lia.
Qed.

Lemma ratio_bounds (a b : Z) :
  0 <= a <= b -> 0 < b -> (0 <= ratio a b <= 1)%Q.
Proof.
  intros Ha Hb. unfold ratio, Qdiv, Qle, Qmult, Qinv; simpl.
  destruct b as [|b|b]; try lia. simpl. split; nia.
Qed.

Lemma getRelevanceLevel_high (s : Q) :
  getRelevanceLevel s = high <-> (double (7 # 10) <= s)%Q.
Proof.
  unfold getRelevanceLevel. rewrite <- Qle_bool_iff.
  destruct (Qle_bool (double (7 # 10)) s); [tauto|].
  destruct (Qle_bool (double (5 # 10)) s); split; discriminate.
Qed.

Lemma textMatchScore_cases (query txt : jsstring) :
  (includes (toLowerCase txt) (toLowerCase query) = true
   /\ (textMatchScore query txt == wholeMatchScore)%Q)
  \/ (includes (toLowerCase txt) (toLowerCase query) = false
      /\ ((textMatchScore query txt == 0)%Q
          \/ (double (3 # 10) <= textMatchScore query txt
              <= double (6 # 10))%Q)).
Proof.
  unfold textMatchScore.
  destruct (includes (toLowerCase txt) (toLowerCase query));
    [left; split; [reflexivity|vm_compute; reflexivity]
    |right; split; [reflexivity|]].
  set (ws := queryWordsOf (toLowerCase query)).
  destruct (len ws =? 0) eqn:E; [left; reflexivity|].
  unfold matchedWordsOf. rewrite matched_count, Z.add_0_l.
  set (m := len (filter (includes (toLowerCase txt)) ws)).
  assert (Hr : (0 <= ratio m (len ws) <= 1)%Q).
  { apply ratio_bounds.
    - split; [apply len_nonneg | apply len_filter_le].
    - apply Z.eqb_neq in E. pose proof (len_nonneg ws). lia. }
  fold (ratio m (len ws)). set (matchRatio := double (ratio m (len ws))).
  assert (H1 : (matchRatio <= 1)%Q)
    by (apply double_fixed_le; [vm_compute; reflexivity|lra|lra]).
  destruct (Qle_bool (double (5 # 10)) matchRatio) eqn:E2;
    [|left; reflexivity].
  apply Qle_bool_iff in E2. rewrite double_half in E2. right.
  assert (Hpos : (0 < TEXT_MATCH_SCORE)%Q) by (vm_compute; reflexivity).
  assert (Hlow : (double (3 # 10) == TEXT_MATCH_SCORE * (1 # 2))%Q)
    by (vm_compute; reflexivity).
  assert (Hhigh : (double (6 # 10) == TEXT_MATCH_SCORE * 1)%Q)
    by (vm_compute; reflexivity).
  assert (H3 : (0 <= double (3 # 10))%Q) by (vm_compute; discriminate).
  split.
  - apply double_fixed_ge; [vm_compute; reflexivity|exact H3|].
    rewrite Hlow. now apply Qmult_le_l.
  - apply double_fixed_le; [vm_compute; reflexivity| |].
    + apply Qmult_le_0_compat; lra.
    + rewrite Hhigh. now apply Qmult_le_l.
Qed.

(** The lexical score takes the value 0.8999999999999999, or 0, or a value
    from 0.3 to 0.6, these being the binary64 values of the literals; its
    relevance level is [high] exactly when the lowercased text contains the
    lowercased query. *)
Theorem textMatchScore_range (query txt : jsstring) :
  ((textMatchScore query txt == wholeMatchScore)%Q
   \/ (textMatchScore query txt == 0)%Q
   \/ (double (3 # 10) <= textMatchScore query txt <= double (6 # 10))%Q)
  /\ (getRelevanceLevel (textMatchScore query txt) = high
      <-> includes (toLowerCase txt) (toLowerCase query) = true).
Proof.
  rewrite getRelevanceLevel_high.
  assert (H7 : (double (6 # 10) < double (7 # 10) <= wholeMatchScore)%Q)
    by (split; vm_compute; [reflexivity|discriminate]).
  assert (H0 : (0 < double (7 # 10))%Q) by (vm_compute; reflexivity).
  destruct (textMatchScore_cases query txt) as [[Hi Hs]|[Hi [Hs|Hs]]];
    rewrite Hi.
  - split; [now left|]. split; [reflexivity|]. intros _. lra.
  - split; [right; now left|]. split; [|discriminate]. intro H. lra.
  - split; [right; now right|]. split; [|discriminate]. intro H. lra.
Qed.

Lemma toLowerChar_idem (c : ascii) :
  toLowerChar (toLowerChar c) = toLowerChar c.
Proof.
  destruct c as [[] [] [] [] [] [] [] []]; vm_compute; reflexivity.
Qed.

Lemma toLowerCase_idem (s : jsstring) :
  toLowerCase (toLowerCase s) = toLowerCase s.
Proof.
  unfold toLowerCase. rewrite map_map. apply map_ext. exact toLowerChar_idem.
Qed.

(** The lexical score does not see the case of its arguments: lowercasing
    the query or the text beforehand does not change it, and two queries with
    the same lowercase form, against two texts with the same lowercase form,
    score the same. *)
Theorem textMatchScore_case_insensitive (query txt : jsstring) :
  textMatchScore (toLowerCase query) txt = textMatchScore query txt
  /\ textMatchScore query (toLowerCase txt) = textMatchScore query txt
  /\ (forall query' txt',
         toLowerCase query = toLowerCase query' ->
         toLowerCase txt = toLowerCase txt' ->
         textMatchScore query txt = textMatchScore query' txt').
Proof.
  unfold textMatchScore. rewrite !toLowerCase_idem.
  split; [reflexivity|]. split; [reflexivity|].
  intros query' txt' Hq Ht. now rewrite Hq, Ht.
Qed.

Lemma textMatchScore_case_insensitive_witness :
  textMatchScore (str "Cat Dog"%string) (str "a CAT"%string)
  = textMatchScore (str "cAT dOG"%string) (str "A cat"%string).
Proof.
  apply (proj2 (proj2 (textMatchScore_case_insensitive
                         (str "Cat Dog"%string) (str "a CAT"%string))));
    reflexivity.
Defined.

Lemma includes_nil (t : jsstring) : includes t [] = true.
Proof.
  apply includes_spec. exists [], t. reflexivity.
Qed.

(** The empty query scores 0.8999999999999999, the score of a whole match,
    against every text.  A query whose words all have at most two code units
    gets no partial credit: unless the text contains the whole query, its
    score is 0. *)
Theorem textMatchScore_degenerate (query txt : jsstring) :
  (textMatchScore [] txt == wholeMatchScore)%Q
  /\ (Forall (fun w => len w <= 2) (wordsOf (toLowerCase query)) ->
      includes (toLowerCase txt) (toLowerCase query) = false ->
      textMatchScore query txt = 0%Q).
Proof.
  split.
  - unfold textMatchScore. change (toLowerCase []) with (@nil ascii).
    rewrite includes_nil. vm_compute. reflexivity.
  - intros Hall Hinc. unfold textMatchScore. rewrite Hinc.
    rewrite queryWordsOf_words.
    rewrite filter_nil_of; [reflexivity|].
    intros w Hw. rewrite Forall_forall in Hall. specialize (Hall w Hw).
    unfold longWord. rewrite Z.gtb_ltb. apply Z.ltb_ge. lia.
Qed.

Lemma textMatchScore_degenerate_witness :
  textMatchScore (str "is it"%string) (str "it is what it is"%string) = 0%Q.
Proof.
  apply (proj2 (textMatchScore_degenerate (str "is it"%string)
                  (str "it is what it is"%string))).
  - repeat constructor; vm_compute; discriminate.
  - reflexivity.
Defined.

(** ** The global search: ranking, limits and filters *)

Lemma includesId_In (ids : list jsstring) (id : jsstring) :
  includesId ids id = true <-> In id ids.
Proof.
  unfold includesId. rewrite existsb_exists. split.
  - intros (x & Hx & E). apply jsstring_eqb_eq in E. now subst.
  - intro H. exists id. split; [exact H|]. now apply jsstring_eqb_eq.
Qed.

Lemma notListed_false (allow : option (list jsstring)) (id : jsstring) :
  notListed allow id = false -> forall ids, allow = Some ids -> In id ids.
Proof.
  intros H ids ->. simpl in H. apply negb_false_iff in H.
  now apply includesId_In.
Qed.

Lemma folderExcluded_false (filters : option SearchFilters)
    (folderId : nullable) :
  folderExcluded filters folderId = false ->
  forall ids f, optField folderIds filters = Some ids ->
                orUndefined folderId = Some f -> In f ids.
Proof.
  unfold folderExcluded, orUndefined. intros H ids f Hids Hf.
  rewrite Hids in H. destruct folderId as [g|]; [|discriminate].
  simpl in Hf. destruct (truthy g); [|discriminate].
  injection Hf as <-. simpl in H. apply negb_false_iff in H.
  now apply includesId_In.
Qed.

Lemma textMatchScore_le (query txt : jsstring) :
  (textMatchScore query txt <= 9 # 10)%Q.
Proof.
  assert (H9 : (wholeMatchScore <= 9 # 10)%Q) by (vm_compute; discriminate).
  assert (H6 : (double (6 # 10) <= 9 # 10)%Q) by (vm_compute; discriminate).
  destruct (textMatchScore_cases query txt) as [[_ H]|[_ [H|H]]]; lra.
Qed.

Lemma scored_intro (x : GlobalSearchResult) (query txt : jsstring) :
  r_similarityScore x = textMatchScore query txt ->
  r_relevanceLevel x = getRelevanceLevel (r_similarityScore x) ->
  Qltb 0 (textMatchScore query txt) = true -> scored x.
Proof.
  intros Hs Hl Hpos. apply Qltb_lt in Hpos. unfold scored. rewrite Hs.
  split; [|now rewrite <- Hs]. split; [exact Hpos|apply textMatchScore_le].
Qed.

Lemma projectResults_ok (query : jsstring) (filters : option SearchFilters)
    (p : Project) (x : GlobalSearchResult) :
  In x (projectResults query p) -> scored x /\ honoursFilters filters x.
Proof.
  unfold projectResults.
  destruct (truthyN (project_contextSummary p) || truthyN (project_thesis p));
    [|intros []].
  destruct (Qltb 0 _) eqn:E; [|intros []].
  intros [<-|[]]. split.
  - eapply scored_intro; [reflexivity|reflexivity|exact E].
  - repeat split; intros; discriminate.
Qed.

Lemma folderResults_ok (query : jsstring) (filters : option SearchFilters)
    (folder : Folder) (x : GlobalSearchResult) :
  In x (folderResults query filters folder) ->
  scored x /\ honoursFilters filters x.
Proof.
  unfold folderResults.
  destruct (notListed _ (folder_id folder)) eqn:En; [intros []|].
  destruct (Qltb 0 _) eqn:E; [|intros []].
  intros [<-|[]]. split.
  - eapply scored_intro; [reflexivity|reflexivity|exact E].
  - repeat split; simpl; intros; try discriminate.
    match goal with H : Some _ = Some _ |- _ => injection H as <- end.
    eapply notListed_false; eassumption.
Qed.

Lemma documentResults_ok (query : jsstring) (filters : option SearchFilters)
    (row : ProjectDocument * Document) (x : GlobalSearchResult) :
  In x (documentResults query filters row) ->
  scored x /\ honoursFilters filters x.
Proof.
  destruct row as [projectDoc doc]. unfold documentResults.
  destruct (notListed _ (pd_id projectDoc)) eqn:En; [intros []|].
  destruct (folderExcluded _ _) eqn:Ef; [intros []|].
  destruct (Qltb 0 _) eqn:E; [|intros []].
  intros [<-|[]]. split.
  - eapply scored_intro; [reflexivity|reflexivity|exact E].
  - repeat split; simpl; intros; try discriminate.
    + eapply folderExcluded_false; eassumption.
    + match goal with H : Some _ = Some _ |- _ => injection H as <- end.
      eapply notListed_false; eassumption.
Qed.

Lemma annotationResults_ok (query : jsstring) (filters : option SearchFilters)
    (row : ProjectAnnotation * ProjectDocument * Document)
    (x : GlobalSearchResult) :
  In x (annotationResults query filters row) ->
  scored x /\ honoursFilters filters x.
Proof.
  destruct row as [[ann projectDoc] doc]. unfold annotationResults.
  destruct (notListed _ (ann_category ann)) eqn:Ec; [intros []|].
  destruct (notListed _ (pd_id projectDoc)) eqn:En; [intros []|].
  destruct (folderExcluded _ _) eqn:Ef; [intros []|].
  destruct (Qltb 0 _) eqn:E; [|intros []].
  intros [<-|[]]. split.
  - eapply scored_intro; [reflexivity|reflexivity|exact E].
  - repeat split; simpl; intros.
    + eapply folderExcluded_false; eassumption.
    + match goal with H : Some _ = Some _ |- _ => injection H as <- end.
      eapply notListed_false; eassumption.
    + match goal with H : Some _ = Some _ |- _ => injection H as <- end.
      eapply notListed_false; eassumption.
Qed.

Lemma pooledResults_ok (db : Database) (p : Project)
    (projectId query : jsstring) (filters : option SearchFilters)
    (x : GlobalSearchResult) :
  In x (pooledResults db p projectId query filters) ->
  scored x /\ honoursFilters filters x.
Proof.
  unfold pooledResults. rewrite !in_app_iff, !in_flat_map.
  intros [H|[(y & _ & H)|[(y & _ & H)|(y & _ & H)]]].
  - eapply projectResults_ok; eassumption.
  - eapply folderResults_ok; eassumption.
  - eapply documentResults_ok; eassumption.
  - eapply annotationResults_ok; eassumption.
Qed.

Lemma slice_from_zero {A : Type} (l : list A) (b : Z) :
  exists k, slice l 0 b = firstn k l.
Proof.
  unfold slice. pose proof (len_nonneg l).
  rewrite (relIndex_nonneg _ 0) by lia. rewrite Z.min_l by lia.
  simpl skipn. eexists. reflexivity.
Qed.

Lemma In_slice_from_zero {A : Type} (l : list A) (b : Z) (x : A) :
  In x (slice l 0 b) -> In x l.
Proof.
  destruct (slice_from_zero l b) as [k ->]. intro H.
  rewrite <- (firstn_skipn k l). apply in_or_app. now left.
Qed.

(** Every result that [globalSearch] returns has a score above 0 and at most
    0.9, carries the relevance level of that score, and honours the filters:
    a folder id, a document id or a category that the result carries is on
    the list supplied for it. *)
Theorem globalSearch_results_honour_filters (db : Database)
    (projectId query : jsstring) (filters : option SearchFilters) (limit : Z)
    (x : GlobalSearchResult) :
  In x (results (globalSearch db projectId query filters limit)) ->
  scored x /\ honoursFilters filters x.
Proof.
  unfold globalSearch.
  destruct (filter _ (projects db)) as [|p l]; [intros []|].
  cbn [results]. intro H. apply In_slice_from_zero in H.
  apply (Permutation_in _ (sortDesc_perm _ _)) in H.
  eapply pooledResults_ok; eassumption.
Qed.

Lemma globalSearch_results_honour_filters_witness :
  scored notesRecord
  /\ honoursFilters (onlyFolder (str "f1"%string)) notesRecord.
Proof.
  apply (globalSearch_results_honour_filters sampleDatabase
           (str "p1"%string) (str "notes"%string)
           (onlyFolder (str "f1"%string)) defaultLimit).
  vm_compute. left. reflexivity.
Defined.

Lemma StronglySorted_app_inv {A : Type} (R : A -> A -> Prop) (l1 l2 : list A) :
  StronglySorted R (l1 ++ l2) ->
  StronglySorted R l1 /\ forall x y, In x l1 -> In y l2 -> R x y.
Proof.
  induction l1 as [|a l1 IH]; simpl; intro H.
  - split; [constructor|intros x y []].
  - inversion H as [|? ? Hs Hall]; subst. destruct (IH Hs) as [IH1 IH2].
    rewrite Forall_app in Hall. destruct Hall as [Ha1 Ha2]. split.
    + now constructor.
    + intros x y [<-|Hx] Hy.
      * rewrite Forall_forall in Ha2. now apply Ha2.
      * now apply IH2.
Qed.

(** [globalSearch] returns the best of the pool: the results are in
    descending score, no result left out scores above a result returned, the
    total is the size of the pool, and with a limit that is not negative the
    number of results returned is the smaller of the limit and the total. *)
Theorem globalSearch_top_of_pool (db : Database) (p : Project)
    (projectId query : jsstring) (filters : option SearchFilters) (limit : Z) :
  hd_error (filter (fun q => jsstring_eqb (project_id q) projectId)
                   (projects db)) = Some p ->
  let response := globalSearch db projectId query filters limit in
  let pool := pooledResults db p projectId query filters in
  totalResults response = len pool
  /\ StronglySorted (descending r_similarityScore) (results response)
  /\ (exists rest,
         Permutation (results response ++ rest) pool
         /\ forall x y, In x (results response) -> In y rest ->
                        (r_similarityScore y <= r_similarityScore x)%Q)
  /\ (0 <= limit ->
      len (results response) = Z.min limit (totalResults response)).
Proof.
  intros Hp response pool. unfold response, globalSearch.
  destruct (filter _ (projects db)) as [|p' l]; [discriminate|].
  injection Hp as ->. fold pool. cbn [results totalResults].
  set (sorted := sortDesc r_similarityScore pool).
  assert (Hsorted : StronglySorted (descending r_similarityScore) sorted)
    by apply sortDesc_sorted.
  destruct (slice_from_zero sorted limit) as [k Hk].
  rewrite <- (firstn_skipn k sorted) in Hsorted.
  apply StronglySorted_app_inv in Hsorted. destruct Hsorted as [Hs1 Hs2].
  split; [apply len_sortDesc|]. split; [now rewrite Hk|]. split.
  - exists (skipn k sorted). rewrite Hk, firstn_skipn.
    split; [apply sortDesc_perm|]. intros x y Hx Hy. now apply Hs2.
  - intro Hl. rewrite slice_prefix by exact Hl. unfold len.
    rewrite length_firstn. lia.
Qed.

Lemma globalSearch_top_of_pool_witness :
  totalResults (globalSearch sampleDatabase (str "p1"%string)
                  (str "notes"%string) None 0) = 1
  /\ len (results (globalSearch sampleDatabase (str "p1"%string)
                     (str "notes"%string) None 0)) = 0.
Proof.
  destruct (globalSearch_top_of_pool sampleDatabase sampleProject
              (str "p1"%string) (str "notes"%string) None 0 eq_refl)
    as (Htotal & _ & _ & Hlen).
  split; [rewrite Htotal; reflexivity|].
  rewrite Hlen by (vm_compute; discriminate). rewrite Htotal. reflexivity.
Defined.

Lemma insertDesc_filter {A : Type} (key : A -> Q) (v : Q) (x : A) (l : list A) :
  filter (fun y => Qeq_bool (key y) v) (insertDesc key x l)
  = filter (fun y => Qeq_bool (key y) v) (x :: l).
Proof.
  induction l as [|y l IH]; [reflexivity|].
  cbn [insertDesc]. destruct (Qltb (key x) (key y)) eqn:E; [|reflexivity].
  cbn [filter] in *. rewrite IH.
  destruct (Qeq_bool (key x) v) eqn:Ex; [|reflexivity].
  destruct (Qeq_bool (key y) v) eqn:Ey; [|reflexivity].
  apply Qeq_bool_iff in Ex, Ey. apply Qltb_lt in E.
  rewrite Ex, Ey in E. now apply Qlt_irrefl in E.
Qed.

(** The sort is stable: the elements of one score keep their order. *)
Lemma sortDesc_stable {A : Type} (key : A -> Q) (v : Q) (l : list A) :
  filter (fun y => Qeq_bool (key y) v) (sortDesc key l)
  = filter (fun y => Qeq_bool (key y) v) l.
Proof.
  induction l as [|x l IH]; [reflexivity|].
  cbn [sortDesc fold_right]. fold (sortDesc key l).
  rewrite insertDesc_filter. cbn [filter]. now rewrite IH.
Qed.

(** Results of equal score come in the order in which the search produced
    them: the project first, then the folders, the documents and the
    annotations, each in row order. *)
Theorem globalSearch_ties_keep_order (db : Database) (p : Project)
    (projectId query : jsstring) (filters : option SearchFilters) (limit : Z)
    (v : Q) :
  hd_error (filter (fun q => jsstring_eqb (project_id q) projectId)
                   (projects db)) = Some p ->
  totalResults (globalSearch db projectId query filters limit) <= limit ->
  filter (sameScore v)
         (results (globalSearch db projectId query filters limit))
  = filter (sameScore v) (pooledResults db p projectId query filters).
Proof.
  unfold globalSearch.
  destruct (filter _ (projects db)) as [|p' l]; [discriminate|].
  intros Hp. injection Hp as ->. cbn [results totalResults]. intro Hl.
  rewrite slice_all by exact Hl. apply sortDesc_stable.
Qed.

Lemma globalSearch_ties_keep_order_witness :
  map (fun x => (r_type x, r_folderId x))
      (filter (sameScore wholeMatchScore)
         (results (globalSearch tieDatabase (str "p1"%string)
                     (str "felines"%string) None defaultLimit)))
  = [(folder_context, None); (folder_context, Some (str "f1"%string));
     (document_context, None)].
Proof.
  rewrite (globalSearch_ties_keep_order tieDatabase thesisProject
             (str "p1"%string) (str "felines"%string) None defaultLimit
             wholeMatchScore eq_refl);
    [vm_compute; reflexivity | vm_compute; discriminate].
Defined.

(** ** The garbled-text detector: the test on the word length *)

Lemma closeRun_long (cur w : jsstring) : In w (closeRun cur) -> 3 <= len w.
Proof.
  unfold closeRun. destruct (len cur >=? 3) eqn:E; [|intros []].
  intros [<-|[]]. apply Z.geb_le in E. exact E.
Qed.

Lemma matchWordsAux_long (s cur w : jsstring) :
  In w (matchWordsAux s cur) -> 3 <= len w.
Proof.
  revert cur. induction s as [|c s IH]; intro cur; cbn [matchWordsAux].
  - apply closeRun_long.
  - destruct (isAlpha c); [apply IH|].
    rewrite in_app_iff. intros [H|H]; [eapply closeRun_long | eapply IH];
      eassumption.
Qed.

Lemma len_concat_long (ws : list jsstring) :
  (forall w, In w ws -> 3 <= len w) -> 3 * len ws <= len (concat ws).
Proof.
  induction ws as [|w ws IH]; intro H; [reflexivity|].
  cbn [concat]. rewrite len_app, len_cons.
  assert (3 <= len w) by (apply H; now left).
  assert (3 * len ws <= len (concat ws))
    by (apply IH; intros; apply H; now right).
  lia.
Qed.

Lemma ratio_ge_3 (a b : Z) : 0 < b -> 3 * b <= a -> (3 <= ratio a b)%Q.
Proof.
  intros Hb Ha. unfold ratio, Qdiv, Qle, Qmult, Qinv; simpl.
  destruct b as [|b|b]; try lia. simpl. nia.
Qed.

(** The third test of [isGarbledText] never decides: a match of
    [/[a-zA-Z]{3,}/g] has at least three letters, so the average word length
    is never below 3, and the result is that of the two tests on the word
    ratio and on the bracket ratio. *)
Theorem isGarbledText_word_length_test (txt : jsstring) :
  let sample := slice txt 0 2000 in
  let words := matchWords sample in
  let wordChars := len (concat words) in
  let totalChars := len (removeWhiteSpace sample) in
  let avgWordLen :=
    if len words >? 0 then ratio wordChars (len words) else 0%Q in
  (len words >? 10) && Qltb avgWordLen 3 = false
  /\ isGarbledText txt
     = negb (negb (truthy txt) || (len txt <? 100))
       && (Qltb (if totalChars >? 0 then ratio wordChars totalChars else 0%Q)
                (4 # 10)
           || Qltb (1 # 10)
                (if totalChars >? 0
                 then ratio (len (matchClass isBracket sample)) totalChars
                 else 0%Q)).
Proof.
  intros sample words wordChars totalChars avgWordLen.
  assert (Hdead : (len words >? 10) && Qltb avgWordLen 3 = false).
  { destruct (len words >? 10) eqn:E; [|reflexivity]. cbn [andb].
    assert (H10 : 10 < len words).
    { destruct (Z.gtb_spec (len words) 10); [lia|discriminate]. }
    apply Qltb_ge. unfold avgWordLen.
    replace (len words >? 0) with true
      by (symmetry; apply Z.gtb_lt; lia).
    apply ratio_ge_3; [lia|]. apply len_concat_long.
    intros w Hw. eapply matchWordsAux_long. exact Hw. }
  split; [exact Hdead|]. unfold isGarbledText.
  destruct (negb (truthy txt) || (len txt <? 100)); [reflexivity|].
  cbn [negb andb]. fold sample words wordChars totalChars avgWordLen.
  rewrite Hdead. now rewrite orb_false_r.
Qed.

(** ** The chunker: coverage, chunk sizes and sentence ends *)

Lemma dropWhile_nil_all {A : Type} (p : A -> bool) (l : list A) :
  dropWhile p l = [] -> Forall (fun x => p x = true) l.
Proof.
  induction l as [|a l IH]; simpl; intro H; [constructor|].
  destruct (p a) eqn:E; [|discriminate]. constructor; auto.
Qed.

Lemma dropWhile_head {A : Type} (p : A -> bool) (l : list A) (x : A)
    (r : list A) :
  dropWhile p l = x :: r -> p x = false.
Proof.
  induction l as [|a l IH]; simpl; intro H; [discriminate|].
  destruct (p a) eqn:E; [auto|]. now injection H as <- _.
Qed.

Lemma dropWhile_keeps {A : Type} (p : A -> bool) (l : list A) (x : A) :
  In x l -> p x = false -> dropWhile p l <> [].
Proof.
  induction l as [|a l IH]; simpl; intros Hin Hx; [destruct Hin|].
  destruct (p a) eqn:E; [|discriminate].
  destruct Hin as [->|Hin]; [congruence|auto].
Qed.

Lemma trim_blank (s : jsstring) :
  truthy (trim s) = false -> Forall (fun c => isWhiteSpace c = true) s.
Proof.
  unfold trim. intro H. apply dropWhile_nil_all.
  destruct (dropWhile isWhiteSpace s) as [|x r] eqn:E; [reflexivity|].
  exfalso. apply dropWhile_head in E.
  assert (Hne : dropWhile isWhiteSpace (rev (x :: r)) <> []).
  { apply (dropWhile_keeps _ _ x); [|exact E].
    apply in_rev. rewrite rev_involutive. now left. }
  destruct (dropWhile isWhiteSpace (rev (x :: r))) as [|y q] eqn:E2;
    [now apply Hne|].
  simpl in H. destruct (rev q ++ [y]) eqn:E3; [|discriminate].
  now apply app_eq_nil in E3.
Qed.

Lemma nth_error_slice {A : Type} (l : list A) (a b i : Z) :
  0 <= a -> a <= i -> i < b -> i < len l ->
  nth_error (slice l a b) (Z.to_nat (i - a)) = nth_error l (Z.to_nat i).
Proof.
  intros Ha Hai Hib Hil. rewrite slice_nonneg by lia.
  rewrite (Z.min_l a) by lia.
  rewrite nth_error_firstn.
  replace (Z.to_nat (i - a) <? Z.to_nat (Z.min b (len l) - a))%nat with true
    by (symmetry; apply Nat.ltb_lt; lia).
  rewrite nth_error_skipn. f_equal. lia.
Qed.

Lemma blank_slice (txt : jsstring) (a b i : Z) (ch : ascii) :
  truthy (trim (slice txt a b)) = false ->
  0 <= a -> a <= i -> i < b ->
  nth_error txt (Z.to_nat i) = Some ch -> isWhiteSpace ch = true.
Proof.
  intros Hblank Ha Hai Hib Hch.
  assert (Hil : i < len txt).
  { assert (H : nth_error txt (Z.to_nat i) <> None) by congruence.
    apply nth_error_Some in H. unfold len. lia. }
  apply trim_blank in Hblank. rewrite Forall_forall in Hblank.
  apply Hblank. eapply nth_error_In.
  rewrite (nth_error_slice txt a b i) by lia. exact Hch.
Qed.

(** The passes of the loop, when every pass moves the cursor forward: each
    chunk is the non-blank slice of a pass, and an offset at or after the
    cursor that holds a code unit other than white space lies inside a
    chunk. *)
Lemma chunkLoop_passes (txt : jsstring) (chunkSize overlap : Z)
    (fuel : nat) :
  0 <= overlap -> overlap + 49 <= chunkSize ->
  forall (start : Z) (acc : list TextChunkData),
    0 <= start -> Z.max 0 (len txt - start) < Z.of_nat fuel ->
    exists out,
      chunkLoop fuel txt chunkSize overlap start acc = Some (acc ++ out)
      /\ Forall (passChunk txt chunkSize) out
      /\ forall i ch,
           start <= i -> nth_error txt (Z.to_nat i) = Some ch ->
           isWhiteSpace ch = false -> covered out i.
Proof.
  intros Ho Hc.
  induction fuel as [|fuel IH]; intros start acc Hs Hf; [lia|].
  cbn [chunkLoop].
  destruct (start <? len txt) eqn:E.
  2:{ exists []. rewrite app_nil_r. split; [reflexivity|].
      split; [constructor|]. intros i ch Hi Hch _. exfalso.
      apply Z.ltb_ge in E.
      assert (H : nth_error txt (Z.to_nat i) <> None) by congruence.
      apply nth_error_Some in H. unfold len in E. lia. }
  apply Z.ltb_lt in E.
  destruct (chunkEnd_bounds txt chunkSize start Hs) as [Hb He]; [lia|].
  set (e := chunkEnd txt chunkSize start) in *.
  rewrite pushChunk_app.
  assert (Hpass : Forall (passChunk txt chunkSize) (pushChunk txt start e [])).
  { unfold pushChunk. destruct (truthy (trim (slice txt start e))) eqn:Et;
      constructor; [|constructor].
    exists start. repeat split; try lia. exact Et. }
  assert (Hhere : forall i ch,
             start <= i -> i < e ->
             nth_error txt (Z.to_nat i) = Some ch ->
             isWhiteSpace ch = false ->
             covered (pushChunk txt start e []) i).
  { intros i ch Hi Hie Hch Hws. unfold pushChunk.
    destruct (truthy (trim (slice txt start e))) eqn:Et.
    - eexists. split; [now left|]. simpl. lia.
    - rewrite (blank_slice txt start e i ch Et) in Hws by (lia || exact Hch).
      discriminate. }
  destruct (e - overlap >=? len txt - overlap) eqn:E2.
  - exists (pushChunk txt start e []). split; [reflexivity|].
    split; [exact Hpass|]. intros i ch Hi Hch Hws.
    apply (Hhere i ch Hi); [|exact Hch|exact Hws].
    assert (H : nth_error txt (Z.to_nat i) <> None) by congruence.
    apply nth_error_Some in H. apply Z.geb_le in E2. unfold len in E2. lia.
  - assert (E3 : e - overlap < len txt - overlap).
    { destruct (Z.geb_spec (e - overlap) (len txt - overlap));
        [discriminate|lia]. }
    destruct (IH (e - overlap) (acc ++ pushChunk txt start e [])) as
      (out & Hout & Hall & Hcov); [lia|lia|].
    exists (pushChunk txt start e [] ++ out). rewrite app_assoc.
    split; [exact Hout|]. split; [now apply Forall_app|].
    intros i ch Hi Hch Hws.
    destruct (Z.lt_ge_cases i e) as [Hlt|Hge].
    + destruct (Hhere i ch Hi Hlt Hch Hws) as (c & Hc1 & Hc2).
      exists c. split; [apply in_or_app; now left|exact Hc2].
    + destruct (Hcov i ch) as (c & Hc1 & Hc2); [lia|exact Hch|exact Hws|].
      exists c. split; [apply in_or_app; now right|exact Hc2].
Qed.

(** When [0 <= overlap] and [overlap + 49 <= chunkSize], no code unit other
    than white space is lost: its offset lies inside one of the chunks
    returned. *)
Theorem chunkText_covers_text (txt : jsstring) (chunkSize overlap : Z)
    (fuel : nat) :
  0 <= overlap -> overlap + 49 <= chunkSize ->
  (length txt < fuel)%nat ->
  exists cs,
    chunkText fuel txt chunkSize overlap = Some cs
    /\ forall (i : nat) (ch : ascii),
         nth_error txt i = Some ch -> isWhiteSpace ch = false ->
         covered cs (Z.of_nat i).
Proof.
  intros Ho Hc Hf. unfold chunkText.
  destruct (chunkLoop_passes txt chunkSize overlap fuel Ho Hc 0 [])
    as (out & H1 & _ & H3); [lia | unfold len; lia |].
  exists out. split; [exact H1|]. intros i ch Hch Hws.
  apply (H3 (Z.of_nat i) ch); [lia | now rewrite Nat2Z.id | exact Hws].
Qed.

Lemma chunkText_covers_text_witness :
  exists cs,
    chunkText 1301 sentencesText 500 50 = Some cs
    /\ covered cs 1298.
Proof.
  destruct (chunkText_covers_text sentencesText 500 50 1301)
    as (cs & Hrun & Hcov);
    [lia | lia | vm_compute; lia |].
  exists cs. split; [exact Hrun|].
  change 1298 with (Z.of_nat 1298).
  apply (Hcov 1298%nat "."%char); reflexivity.
Defined.

Lemma len_slice_le {A : Type} (l : list A) (a b : Z) :
  0 <= a -> a <= b -> len (slice l a b) <= b - a.
Proof.
  intros Ha Hab. rewrite slice_nonneg by lia. unfold len.
  rewrite length_firstn, length_skipn. lia.
Qed.

(** When [0 <= overlap] and [overlap + 49 <= chunkSize], every chunk
    returned is the slice of the text between its two offsets, is not blank,
    and spans at least [chunkSize - 48] and at most [chunkSize + 52] offsets;
    its text has at most [chunkSize + 52] code units. *)
Theorem chunkText_chunk_sizes (txt : jsstring) (chunkSize overlap : Z)
    (fuel : nat) :
  0 <= overlap -> overlap + 49 <= chunkSize ->
  (length txt < fuel)%nat ->
  exists cs,
    chunkText fuel txt chunkSize overlap = Some cs
    /\ Forall (fun c =>
                 text c = slice txt (startPosition c) (endPosition c)
                 /\ truthy (trim (text c)) = true
                 /\ chunkSize - 48 <= endPosition c - startPosition c
                                   <= chunkSize + 52
                 /\ 0 < len (text c) <= chunkSize + 52) cs.
Proof.
  intros Ho Hc Hf. unfold chunkText.
  destruct (chunkLoop_passes txt chunkSize overlap fuel Ho Hc 0 [])
    as (out & H1 & H2 & _); [lia | unfold len; lia |].
  exists out. split; [exact H1|].
  eapply Forall_impl; [|exact H2].
  intros c (start & Hs & -> & Ht). cbn [text startPosition endPosition] in *.
  destruct (chunkEnd_bounds txt chunkSize start) as [Hb _]; [lia|lia|].
  split; [reflexivity|]. split; [exact Ht|]. split; [lia|].
  pose proof (len_slice_le txt start (chunkEnd txt chunkSize start)) as Hle.
  split; [|lia].
  destruct (slice txt start (chunkEnd txt chunkSize start));
    [discriminate|]. rewrite len_cons. pose proof (len_nonneg l). lia.
Qed.

Lemma chunkText_chunk_sizes_witness :
  exists cs,
    chunkText 1301 sentencesText 500 50 = Some cs
    /\ Forall (fun c => 0 < len (text c) <= 552) cs.
Proof.
  destruct (chunkText_chunk_sizes sentencesText 500 50 1301)
    as (cs & Hrun & Hall);
    [lia | lia | vm_compute; lia |].
  exists cs. split; [exact Hrun|].
  eapply Forall_impl; [|exact Hall]. intros c (_ & _ & _ & H). exact H.
Defined.

Lemma scanEnder_hit (ender s : jsstring) (i t p : Z) :
  scanEnder ender s i t = Some p ->
  exists j : nat,
    p = i + Z.of_nat j + len ender /\ startsWith ender (skipn j s) = true.
Proof.
  revert i. induction s as [|c s IH]; intros i H; [discriminate|].
  cbn [scanEnder] in H.
  assert (Hrec : scanEnder ender s (i + 1) t = Some p ->
                 exists j : nat,
                   p = i + Z.of_nat j + len ender
                   /\ startsWith ender (skipn j (c :: s)) = true).
  { intro Hr. destruct (IH _ Hr) as (j & Hp & Hj).
    exists (S j). split; [lia|exact Hj]. }
  destruct (startsWith ender (c :: s)) eqn:Es; [|auto].
  destruct (i <=? t + 50); [|discriminate].
  destruct (i >=? t - 50); [|auto].
  injection H as <-. exists 0%nat. split; [lia|exact Es].
Qed.

Lemma bestPos_hit (s : jsstring) (t : Z) (enders : list jsstring) (best : Z) :
  let r := fold_left (fun bestPos ender =>
                        match scanEnder ender s 0 t with
                        | Some p => p
                        | None => bestPos
                        end) enders best in
  r = best \/ exists ender, In ender enders /\ scanEnder ender s 0 t = Some r.
Proof.
  revert best. induction enders as [|e l IH]; intro best; simpl; [now left|].
  destruct (IH (match scanEnder e s 0 t with Some p => p | None => best end))
    as [H|(ender & Hin & H)].
  - rewrite H. destruct (scanEnder e s 0 t) as [p|] eqn:E; [|now left].
    right. exists e. split; [now left|exact E].
  - right. exists ender. split; [now right|exact H].
Qed.

Lemma firstn_hit (ender s : jsstring) (j : nat) :
  ender <> [] -> startsWith ender (skipn j s) = true ->
  firstn (j + length ender) s = firstn j s ++ ender.
Proof.
  intros Hne H. apply startsWith_spec in H. destruct H as [post H].
  assert (Hj : (j <= length s)%nat).
  { destruct (Nat.le_gt_cases j (length s)) as [Hle|Hgt]; [exact Hle|].
    rewrite skipn_all2 in H by lia. destruct ender; [contradiction|].
    discriminate. }
  rewrite <- (firstn_skipn j s) at 1. rewrite H.
  rewrite firstn_app, length_firstn, Nat.min_l by exact Hj.
  rewrite firstn_all2 by (rewrite length_firstn; lia).
  replace (j + length ender - j)%nat with (length ender) by lia.
  now rewrite firstn_app, Nat.sub_diag, firstn_all, firstn_O, app_nil_r.
Qed.

Lemma sentenceEnders_two (ender : jsstring) :
  In ender sentenceEnders -> length ender = 2%nat.
Proof.
  unfold sentenceEnders. simpl.
  intros [<-|[<-|[<-|[<-|[<-|[<-|[]]]]]]]; reflexivity.
Qed.

(** A pass that does not keep the tentative end [start + chunkSize] ends
    its slice right after a sentence terminator followed by a space or a
    line feed. *)
Lemma chunkEnd_snapped (txt : jsstring) (chunkSize start : Z) :
  0 <= start -> 0 <= chunkSize ->
  chunkEnd txt chunkSize start <> start + chunkSize ->
  exists ender,
    In ender sentenceEnders
    /\ endsWithSuffix (slice txt start (chunkEnd txt chunkSize start)) ender.
Proof.
  intros Hs Hc. unfold chunkEnd.
  destruct (start + chunkSize <? len txt) eqn:E; [|congruence].
  apply Z.ltb_lt in E.
  set (m := Z.min (start + chunkSize + 100) (len txt)).
  set (sl := slice txt start m).
  destruct (findSentenceEnd sl chunkSize >? 0) eqn:E2; [|congruence].
  intros _.
  assert (Hpos : 0 < findSentenceEnd sl chunkSize).
  { destruct (Z.gtb_spec (findSentenceEnd sl chunkSize) 0);
      [lia|discriminate]. }
  destruct (bestPos_hit sl chunkSize sentenceEnders (-1))
    as [H|(ender & Hin & H)].
  { unfold findSentenceEnd in Hpos. rewrite H in Hpos. lia. }
  fold (findSentenceEnd sl chunkSize) in H.
  exists ender. split; [exact Hin|].
  pose proof (sentenceEnders_two ender Hin) as H2.
  pose proof (scanEnder_bounds _ _ _ _ _ H) as [_ Hle].
  apply scanEnder_hit in H. destruct H as (j & Hp & Hj).
  rewrite Hp in *. unfold len in Hp, Hle |- *. rewrite H2 in *.
  assert (Hsl : sl = firstn (Z.to_nat (m - start))
                       (skipn (Z.to_nat start) txt)).
  { unfold sl. rewrite slice_nonneg by (unfold m; lia).
    fold (len txt). rewrite (Z.min_l start) by lia.
    now rewrite (Z.min_l m) by (unfold m; lia). }
  assert (Hlen : Z.of_nat (length sl) = m - start).
  { unfold sl. apply (len_slice txt start m); unfold m; lia. }
  exists (firstn j sl).
  assert (Hne : ender <> []) by (intros ->; discriminate).
  rewrite <- (firstn_hit ender sl j Hne Hj).
  rewrite H2. rewrite slice_nonneg by lia. fold (len txt).
  rewrite (Z.min_l start) by lia.
  rewrite (Z.min_l (start + _)) by (unfold m in Hlen; lia).
  rewrite Hsl, firstn_firstn. f_equal. lia.
Qed.

(** When [0 <= overlap] and [overlap + 49 <= chunkSize], a chunk either has
    the tentative end [startPosition + chunkSize], or ends inside the text
    right after one of the six sentence enders. *)
Theorem chunkText_ends_at_sentence (txt : jsstring) (chunkSize overlap : Z)
    (fuel : nat) :
  0 <= overlap -> overlap + 49 <= chunkSize ->
  (length txt < fuel)%nat ->
  exists cs,
    chunkText fuel txt chunkSize overlap = Some cs
    /\ Forall (fun c =>
                 endPosition c = startPosition c + chunkSize
                 \/ (endPosition c <= len txt
                     /\ exists ender,
                          In ender sentenceEnders
                          /\ endsWithSuffix (text c) ender)) cs.
Proof.
  intros Ho Hc Hf. unfold chunkText.
  destruct (chunkLoop_passes txt chunkSize overlap fuel Ho Hc 0 [])
    as (out & H1 & H2 & _); [lia | unfold len; lia |].
  exists out. split; [exact H1|].
  eapply Forall_impl; [|exact H2].
  intros c (start & Hs & -> & _). cbn [text startPosition endPosition].
  destruct (Z.eq_dec (chunkEnd txt chunkSize start) (start + chunkSize))
    as [Heq|Hne]; [now left|right].
  destruct (chunkEnd_bounds txt chunkSize start) as [_ [Hle|Heq]];
    [lia | lia | | contradiction].
  split; [exact Hle|]. apply chunkEnd_snapped; [lia|lia|exact Hne].
Qed.

Lemma chunkText_ends_at_sentence_witness :
  exists cs,
    chunkText 1301 sentencesText 500 50 = Some cs
    /\ Forall (fun c =>
                 endPosition c = startPosition c + 500
                 \/ (endPosition c <= len sentencesText
                     /\ exists ender,
                          In ender sentenceEnders
                          /\ endsWithSuffix (text c) ender)) cs.
Proof.
  apply (chunkText_ends_at_sentence sentencesText 500 50 1301);
    [lia | lia | vm_compute; lia].
Defined.

(** ** Search within one document: outcomes and the chunks ranked *)

Section SearchOutcomes.

Context {openai : OpenAI}.

Lemma rankedFor_nil (query : jsstring) (docChunks : list Chunk) :
  rankedFor query docChunks = []
  <-> Forall (fun c => chunk_embedding c = None) docChunks.
Proof.
  unfold rankedFor. rewrite slice_prefix by lia.
  set (pool := flat_map (rankable (embeddingOf query)) docChunks).
  assert (Hpool : pool = []
                  <-> Forall (fun c => chunk_embedding c = None) docChunks).
  { unfold pool. induction docChunks as [|c l IH]; [split; constructor|].
    cbn [flat_map]. unfold rankable at 1.
    destruct (chunk_embedding c) eqn:E.
    - split; [discriminate|]. intro H. inversion H; subst. congruence.
    - cbn [app]. rewrite IH. split; [now constructor|].
      intro H. now inversion H. }
  rewrite <- Hpool. pose proof (len_sortDesc rc_similarity pool) as Hlen.
  destruct (sortDesc rc_similarity pool) as [|x sorted];
    destruct pool as [|y pool']; unfold len in Hlen; simpl in Hlen;
    try lia; split; try reflexivity; discriminate.
Qed.

(** For a project document that is found: [searchProjectDocument] throws
    [Document not found] when its document is missing; it returns the empty
    list without calling the provider when the document has no chunks, and
    after the single call for the query when none of its chunks has a
    vector.  As soon as one chunk has a vector, it returns what the quote
    finder makes of the ranked chunks, of which there is at least one; the
    research context handed over is the thesis of the project when there is
    one, and otherwise the intent of the document or the empty text.  The
    store is left as it was in each case. *)
Theorem searchProjectDocument_outcomes (w : World)
    (projectDocId query : jsstring) (projectDoc : ProjectDocument) :
  hd_error (filter (fun pd => jsstring_eqb (pd_id pd) projectDocId)
                   (projectDocuments (world_db w))) = Some projectDoc ->
  let docs := filter (fun d => jsstring_eqb (doc_id d)
                                 (pd_documentId projectDoc))
                     (documents (world_db w)) in
  let project :=
    hd_error (filter (fun p => jsstring_eqb (project_id p)
                                 (pd_projectId projectDoc))
                     (projects (world_db w))) in
  (docs = [] ->
   searchProjectDocument projectDocId query w
   = (Thrown (str "Document not found"%string), w))
  /\ (forall doc, hd_error docs = Some doc ->
        let docChunks := chunksOf (world_db w) (doc_id doc) in
        (docChunks = [] ->
         searchProjectDocument projectDocId query w = (Returned [], w))
        /\ (docChunks <> [] ->
            Forall (fun c => chunk_embedding c = None) docChunks ->
            searchProjectDocument projectDocId query w
            = (Returned [],
               mkWorld (world_db w)
                 (world_trace w ++ [EvGetEmbedding query])))
        /\ (forall c v, In c docChunks -> chunk_embedding c = Some v ->
            exists researchContext,
              searchProjectDocument projectDocId query w
              = (Returned (quotesOf query researchContext
                             (rankedFor query docChunks)),
                 mkWorld (world_db w)
                   (world_trace w
                    ++ [EvGetEmbedding query;
                        EvSearchDocument query researchContext]))
              /\ rankedFor query docChunks <> []
              /\ (forall p t, project = Some p ->
                              project_thesis p = Some t -> truthy t = true ->
                              researchContext = t)
              /\ ((forall p, project = Some p ->
                             truthyN (project_thesis p) = false) ->
                  researchContext = orElse (doc_userIntent doc) []))).
Proof.
  intros Hpd docs project.
  assert (Hlen : forall A (l : list A), (len l =? 0) = true <-> l = []).
  { intros A l. rewrite Z.eqb_eq. apply len_nil_iff. }
  assert (Hrun : searchProjectDocument projectDocId query w
                 = match docs with
                   | [] => (Thrown (str "Document not found"%string), w)
                   | doc :: _ =>
                       let docChunks := chunksOf (world_db w) (doc_id doc) in
                       if len docChunks =? 0 then (Returned [], w)
                       else if len (rankedFor query docChunks) =? 0
                       then (Returned [],
                             mkWorld (world_db w)
                               (world_trace w ++ [EvGetEmbedding query]))
                       else
                         searchDocument query
                           (orElse
                              match project with
                              | Some p => project_thesis p
                              | None => None
                              end
                              (orElse (doc_userIntent doc) []))
                           (rankedFor query docChunks)
                           (mkWorld (world_db w)
                              (world_trace w ++ [EvGetEmbedding query]))
                   end).
  { unfold searchProjectDocument, bind at 1, readDb.
    destruct (filter _ (projectDocuments (world_db w))) as [|pd ?];
      [discriminate|].
    injection Hpd as ->. fold docs. destruct docs as [|doc ?]; [reflexivity|].
    unfold getChunksForDocument, bind at 1, bind at 1, readDb, ret at 1.
    fold (chunksOf (world_db w) (doc_id doc)). cbn zeta.
    destruct (len (chunksOf (world_db w) (doc_id doc)) =? 0);
      [reflexivity|].
    unfold bind at 1, getEmbedding, bind at 1, emit, ret at 1.
    fold (rankedFor query (chunksOf (world_db w) (doc_id doc))).
    destruct (len _ =? 0); reflexivity. }
  rewrite Hrun. split.
  - now intros ->.
  - intros doc Hdoc docChunks.
    destruct docs as [|doc' ?]; [discriminate|]. injection Hdoc as ->.
    cbn zeta. fold docChunks. split; [|split].
    + intros ->. reflexivity.
    + intros Hne Hr. apply rankedFor_nil with (query := query) in Hr.
      destruct (len docChunks =? 0) eqn:E; [apply Hlen in E; contradiction|].
      now rewrite Hr.
    + intros c v Hc Hv.
      assert (Hne : docChunks <> [])
        by (intros E; rewrite E in Hc; destruct Hc).
      assert (Hr : rankedFor query docChunks <> []).
      { intro E. apply rankedFor_nil in E. rewrite Forall_forall in E.
        specialize (E c Hc). congruence. }
      destruct (len docChunks =? 0) eqn:E; [apply Hlen in E; contradiction|].
      destruct (len (rankedFor query docChunks) =? 0) eqn:E2;
        [apply Hlen in E2; contradiction|].
      unfold searchDocument, bind, emit, ret. cbn [world_db world_trace].
      eexists. rewrite <- app_assoc. split; [reflexivity|].
      split; [exact Hr|]. split.
      * intros p t -> Ht Htruthy. unfold orElse at 1. now rewrite Ht, Htruthy.
      * intro Hnone. destruct project as [p|]; [|reflexivity].
        specialize (Hnone p eq_refl). unfold truthyN in Hnone.
        unfold orElse at 1.
        destruct (project_thesis p) as [t|]; [|reflexivity]. now rewrite Hnone.
Qed.

Lemma In_rankable (query : jsstring) (docChunks : list Chunk)
    (rc : RankedChunk) :
  In rc (flat_map (rankable (embeddingOf query)) docChunks) ->
  fromEmbeddedChunk query docChunks rc.
Proof.
  rewrite in_flat_map. intros (c & Hc & H). unfold rankable in H.
  destruct (chunk_embedding c) as [v|] eqn:E; [|destruct H].
  destruct H as [<-|[]]. now exists c, v.
Qed.

(** The quote finder receives at most five chunks, in descending
    similarity, each made from a chunk of the document that has a vector;
    no chunk left out has a higher similarity than one handed over. *)
Theorem rankedFor_top_five (query : jsstring) (docChunks : list Chunk) :
  len (rankedFor query docChunks) <= 5
  /\ StronglySorted (descending rc_similarity) (rankedFor query docChunks)
  /\ Forall (fromEmbeddedChunk query docChunks) (rankedFor query docChunks)
  /\ exists rest,
       Permutation (rankedFor query docChunks ++ rest)
                   (flat_map (rankable (embeddingOf query)) docChunks)
       /\ forall x y, In x (rankedFor query docChunks) -> In y rest ->
                      (rc_similarity y <= rc_similarity x)%Q.
Proof.
  unfold rankedFor.
  set (pool := flat_map (rankable (embeddingOf query)) docChunks).
  set (sorted := sortDesc rc_similarity pool).
  assert (Hsorted : StronglySorted (descending rc_similarity) sorted)
    by apply sortDesc_sorted.
  rewrite slice_prefix by lia. change (Z.to_nat 5) with 5%nat.
  rewrite <- (firstn_skipn 5 sorted) in Hsorted.
  apply StronglySorted_app_inv in Hsorted. destruct Hsorted as [Hs1 Hs2].
  split; [unfold len; rewrite length_firstn; lia|].
  split; [exact Hs1|]. split.
  - apply Forall_forall. intros rc Hrc. apply In_rankable.
    apply (Permutation_in _ (sortDesc_perm rc_similarity pool)).
    fold sorted. rewrite <- (firstn_skipn 5 sorted).
    apply in_or_app. now left.
  - exists (skipn 5 sorted). rewrite firstn_skipn.
    split; [apply sortDesc_perm|]. intros x y Hx Hy. now apply Hs2.
Qed.

End SearchOutcomes.

(** The project has a thesis and the chunk of its document has a vector:
    the chunk is ranked and handed to the quote finder with the thesis. *)
Lemma searchProjectDocument_outcomes_witness :
  searchProjectDocument (openai := sampleOpenAI) (str "pd1"%string)
    (str "cats"%string) (mkWorld embeddedDatabase [])
  = (Returned [mkRankedChunk (str "cats purr"%string) 0 9 (36 # 100)],
     mkWorld embeddedDatabase
       [EvGetEmbedding (str "cats"%string);
        EvSearchDocument (str "cats"%string)
          (str "Felines and their owners"%string)]).
Proof.
  destruct (proj2 (proj2 (proj2 (searchProjectDocument_outcomes
                     (openai := sampleOpenAI) (mkWorld embeddedDatabase [])
                     (str "pd1"%string) (str "cats"%string)
                     sampleProjectDocument eq_refl)
                  sampleDocument eq_refl))
              embeddedChunk [9 # 10] (or_introl eq_refl) eq_refl)
    as (researchContext & Hrun & _ & Hthesis & _).
  rewrite Hrun.
  rewrite (Hthesis thesisProject (str "Felines and their owners"%string)
             eq_refl eq_refl eq_refl).
  reflexivity.
Defined.

(** ** The set-intent route: a second run, and the levels compared *)

Section SetIntentAgain.

Context {openai : OpenAI}.

Lemma jsstring_eqb_refl (a : jsstring) : jsstring_eqb a a = true.
Proof. now apply jsstring_eqb_eq. Qed.

Lemma fold_persist_evolve (cs stored : list Chunk) :
  fold_left persist cs stored = map (evolve cs) stored.
Proof.
  revert stored. induction cs as [|c cs IH]; intro stored.
  - simpl. unfold evolve. simpl. now rewrite map_id.
  - cbn [fold_left]. rewrite IH. unfold persist, evolve. cbn [fold_left].
    destruct (chunk_embedding c); [reflexivity|]. now rewrite map_map.
Qed.

Lemma evolve_documentId (cs : list Chunk) (s : Chunk) :
  chunk_documentId (evolve cs s) = chunk_documentId s.
Proof.
  unfold evolve. revert s. induction cs as [|c cs IH]; intro s;
    [reflexivity|].
  cbn [fold_left]. rewrite IH.
  destruct (chunk_embedding c); [reflexivity|].
  now destruct (jsstring_eqb (chunk_id s) (chunk_id c)).
Qed.

Lemma evolve_embedded (cs : list Chunk) (s0 s : Chunk) :
  In s cs -> chunk_id s0 = chunk_id s ->
  (lacksEmbedding s = false -> lacksEmbedding s0 = false) ->
  lacksEmbedding (evolve cs s0) = false.
Proof.
  unfold evolve. revert s0.
  induction cs as [|c cs IH]; intros s0 Hin Hid Hkeep; [destruct Hin|].
  cbn [fold_left].
  assert (Hstay : forall t, lacksEmbedding t = false ->
             lacksEmbedding
               (fold_left
                  (fun s c =>
                     match chunk_embedding c with
                     | None =>
                         if jsstring_eqb (chunk_id s) (chunk_id c)
                         then setEmbedding s (embeddingOf (chunk_text c))
                         else s
                     | Some _ => s
                     end) cs t) = false).
  { clear. induction cs as [|c cs IH]; intros t Ht; [exact Ht|].
    cbn [fold_left]. apply IH. destruct (chunk_embedding c); [exact Ht|].
    now destruct (jsstring_eqb (chunk_id t) (chunk_id c)). }
  destruct Hin as [->|Hin].
  - apply Hstay. unfold lacksEmbedding in Hkeep.
    destruct (chunk_embedding s) eqn:E; [now apply Hkeep|].
    now rewrite Hid, jsstring_eqb_refl.
  - apply (IH _ Hin).
    + destruct (chunk_embedding c); [exact Hid|].
      now destruct (jsstring_eqb (chunk_id s0) (chunk_id c)).
    + intro H. specialize (Hkeep H).
      destruct (chunk_embedding c); [exact Hkeep|].
      now destruct (jsstring_eqb (chunk_id s0) (chunk_id c)).
Qed.

Lemma evolve_stays (cs : list Chunk) (t : Chunk) :
  lacksEmbedding t = false -> lacksEmbedding (evolve cs t) = false.
Proof.
  unfold evolve. revert t. induction cs as [|c cs IH]; intros t Ht;
    [exact Ht|].
  cbn [fold_left]. apply IH. destruct (chunk_embedding c); [exact Ht|].
  now destruct (jsstring_eqb (chunk_id t) (chunk_id c)).
Qed.

Lemma chunksOf_after_fill (db : Database) (documentId : jsstring) :
  Forall (fun c => lacksEmbedding c = false)
    (chunksOf
       (withChunks db
          (fold_left persist
             (answered (filter lacksEmbedding (chunksOf db documentId)))
             (chunks db)))
       documentId).
Proof.
  unfold chunksOf at 1. destruct db as [ps fs pds ds anns cs].
  cbn [withChunks chunks]. rewrite fold_persist_evolve.
  apply Forall_forall. intros c Hc. apply filter_In in Hc.
  destruct Hc as [Hc Hdoc]. apply in_map_iff in Hc.
  destruct Hc as (s & <- & Hs). rewrite evolve_documentId in Hdoc.
  destruct (lacksEmbedding s) eqn:Hlacks; [|now apply evolve_stays].
  apply (evolve_embedded _ s s); [|reflexivity|auto].
  apply (Permutation_in s (Permutation_sym (answered_all _))).
  apply filter_In. split; [|exact Hlacks].
  unfold chunksOf. cbn [chunks]. apply filter_In. now split.
Qed.

Lemma fill_embedded (cs stored : list Chunk) :
  Forall (fun c => lacksEmbedding c = false) cs ->
  fillTrace cs = []
  /\ fold_left persist (answered (filter lacksEmbedding cs)) stored = stored.
Proof.
  intro Hall.
  assert (Hnone : filter lacksEmbedding cs = []).
  { apply filter_nil_of. intros c Hc. rewrite Forall_forall in Hall.
    now apply Hall. }
  assert (Hans : answered (filter lacksEmbedding cs) = []).
  { rewrite Hnone. apply Permutation_nil, Permutation_sym, answered_all. }
  unfold fillTrace. rewrite Hans, Hnone. now split.
Qed.

(** After [setIntentTopChunks], the part of the set-intent route from
    reading the chunks to the selection, has run on a document, running it
    again, for any intent and level, makes the single provider call for the
    intent and none for a chunk, and stores no vector. *)
Theorem setIntent_again (w : World) (documentId intent intent' : jsstring)
    (thoroughness thoroughness' : BodyValue) :
  chunksOf (world_db w) documentId <> [] ->
  exists r w' r',
    setIntentTopChunks documentId intent thoroughness w = (Returned r, w')
    /\ setIntentTopChunks documentId intent' thoroughness' w'
       = (Returned r',
          mkWorld (world_db w') (world_trace w' ++ [EvGetEmbedding intent'])).
Proof.
  intro Hne. pose proof (setIntentTopChunks_run documentId intent
                           thoroughness w Hne) as H1.
  cbv zeta in H1. fold (chunksOf (world_db w) documentId) in H1.
  set (cs := chunksOf (world_db w) documentId) in *.
  eexists _, _, _. split; [exact H1|].
  set (db' := withChunks (world_db w)
                (fold_left persist (answered (filter lacksEmbedding cs))
                   (chunks (world_db w)))).
  set (w' := mkWorld db' _).
  assert (Hall : Forall (fun c => lacksEmbedding c = false)
                   (chunksOf db' documentId))
    by apply chunksOf_after_fill.
  assert (Hne' : chunksOf db' documentId <> []).
  { unfold db', chunksOf. destruct (world_db w) as [ps fs pds ds anns stored].
    cbn [withChunks chunks]. rewrite fold_persist_evolve.
    unfold cs, chunksOf in Hne. cbn [chunks] in Hne.
    revert Hne. generalize (answered (filter lacksEmbedding cs)). clear.
    intros cs.
    induction stored as [|s stored IH]; [intro Hne; now contradiction Hne|].
    cbn [map filter]. rewrite evolve_documentId.
    destruct (jsstring_eqb (chunk_documentId s) documentId);
      [discriminate|exact IH]. }
  pose proof (setIntentTopChunks_run documentId intent' thoroughness' w')
    as H2.
  cbv zeta in H2. cbn [world_db w'] in H2.
  fold (chunksOf db' documentId) in H2. specialize (H2 Hne').
  destruct (fill_embedded (chunksOf db' documentId) (chunks db') Hall)
    as [He Hp].
  rewrite He, Hp, withChunks_same in H2. exact H2.
Qed.

End SetIntentAgain.

Lemma setIntent_again_witness :
  exists r w' r',
    setIntentTopChunks (openai := sampleOpenAI) (str "doc1"%string)
      (str "cats"%string) Absent (mkWorld sampleDatabase [])
    = (Returned r, w')
    /\ setIntentTopChunks (openai := sampleOpenAI) (str "doc1"%string)
         (str "dogs"%string) (StringValue (str "quick"%string)) w'
       = (Returned r',
          mkWorld (world_db w')
            (world_trace w' ++ [EvGetEmbedding (str "dogs"%string)])).
Proof.
  apply (setIntent_again (openai := sampleOpenAI)).
  vm_compute. discriminate.
Defined.

Section LevelsCompared.

Context {openai : OpenAI}.

Lemma StronglySorted_filter {A : Type} (R : A -> A -> Prop) (f : A -> bool)
    (l : list A) :
  StronglySorted R l -> StronglySorted R (filter f l).
Proof.
  induction 1 as [|x l Hs IH Hall]; simpl; [constructor|].
  destruct (f x); [|exact IH]. constructor; [exact IH|].
  apply Forall_forall. intros y Hy. apply filter_In in Hy.
  rewrite Forall_forall in Hall. now apply Hall.
Qed.

Lemma firstn_prefix {A : Type} (n m : nat) (l rest : list A) :
  (n <= m)%nat -> exists rest', firstn m (l ++ rest) = firstn n l ++ rest'.
Proof.
  intro Hnm. rewrite firstn_app.
  rewrite <- (firstn_skipn n (firstn m l)).
  rewrite firstn_firstn, Nat.min_l by exact Hnm.
  rewrite <- app_assoc. eexists. reflexivity.
Qed.

(** The ranking of the set-intent route is a rearrangement of the filled
    chunks in descending similarity: no chunk is lost or doubled. *)
Theorem rankChunks_ranking (intentEmbedding : Vector)
    (chunksWithEmbeddings : list (Chunk * Vector)) :
  Permutation
    (rankChunks intentEmbedding chunksWithEmbeddings)
    (map (fun cv => (fst cv, cosineSimilarity (snd cv) intentEmbedding))
         chunksWithEmbeddings)
  /\ StronglySorted (descending similarity)
       (rankChunks intentEmbedding chunksWithEmbeddings)
  /\ len (rankChunks intentEmbedding chunksWithEmbeddings)
     = len chunksWithEmbeddings.
Proof.
  unfold rankChunks. split; [apply sortDesc_perm|].
  split; [apply sortDesc_sorted|].
  rewrite len_sortDesc. unfold len. now rewrite length_map.
Qed.

(** On a ranking in descending similarity, a level whose chunk limit does
    not exceed that of [exhaustive] selects a leading part of what
    [exhaustive] selects: [exhaustive] never returns fewer candidates. *)
Theorem exhaustive_selects_more (level : ThoroughnessLevel)
    (ranked : list Candidate) :
  StronglySorted (descending similarity) ranked ->
  0 <= getMaxChunksForLevel level <= getMaxChunksForLevel exhaustive ->
  exists rest,
    selectCandidates exhaustive ranked
    = selectCandidates level ranked ++ rest.
Proof.
  intros Hsorted Hmax. unfold selectCandidates.
  rewrite !slice_prefix by lia.
  set (keptE := filter (fun c => Qle_bool (minSimilarityOf exhaustive)
                                          (similarity c)) ranked).
  set (keptL := filter (fun c => Qle_bool (minSimilarityOf level)
                                          (similarity c)) ranked).
  assert (Hsub : keptL
                 = filter (fun c => Qle_bool (minSimilarityOf level)
                                             (similarity c)) keptE).
  { unfold keptL, keptE. clear. induction ranked as [|c l IH]; [reflexivity|].
    cbn [filter].
    destruct (Qle_bool (minSimilarityOf level) (similarity c)) eqn:E1.
    - assert (E2 : Qle_bool (minSimilarityOf exhaustive) (similarity c)
                   = true).
      { apply Qle_bool_iff in E1. apply Qle_bool_iff.
        eapply Qle_trans; [|exact E1]. now destruct level. }
      rewrite E2. cbn [filter]. now rewrite E1, IH.
    - destruct (Qle_bool (minSimilarityOf exhaustive) (similarity c));
        [cbn [filter]; now rewrite E1|exact IH]. }
  assert (HsortedE : StronglySorted (descending similarity) keptE)
    by (apply StronglySorted_filter; exact Hsorted).
  destruct (filter_descending_prefix similarity (minSimilarityOf level)
              keptE HsortedE) as [rest Hrest].
  rewrite <- Hsub in Hrest. rewrite Hrest.
  apply firstn_prefix. lia.
Qed.

End LevelsCompared.

Lemma exhaustive_selects_more_witness :
  exists rest,
    selectCandidates (openai := sampleOpenAI) exhaustive
      [(sampleChunk, 9 # 10); (sampleChunk, 5 # 10); (sampleChunk, 2 # 10)]
    = selectCandidates (openai := sampleOpenAI) standard
        [(sampleChunk, 9 # 10); (sampleChunk, 5 # 10); (sampleChunk, 2 # 10)]
      ++ rest.
Proof.
  apply (exhaustive_selects_more (openai := sampleOpenAI)).
  - repeat constructor; unfold descending; simpl; discriminate.
  - simpl. lia.
Defined.

(** ** Text files: the normal form of [extractTextFromTxt] *)

Lemma ascii_eqb_refl (c : ascii) : ascii_eqb c c = true.
Proof. now apply ascii_eqb_eq. Qed.

Lemma ascii_eqb_neq (a b : ascii) : a <> b -> ascii_eqb a b = false.
Proof.
  intro H. destruct (ascii_eqb a b) eqn:E; [|reflexivity].
  apply ascii_eqb_eq in E. contradiction.
Qed.

Lemma dropWhile_decompose {A : Type} (p : A -> bool) (l : list A) :
  exists pre, l = pre ++ dropWhile p l.
Proof.
  induction l as [|a l [pre IH]]; simpl; [now exists []|].
  destruct (p a); [|now exists []].
  exists (a :: pre). simpl. now rewrite <- IH.
Qed.

Lemma dropWhile_idem {A : Type} (p : A -> bool) (l : list A) :
  dropWhile p (dropWhile p l) = dropWhile p l.
Proof.
  induction l as [|a l IH]; simpl; [reflexivity|].
  destruct (p a) eqn:E; [exact IH|]. simpl. now rewrite E.
Qed.

Lemma trim_decompose (s : jsstring) :
  exists pre post, s = pre ++ trim s ++ post.
Proof.
  unfold trim. destruct (dropWhile_decompose isWhiteSpace s) as [pre Hs].
  destruct (dropWhile_decompose isWhiteSpace
              (rev (dropWhile isWhiteSpace s))) as [pre2 Hr].
  exists pre, (rev pre2). rewrite Hs at 1. f_equal.
  rewrite <- rev_app_distr, <- Hr. now rewrite rev_involutive.
Qed.

Lemma trim_fixed (t : jsstring) :
  dropWhile isWhiteSpace t = t ->
  dropWhile isWhiteSpace (rev t) = rev t -> trim t = t.
Proof.
  intros H1 H2. unfold trim. now rewrite H1, H2, rev_involutive.
Qed.

Lemma trim_ends (s : jsstring) :
  dropWhile isWhiteSpace (trim s) = trim s
  /\ dropWhile isWhiteSpace (rev (trim s)) = rev (trim s).
Proof.
  split.
  - destruct (trim s) as [|a t] eqn:Et; [reflexivity|].
    unfold trim in Et.
    destruct (dropWhile_decompose isWhiteSpace
                (rev (dropWhile isWhiteSpace s))) as [pre2 Hr].
    apply (f_equal (@rev ascii)) in Hr.
    rewrite rev_involutive, rev_app_distr, Et in Hr.
    simpl in Hr. apply dropWhile_head in Hr. simpl. now rewrite Hr.
  - unfold trim. rewrite rev_involutive. apply dropWhile_idem.
Qed.

Lemma trim_idem (s : jsstring) : trim (trim s) = trim s.
Proof. destruct (trim_ends s). now apply trim_fixed. Qed.

Lemma hasDoubleSpace_app_inv (pre s : jsstring) :
  hasDoubleSpace (pre ++ s) = false -> hasDoubleSpace s = false.
Proof.
  induction pre as [|a pre IH]; [auto|].
  intro H. apply IH. cbn [app hasDoubleSpace] in H.
  destruct (pre ++ s); [reflexivity|].
  now apply orb_false_iff in H.
Qed.

Lemma hasDoubleSpace_prefix (s post : jsstring) :
  hasDoubleSpace (s ++ post) = false -> hasDoubleSpace s = false.
Proof.
  induction s as [|a s IH]; [reflexivity|].
  cbn [app hasDoubleSpace]. destruct s as [|b s]; [reflexivity|].
  cbn [app]. intro H. apply orb_false_iff in H. destruct H as [H1 H2].
  rewrite H1. cbn [orb]. apply IH. exact H2.
Qed.

Lemma collapseSpaces_single (s : jsstring) :
  hasDoubleSpace (collapseSpaces s false) = false
  /\ hasDoubleSpace (SPACE :: collapseSpaces s true) = false.
Proof.
  induction s as [|c s [IH1 IH2]]; [now split|].
  cbn [collapseSpaces]. destruct (ascii_eqb c SPACE) eqn:E.
  - split; exact IH2.
  - assert (Hc : hasDoubleSpace (c :: collapseSpaces s false) = false).
    { cbn [hasDoubleSpace]. destruct (collapseSpaces s false) eqn:E2;
        [reflexivity|]. rewrite E. exact IH1. }
    split; [exact Hc|].
    change (hasDoubleSpace (SPACE :: c :: collapseSpaces s false))
      with (ascii_eqb SPACE SPACE && ascii_eqb c SPACE
            || hasDoubleSpace (c :: collapseSpaces s false)).
    rewrite E, andb_false_r. exact Hc.
Qed.

Lemma collapseSpaces_In (s : jsstring) (b : bool) (c : ascii) :
  In c (collapseSpaces s b) -> In c s.
Proof.
  revert b. induction s as [|a s IH]; intro b; [auto|].
  cbn [collapseSpaces]. destruct (ascii_eqb a SPACE) eqn:E.
  - apply ascii_eqb_eq in E. subst a.
    destruct b; [intro H; right; eauto|].
    intros [<-|H]; [now left|right; eauto].
  - intros [<-|H]; [now left|right; eauto].
Qed.

Lemma replaceChar_absent (from to : ascii) (s : jsstring) :
  from <> to -> ~ In from (replaceChar from to s).
Proof.
  intros Hne H. unfold replaceChar in H. apply in_map_iff in H.
  destruct H as (c & Hc & _).
  destruct (ascii_eqb c from) eqn:E.
  - apply Hne. now symmetry.
  - subst c. now rewrite ascii_eqb_refl in E.
Qed.

Lemma replaceChar_keeps_absent (from to c : ascii) (s : jsstring) :
  c <> to -> ~ In c s -> ~ In c (replaceChar from to s).
Proof.
  intros Hne Hs H. unfold replaceChar in H. apply in_map_iff in H.
  destruct H as (d & Hd & Hin).
  destruct (ascii_eqb d from); [congruence|]. now subst d.
Qed.

Lemma trim_In (s : jsstring) (c : ascii) : In c (trim s) -> In c s.
Proof.
  destruct (trim_decompose s) as (pre & post & H). intro Hc.
  rewrite H. apply in_or_app. right. apply in_or_app. now left.
Qed.

Lemma extractTextFromTxt_normal (content : jsstring) :
  normalized (extractTextFromTxt content).
Proof.
  unfold normalized, extractTextFromTxt.
  set (a := replaceChar CR LF (replaceCRLF content)).
  set (b := replaceChar TAB SPACE a).
  split; [|split; [|split]].
  - intro H. apply trim_In, collapseSpaces_In in H. revert H.
    apply replaceChar_keeps_absent; [discriminate|].
    apply replaceChar_absent. discriminate.
  - intro H. apply trim_In, collapseSpaces_In in H. revert H.
    apply replaceChar_absent. discriminate.
  - destruct (trim_decompose (collapseSpaces b false)) as (pre & post & H).
    pose proof (proj1 (collapseSpaces_single b)) as Hd.
    rewrite H in Hd. apply hasDoubleSpace_app_inv in Hd.
    now apply hasDoubleSpace_prefix in Hd.
  - apply trim_idem.
Qed.

Lemma includes_single (s : jsstring) (c : ascii) :
  ~ In c s -> includes s [c] = false.
Proof.
  intro H. apply includes_false. intros (pre & post & Hs). apply H.
  rewrite Hs. apply in_or_app. right. now left.
Qed.

Lemma includes_double_space (s : jsstring) :
  hasDoubleSpace s = false -> includes s [SPACE; SPACE] = false.
Proof.
  intro H. apply includes_false. intros (pre & post & Hs).
  rewrite Hs in H. apply hasDoubleSpace_app_inv in H.
  cbn [app hasDoubleSpace] in H. rewrite ascii_eqb_refl in H. discriminate.
Qed.

(** Whatever the content, the text that [extractTextFromTxt] returns holds
    no carriage return, no tab and no two spaces in a row ([includes] is
    false for each), and [trim] leaves it as it is. *)
Theorem extractTextFromTxt_normalized (content : jsstring) :
  let out := extractTextFromTxt content in
  includes out [CR] = false
  /\ includes out [TAB] = false
  /\ includes out (str "  "%string) = false
  /\ trim out = out.
Proof.
  intro out. destruct (extractTextFromTxt_normal content)
    as (Hcr & Htab & Hds & Htrim). fold out in Hcr, Htab, Hds, Htrim.
  split; [now apply includes_single|]. split; [now apply includes_single|].
  split; [|exact Htrim]. now apply includes_double_space.
Qed.

Lemma replaceCRLF_fixed (s : jsstring) : ~ In CR s -> replaceCRLF s = s.
Proof.
  induction s as [|c s IH]; [reflexivity|]. intro H.
  cbn [replaceCRLF]. destruct s as [|d s]; [reflexivity|].
  rewrite (ascii_eqb_neq c CR) by (intros ->; apply H; now left).
  cbn [andb]. f_equal. apply IH. intro Hin. apply H. now right.
Qed.

Lemma replaceChar_fixed (from to : ascii) (s : jsstring) :
  ~ In from s -> replaceChar from to s = s.
Proof.
  intro H. unfold replaceChar. rewrite <- (map_id s) at 2.
  apply map_ext_in. intros c Hc.
  rewrite ascii_eqb_neq; [reflexivity|]. intros ->. contradiction.
Qed.

Lemma collapseSpaces_fixed (s : jsstring) :
  hasDoubleSpace s = false ->
  collapseSpaces s false = s
  /\ (hasDoubleSpace (SPACE :: s) = false -> collapseSpaces s true = s).
Proof.
  induction s as [|c s IH]; [now split|]. intro H.
  assert (Hs : hasDoubleSpace s = false)
    by (apply (hasDoubleSpace_app_inv [c]); exact H).
  destruct (IH Hs) as [IH1 IH2]. cbn [collapseSpaces].
  destruct (ascii_eqb c SPACE) eqn:E.
  - apply ascii_eqb_eq in E. subst c. split.
    + f_equal. now apply IH2.
    + intro H2. cbn [hasDoubleSpace] in H2.
      rewrite ascii_eqb_refl in H2. discriminate.
  - split; intros; now rewrite IH1.
Qed.

(** A normalized text is returned as it is, and so [extractTextFromTxt]
    applied to its own result changes nothing. *)
Theorem extractTextFromTxt_idempotent (content : jsstring) :
  (normalized content -> extractTextFromTxt content = content)
  /\ extractTextFromTxt (extractTextFromTxt content)
     = extractTextFromTxt content.
Proof.
  assert (Hfix : forall s, normalized s -> extractTextFromTxt s = s).
  { intros s (Hcr & Htab & Hds & Htrim). unfold extractTextFromTxt.
    rewrite (replaceCRLF_fixed s Hcr), (replaceChar_fixed CR LF s Hcr),
      (replaceChar_fixed TAB SPACE s Htab).
    now rewrite (proj1 (collapseSpaces_fixed s Hds)). }
  split; [apply Hfix|]. apply Hfix, extractTextFromTxt_normal.
Qed.

Lemma extractTextFromTxt_idempotent_witness :
  extractTextFromTxt (str "one two"%string) = str "one two"%string.
Proof.
  apply (proj1 (extractTextFromTxt_idempotent (str "one two"%string))).
  repeat split; try reflexivity; vm_compute; intuition discriminate.
Defined.

(** ** Upload: the text that is stored *)

Lemma collapseWhiteSpace_single (s : jsstring) :
  hasDoubleSpace (collapseWhiteSpace s false) = false
  /\ hasDoubleSpace (SPACE :: collapseWhiteSpace s true) = false.
Proof.
  induction s as [|c s [IH1 IH2]]; [now split|].
  cbn [collapseWhiteSpace]. destruct (isWhiteSpace c) eqn:E.
  - split; exact IH2.
  - assert (Ec : ascii_eqb c SPACE = false).
    { apply ascii_eqb_neq. intros ->. discriminate. }
    assert (Hc : hasDoubleSpace (c :: collapseWhiteSpace s false) = false).
    { cbn [hasDoubleSpace]. destruct (collapseWhiteSpace s false) eqn:E2;
        [reflexivity|]. rewrite Ec. exact IH1. }
    split; [exact Hc|].
    change (hasDoubleSpace (SPACE :: c :: collapseWhiteSpace s false))
      with (ascii_eqb SPACE SPACE && ascii_eqb c SPACE
            || hasDoubleSpace (c :: collapseWhiteSpace s false)).
    rewrite Ec, andb_false_r. exact Hc.
Qed.

Lemma collapseWhiteSpace_spaces (s : jsstring) (b : bool) (c : ascii) :
  In c (collapseWhiteSpace s b) -> isWhiteSpace c = true -> c = SPACE.
Proof.
  revert b. induction s as [|a s IH]; intro b; [intros []|].
  cbn [collapseWhiteSpace]. destruct (isWhiteSpace a) eqn:E.
  - destruct b; [apply IH|]. intros [<-|H]; [reflexivity|eauto].
  - intros [<-|H] Hc; [congruence|eauto].
Qed.

Lemma trim_no_double_space (s : jsstring) :
  hasDoubleSpace s = false -> hasDoubleSpace (trim s) = false.
Proof.
  intro Hd. destruct (trim_decompose s) as (pre & post & H).
  rewrite H in Hd. apply hasDoubleSpace_app_inv in Hd.
  now apply hasDoubleSpace_prefix in Hd.
Qed.

(** The text of a document that the upload route creates has at least ten
    code units, no white space at either end and no two spaces in a row.
    From a text file it is normalized; from a PDF it holds no white space
    other than the space, and [isGarbledText] is false on it. *)
Theorem uploadText_stored (isPdf : bool) (raw fullText : jsstring) :
  uploadText isPdf raw = Stored fullText ->
  10 <= len fullText
  /\ trim fullText = fullText
  /\ hasDoubleSpace fullText = false
  /\ (isPdf = false -> normalized fullText)
  /\ (isPdf = true ->
      isGarbledText fullText = false
      /\ forall c, In c fullText -> isWhiteSpace c = true -> c = SPACE).
Proof.
  unfold uploadText.
  assert (Hchecked : forall t,
             (if negb (truthy t) || (len t <? 10)
              then BadRequest (str "Could not extract text from file"%string)
              else Stored t) = Stored fullText ->
             t = fullText /\ 10 <= len fullText).
  { intros t H. destruct (negb (truthy t) || (len t <? 10)) eqn:E;
      [discriminate|].
    injection H as <-. apply orb_false_iff in E. destruct E as [_ E].
    apply Z.ltb_ge in E. now split. }
  destruct isPdf.
  - destruct (isGarbledText (trim (collapseWhiteSpace raw false))) eqn:Eg;
      [discriminate|].
    intro H. apply Hchecked in H. destruct H as [<- Hlen].
    split; [exact Hlen|]. split; [apply trim_idem|]. split.
    { apply trim_no_double_space, collapseWhiteSpace_single. }
    split; [discriminate|]. intros _. split; [exact Eg|].
    intros c Hc. apply trim_In in Hc. revert Hc.
    apply collapseWhiteSpace_spaces.
  - intro H. apply Hchecked in H. destruct H as [<- Hlen].
    pose proof (extractTextFromTxt_normal raw) as Hn.
    split; [exact Hlen|]. split; [apply Hn|]. split; [apply Hn|].
    split; [intros _; exact Hn|discriminate].
Qed.

Lemma uploadText_stored_witness :
  10 <= len (str "Cats purr. Dogs bark."%string)
  /\ normalized (str "Cats purr. Dogs bark."%string).
Proof.
  destruct (uploadText_stored false
              (str "  Cats purr.   Dogs bark.  "%string)
              (str "Cats purr. Dogs bark."%string) eq_refl)
    as (H1 & _ & _ & H2 & _).
  split; [exact H1|now apply H2].
Defined.

(** The garbled-text test cannot reject a short PDF: when the cleaned text
    has from 10 to 99 code units the route stores it, whatever it holds. *)
Theorem uploadText_short_pdf (raw : jsstring) :
  let fullText := trim (collapseWhiteSpace raw false) in
  10 <= len fullText < 100 -> uploadText true raw = Stored fullText.
Proof.
  intros fullText [H1 H2]. unfold uploadText. fold fullText.
  assert (Hg : isGarbledText fullText = false).
  { unfold isGarbledText.
    replace (len fullText <? 100) with true
      by (symmetry; apply Z.ltb_lt; exact H2).
    now rewrite orb_true_r. }
  rewrite Hg.
  replace (len fullText <? 10) with false
    by (symmetry; apply Z.ltb_ge; exact H1).
  destruct fullText; [unfold len in H1; simpl in H1; lia|reflexivity].
Qed.

Lemma uploadText_short_pdf_witness :
  uploadText true (str "@#$% @#$% @#$%"%string)
  = Stored (str "@#$% @#$% @#$%"%string).
Proof.
  apply (uploadText_short_pdf (str "@#$% @#$% @#$%"%string)).
  vm_compute. split; [discriminate|reflexivity].
Defined.

(** ** Citations *)

Lemma splitCharAux_nonempty (sep : ascii) (s cur : jsstring) :
  splitCharAux sep s cur <> [].
Proof.
  revert cur. induction s as [|c s IH]; intro cur; simpl; [discriminate|].
  destruct (ascii_eqb c sep); [discriminate|apply IH].
Qed.

Lemma join_cons (sep p : jsstring) (rest : list jsstring) :
  rest <> [] -> join sep (p :: rest) = p ++ sep ++ join sep rest.
Proof. destruct rest; [contradiction|reflexivity]. Qed.

Lemma join_app (sep : jsstring) (l1 l2 : list jsstring) :
  l1 <> [] -> l2 <> [] ->
  join sep (l1 ++ l2) = join sep l1 ++ sep ++ join sep l2.
Proof.
  intros H1 H2. induction l1 as [|p l1 IH]; [contradiction|].
  destruct l1 as [|q l1].
  - simpl app. now rewrite join_cons.
  - rewrite <- app_comm_cons, join_cons by discriminate.
    rewrite IH by discriminate. rewrite (join_cons sep p) by discriminate.
    now rewrite <- !app_assoc.
Qed.

Lemma join_splitCharAux (sep : ascii) (s cur : jsstring) :
  join [sep] (splitCharAux sep s cur) = cur ++ s.
Proof.
  revert cur. induction s as [|c s IH]; intro cur; cbn [splitCharAux].
  - simpl. now rewrite app_nil_r.
  - destruct (ascii_eqb c sep) eqn:E.
    + apply ascii_eqb_eq in E. subst c.
      rewrite join_cons by apply splitCharAux_nonempty. now rewrite IH.
    + rewrite IH. now rewrite <- app_assoc.
Qed.

Lemma splitCharAux_app (sep : ascii) (p s cur : jsstring) :
  ~ In sep p ->
  splitCharAux sep (p ++ s) cur = splitCharAux sep s (cur ++ p).
Proof.
  revert cur. induction p as [|c p IH]; intros cur H.
  - now rewrite app_nil_r.
  - cbn [app splitCharAux].
    rewrite ascii_eqb_neq by (intros ->; apply H; now left).
    rewrite IH by (intro Hin; apply H; now right).
    now rewrite <- app_assoc.
Qed.

Lemma splitChar_join (sep : ascii) (ps : list jsstring) :
  ps <> [] -> Forall (fun p => ~ In sep p) ps ->
  splitChar sep (join [sep] ps) = ps.
Proof.
  unfold splitChar. intros Hne Hall.
  induction Hall as [|p ps Hp Hps IH]; [contradiction|].
  destruct ps as [|q ps].
  - simpl join. pose proof (splitCharAux_app sep p [] [] Hp) as H.
    rewrite app_nil_r in H. exact H.
  - rewrite join_cons by discriminate.
    rewrite splitCharAux_app by exact Hp.
    cbn [app splitCharAux]. rewrite ascii_eqb_refl.
    f_equal. apply IH. discriminate.
Qed.

Lemma splitCharAux_pieces (sep : ascii) (s cur : jsstring) :
  ~ In sep cur -> Forall (fun p => ~ In sep p) (splitCharAux sep s cur).
Proof.
  revert cur. induction s as [|c s IH]; intros cur H; cbn [splitCharAux].
  - now constructor.
  - destruct (ascii_eqb c sep) eqn:E.
    + constructor; [exact H|]. apply IH. intros [].
    + apply IH. rewrite in_app_iff. intros [Hin|[<-|[]]]; [auto|].
      now rewrite ascii_eqb_refl in E.
Qed.

(** Splitting a text at a code unit and joining the pieces with it gives
    the text back.  [getShortTitle] returns a leading part of the title,
    made of its first four pieces between spaces when there are more than
    four; applied to its own result it changes nothing. *)
Theorem getShortTitle_prefix (t : jsstring) :
  join [" "%char] (splitChar " "%char t) = t
  /\ (exists rest, t = getShortTitle t ++ rest)
  /\ len (splitChar " "%char (getShortTitle t)) <= 4
  /\ getShortTitle (getShortTitle t) = getShortTitle t.
Proof.
  assert (Hjoin : join [" "%char] (splitChar " "%char t) = t)
    by apply join_splitCharAux.
  assert (Hshort : (exists rest, t = getShortTitle t ++ rest)
                   /\ len (splitChar " "%char (getShortTitle t)) <= 4).
  { unfold getShortTitle. set (words := splitChar " "%char t) in *.
    destruct (len words <=? 4) eqn:E.
    - split; [exists []; now rewrite app_nil_r|]. now apply Z.leb_le.
    - apply Z.leb_gt in E. rewrite slice_prefix by lia.
      change (Z.to_nat 4) with 4%nat. change (str " "%string) with [" "%char].
      assert (H1 : firstn 4 words <> []).
      { destruct words as [|? [|? [|? [|? ?]]]];
          unfold len in E; simpl in E; try lia; discriminate. }
      assert (H2 : skipn 4 words <> []).
      { destruct words as [|? [|? [|? [|? [|? ?]]]]];
          unfold len in E; simpl in E; try lia; discriminate. }
      split.
      + exists ([" "%char] ++ join [" "%char] (skipn 4 words)).
        rewrite <- join_app by assumption. rewrite firstn_skipn.
        symmetry. exact Hjoin.
      + rewrite splitChar_join; [|exact H1|].
        * unfold len. rewrite length_firstn. lia.
        * assert (Hall : Forall (fun p => ~ In " "%char p) words)
            by (apply splitCharAux_pieces; intros []).
          rewrite Forall_forall in *. intros p Hp. apply Hall.
          rewrite <- (firstn_skipn 4 words). apply in_or_app. now left. }
  split; [exact Hjoin|]. split; [apply Hshort|]. split; [apply Hshort|].
  destruct Hshort as [_ H4]. unfold getShortTitle at 1.
  apply Z.leb_le in H4. now rewrite H4.
Qed.

Lemma slice_drop_last {A : Type} (body : list A) (x : A) :
  slice (body ++ [x]) 0 (-1) = body.
Proof.
  unfold slice, relIndex. rewrite len_app.
  change (len [x]) with 1. pose proof (len_nonneg body).
  replace (0 <? 0) with false by reflexivity.
  replace (-1 <? 0) with true by reflexivity.
  rewrite Z.min_l, Z.max_l by lia. simpl skipn.
  replace (len body + 1 + -1 - 0) with (len body) by lia.
  unfold len. rewrite Nat2Z.id, firstn_app, firstn_all, Nat.sub_diag.
  simpl. apply app_nil_r.
Qed.

Lemma generateChicagoFootnote_period {engine : Engine}
    (citation : CitationData) (pageNumber : nullable) (isSubsequent : bool) :
  exists body,
    generateChicagoFootnote citation pageNumber isSubsequent
    = body ++ str "."%string.
Proof.
  unfold generateChicagoFootnote.
  destruct isSubsequent;
    [destruct (isArticle (sourceType citation))
    | destruct (sourceType citation)];
    cbv zeta; rewrite !app_assoc; eexists; reflexivity.
Qed.

(** Every footnote ends in a period, and the footnote with a quote is the
    first footnote without that period, followed by a colon and by the
    displayed quote between double quotes, the closing period inside. *)
Theorem generateFootnoteWithQuote_form {engine : Engine}
    (citation : CitationData) (quote : jsstring) (pageNumber : nullable)
    (isSubsequent : bool) :
  (exists body,
      generateChicagoFootnote citation pageNumber isSubsequent
      = body ++ str "."%string)
  /\ exists body,
       generateChicagoFootnote citation pageNumber false
       = body ++ str "."%string
       /\ generateFootnoteWithQuote citation quote pageNumber
          = body ++ str ": "%string ++ dq ++ displayQuoteOf quote
            ++ str "."%string ++ dq.
Proof.
  split; [apply generateChicagoFootnote_period|].
  destruct (generateChicagoFootnote_period citation pageNumber false)
    as [body Hbody].
  exists body. split; [exact Hbody|].
  unfold generateFootnoteWithQuote. rewrite Hbody.
  change (str "."%string) with ["."%char] at 1.
  now rewrite slice_drop_last.
Qed.

Lemma hasDoubleSpace_dots (s : jsstring) :
  hasDoubleSpace s = false -> hasDoubleSpace (s ++ str "..."%string) = false.
Proof.
  induction s as [|a s IH]; [reflexivity|].
  cbn [app hasDoubleSpace]. destruct s as [|b s].
  - intros _. now destruct (ascii_eqb a SPACE).
  - cbn [app]. intro H. apply orb_false_iff in H. destruct H as [H1 H2].
    rewrite H1. cbn [orb]. apply IH. exact H2.
Qed.

(** The quote displayed in a footnote has at most 150 code units, its only
    white space is the space, and no two spaces follow each other.  A
    cleaned quote of at most 150 code units is displayed whole; a longer one
    is displayed in exactly 150 code units, the last three being periods. *)
Theorem displayQuoteOf_bounded (quote : jsstring) :
  len (displayQuoteOf quote) <= 150
  /\ (forall c, In c (displayQuoteOf quote) ->
                isWhiteSpace c = true -> c = SPACE)
  /\ hasDoubleSpace (displayQuoteOf quote) = false
  /\ (len (cleanQuoteOf quote) <= 150 ->
      displayQuoteOf quote = cleanQuoteOf quote)
  /\ (150 < len (cleanQuoteOf quote) ->
      len (displayQuoteOf quote) = 150
      /\ endsWithSuffix (displayQuoteOf quote) (str "..."%string)
      /\ slice (displayQuoteOf quote) 0 147
         = slice (cleanQuoteOf quote) 0 147).
Proof.
  unfold displayQuoteOf. set (cleanQuote := cleanQuoteOf quote).
  assert (Hws : forall c, In c cleanQuote ->
                          isWhiteSpace c = true -> c = SPACE)
    by (intro c; apply collapseWhiteSpace_spaces).
  assert (Hsingle : hasDoubleSpace cleanQuote = false)
    by apply collapseWhiteSpace_single.
  destruct (len cleanQuote >? 150) eqn:E.
  - assert (Hlen : 150 < len cleanQuote)
      by (destruct (Z.gtb_spec (len cleanQuote) 150); [lia|discriminate]).
    assert (Hcut : len (slice cleanQuote 0 147) = 147)
      by (rewrite len_slice by lia; lia).
    split; [|split; [|split; [|split]]].
    + rewrite len_app, Hcut. reflexivity.
    + intros c Hc. apply in_app_or in Hc. destruct Hc as [Hc|Hc].
      * apply Hws. rewrite slice_prefix in Hc by lia.
        rewrite <- (firstn_skipn (Z.to_nat 147) cleanQuote).
        apply in_or_app. now left.
      * simpl in Hc. intro Hc2.
        destruct Hc as [<-|[<-|[<-|[]]]]; discriminate.
    + apply hasDoubleSpace_dots. rewrite slice_prefix by lia.
      apply (hasDoubleSpace_prefix _ (skipn (Z.to_nat 147) cleanQuote)).
      now rewrite firstn_skipn.
    + lia.
    + intros _. split; [rewrite len_app, Hcut; reflexivity|].
      split; [now exists (slice cleanQuote 0 147)|].
      rewrite (slice_prefix (_ ++ _)) by lia.
      rewrite firstn_app.
      replace (Z.to_nat 147 - length (slice cleanQuote 0 147))%nat with 0%nat
        by (unfold len in Hcut; lia).
      rewrite firstn_O, app_nil_r. apply firstn_all2.
      unfold len in Hcut. lia.
  - assert (Hlen : len cleanQuote <= 150)
      by (destruct (Z.gtb_spec (len cleanQuote) 150); [discriminate|lia]).
    split; [exact Hlen|]. split; [exact Hws|].
    split; [exact Hsingle|]. split; [reflexivity|]. lia.
Qed.

(** A quote of 240 code units, with two spaces after each word, cleaned to
    199 code units. *)
Lemma displayQuoteOf_bounded_witness :
  len (displayQuoteOf (concat (repeat (str "word  "%string) 40))) = 150
  /\ endsWithSuffix (displayQuoteOf (concat (repeat (str "word  "%string) 40)))
                    (str "..."%string).
Proof.
  destruct (proj2 (proj2 (proj2 (proj2
              (displayQuoteOf_bounded
                 (concat (repeat (str "word  "%string) 40))))))
              ltac:(vm_compute; reflexivity))
    as (Hlen & Hend & _).
  split; [exact Hlen|exact Hend].
Defined.

Lemma monthName_out_of_range (n : option Z) :
  (forall k, n = Some k -> k < 1 \/ 12 < k) -> monthName n = [].
Proof.
  intro H. unfold monthName. destruct n as [k|]; [|reflexivity].
  destruct (H k eq_refl) as [Hk|Hk].
  - replace (1 <=? k) with false by (symmetry; apply Z.leb_gt; lia).
    reflexivity.
  - replace (k <=? 12) with false by (symmetry; apply Z.leb_gt; lia).
    now rewrite andb_false_r.
Qed.

(** Whatever the text of the date, [formatDate] ends with the year that
    [getYear] reads from it; when the month field is not a number from 1 to
    12 the year is all it returns, whatever the day field. *)
Theorem formatDate_year {engine : Engine} (d : jsstring) :
  (exists pre, formatDate (Some d) = pre ++ getYear (Some d))
  /\ ((forall k, parseInt10 (nth 1 (splitChar "-"%char d) []) = Some k ->
                 k < 1 \/ 12 < k) ->
      formatDate (Some d) = getYear (Some d)).
Proof.
  unfold formatDate, getYear.
  destruct (negb (truthy d)); [split; [now exists []|reflexivity]|].
  set (parts := splitChar "-"%char d).
  destruct (len parts =? 1); [split; [now exists []|reflexivity]|].
  split.
  - set (month := monthName (parseInt10 (nth 1 parts []))).
    destruct (match nth_error parts 2 with
              | Some p => if truthy p then parseInt10 p else None
              | None => None
              end) as [n|].
    + destruct (negb (n =? 0) && truthy month).
      * rewrite !app_assoc. eexists. reflexivity.
      * destruct (truthy month); [|now exists []].
        rewrite !app_assoc. eexists. reflexivity.
    + destruct (truthy month); [|now exists []].
      rewrite !app_assoc. eexists. reflexivity.
  - intro H. rewrite (monthName_out_of_range _ H). cbn [truthy].
    destruct (match nth_error parts 2 with
              | Some p => if truthy p then parseInt10 p else None
              | None => None
              end) as [n|]; [|reflexivity].
    now rewrite andb_false_r.
Qed.

Lemma formatDate_year_witness :
  formatDate (engine := sampleEngine) (Some (str "2020-13-15"%string))
  = str "2020"%string.
Proof.
  apply (proj2 (formatDate_year (engine := sampleEngine)
                  (str "2020-13-15"%string))).
  intros k H. vm_compute in H. injection H as <-. right. lia.
Defined.

Lemma bibliographyLoop_form (last : Author) (middle : list Author)
    (i n : Z) (result : jsstring) :
  i + len middle = n - 1 ->
  bibliographyLoop (middle ++ [last]) i n result
  = result
    ++ concat (map (fun a => str ", "%string ++ namedInFull a) middle)
    ++ str ", and "%string ++ namedInFull last.
Proof.
  revert i result. induction middle as [|a middle IH]; intros i result Hi.
  - cbn [app bibliographyLoop map concat].
    change (len (@nil Author)) with 0 in Hi.
    replace (i =? n - 1) with true by (symmetry; apply Z.eqb_eq; lia).
    reflexivity.
  - cbn [app bibliographyLoop map concat]. rewrite len_cons in Hi.
    pose proof (len_nonneg middle).
    replace (i =? n - 1) with false by (symmetry; apply Z.eqb_neq; lia).
    rewrite IH by lia. unfold namedInFull. now rewrite <- !app_assoc.
Qed.

(** With two or more authors the bibliography names the first one last name
    first, each of the others first name first after a comma, and puts
    [and] before the last one, after a comma also when there are only
    two. *)
Theorem formatAuthorsForBibliography_form (first last : Author)
    (middle : list Author) :
  formatAuthorsForBibliography (Some (first :: middle ++ [last]))
  = invertedName first
    ++ concat (map (fun a => str ", "%string ++ namedInFull a) middle)
    ++ str ", and "%string ++ namedInFull last.
Proof.
  unfold formatAuthorsForBibliography.
  assert (Hrun : bibliographyLoop (middle ++ [last]) 1
                   (len (first :: middle ++ [last]))
                   (lastName first ++ str ", "%string ++ firstName first
                    ++ suffixOf first)
                 = invertedName first
                   ++ concat (map (fun a => str ", "%string ++ namedInFull a)
                                  middle)
                   ++ str ", and "%string ++ namedInFull last).
  { rewrite bibliographyLoop_form.
    - unfold invertedName. now rewrite <- !app_assoc.
    - rewrite len_cons, len_app. change (len [last]) with 1. lia. }
  destruct middle; exact Hrun.
Qed.

(** ** The chunker: termination and the order of the chunks *)

(** When [0 <= overlap] and [overlap + 49 <= chunkSize], as with the
    default parameters, [chunkText] returns once the fuel exceeds the length
    of the text, and adding fuel does not change the result; the chunks come
    in strictly increasing [startPosition], each with
    [0 <= startPosition < endPosition], its text the slice between the two,
    and [endPosition <= len txt] unless the tentative end
    [start + chunkSize] was kept. *)
Theorem chunkText_terminates_ordered (txt : jsstring)
    (chunkSize overlap : Z) (fuel : nat) :
  0 <= overlap -> overlap + 49 <= chunkSize ->
  (length txt < fuel)%nat ->
  exists cs,
    (forall fuel', (fuel <= fuel')%nat ->
                   chunkText fuel' txt chunkSize overlap = Some cs)
    /\ Forall (chunkShape txt chunkSize) cs
    /\ StronglySorted startsBefore cs.
Proof.
  intros Ho Hc Hf.
  destruct (chunkLoop_progress txt chunkSize overlap fuel Ho Hc 0 [])
    as (out & H1 & H2 & H3); [lia | unfold len; lia |].
  exists out. simpl in H1. split; [|split; [|exact H3]].
  - intros fuel' Hle. unfold chunkText.
    eapply chunkLoop_fuel_mono; eassumption.
  - eapply Forall_impl; [|exact H2]. intros c [_ H]. exact H.
Qed.

Lemma chunkText_terminates_ordered_witness :
  exists cs,
    (forall fuel', (1301 <= fuel')%nat ->
                   chunkText fuel' sentencesText defaultChunkSize
                     defaultOverlap = Some cs)
    /\ Forall (chunkShape sentencesText defaultChunkSize) cs
    /\ StronglySorted startsBefore cs.
Proof.
  apply (chunkText_terminates_ordered sentencesText defaultChunkSize
           defaultOverlap 1301);
    [unfold defaultOverlap; lia
    | unfold defaultOverlap, defaultChunkSize; lia
    | vm_compute; lia].
Defined.
